(** * Mentorfy ingestion pipeline: a shallow embedding and its properties

    The development follows the Python sources under [apps/api/mentorfy]:

    - [core/retry_policy.py]      : module [RetryPolicy]
    - [core/rate_limiter.py]      : module [RateLimiter]
    - [services/chunking_service.py] : module [Chunking]
    - [utils/deletion.py], [core/pipeline_helpers.py], [core/queues.py],
      [workers/*.py]              : modules [Store], [Deletion],
                                     [PipelineHelpers], [Workers]

    Conventions.  Python [str] values are [string]s, one [ascii] standing for
    one character.  Python [int]s are [Z] (or [nat] where the source only
    ever counts upwards from zero).  [None] is [None].  Database generated
    UUIDs are natural numbers handed out by a counter in the store.  An
    exception is a record carrying the class name, the defining module and
    the message, which is all the code ever inspects. *)

From Stdlib Require Import ZArith List String Ascii Bool Lia Arith DecimalString Sorted Permutation.
Import ListNotations.

Local Open Scope string_scope.

(** ** Python helpers *)

Module Py.

(** [str.lower()] on the ASCII range. *)
Definition lower_ascii (c : ascii) : ascii :=
  let n := nat_of_ascii c in
  if (65 <=? n)%nat && (n <=? 90)%nat then ascii_of_nat (n + 32) else c.

Fixpoint lower (s : string) : string :=
  match s with
  | EmptyString => EmptyString
  | String c s' => String (lower_ascii c) (lower s')
  end.

(** [needle in s] for strings. *)
Fixpoint contains (needle s : string) : bool :=
  String.prefix needle s ||
  match s with
  | EmptyString => false
  | String _ s' => contains needle s'
  end.

(** Whether a name is qualified, i.e. carries a dot. *)
Fixpoint has_dot (s : string) : bool :=
  match s with
  | EmptyString => false
  | String c s' => Ascii.eqb c "."%char || has_dot s'
  end.

(** [x in xs] for a set or list of strings. *)
Definition mem (x : string) (xs : list string) : bool :=
  existsb (String.eqb x) xs.

(** Truthiness of an [Optional[str]] and of an [Optional[int]]. *)
Definition truthy_str (o : option string) : bool :=
  match o with
  | Some s => negb (String.eqb s "")
  | None => false
  end.

Definition truthy_int (o : option Z) : bool :=
  match o with
  | Some z => negb (z =? 0)%Z
  | None => false
  end.

(** An exception instance as far as the pipeline looks at it:
    [type(e).__name__], [type(e).__module__], [str(e)] and the optional
    [retry_after] attribute. *)
Record error := mkError {
  err_type : string;
  err_module : string;
  err_message : string;
  err_retry_after : option Z
}.

Definition builtin_error (name msg : string) : error :=
  mkError name "builtins" msg None.

End Py.

(** ** core/retry_policy.py *)

Module RetryPolicy.
Import Py.

Definition RETRY_DELAYS : list Z := [60; 300; 900]%Z.
Definition MAX_RETRIES : nat := 3.

Definition PHASE_BASE_EXECUTION_TIME : list (string * Z) :=
  [("extraction", 600); ("chunking", 300); ("kg_ingest", 1200)]%Z.

Definition RETRYABLE_ERRORS : list string :=
  [ "ConnectionError"; "Timeout"; "ReadTimeout"; "TimeoutError";
    "HTTPError"; "APIError";
    "RateLimitError"; "AnthropicRateLimitError"; "ServiceUnavailable";
    "httpx.ReadTimeout"; "httpcore.ReadTimeout";
    "httpx.TimeoutException"; "httpcore.TimeoutException";
    "PartialIngestError" ].

Definition NON_RETRYABLE_ERRORS : list string :=
  [ "ValidationError"; "ValueError"; "FileNotFoundError";
    "InvalidFileFormat"; "AuthenticationError"; "PermissionDenied" ].

(** [class PartialIngestError(Exception)], defined in this module. *)
Definition PartialIngestError (msg : string) : error :=
  mkError "PartialIngestError" "mentorfy.core.retry_policy" msg None.

Definition full_error_type (e : error) : string :=
  if String.eqb (err_module e) "builtins" then err_type e
  else err_module e ++ "." ++ err_type e.

(** [status_code and 400 <= status_code < 500 and status_code != 429] *)
Definition client_error_status (status_code : option Z) : bool :=
  match status_code with
  | Some sc =>
      negb (sc =? 0)%Z && ((400 <=? sc)%Z && (sc <? 500)%Z) && negb (sc =? 429)%Z
  | None => false
  end.

(** [status_code and status_code >= 500] *)
Definition server_error_status (status_code : option Z) : bool :=
  match status_code with
  | Some sc => negb (sc =? 0)%Z && (500 <=? sc)%Z
  | None => false
  end.

Definition is_retryable_error (e : error) (status_code : option Z) : bool :=
  let error_type := err_type e in
  let full := full_error_type e in
  if mem error_type NON_RETRYABLE_ERRORS || mem full NON_RETRYABLE_ERRORS then false
  else if client_error_status status_code then false
  else if contains "timeout" (lower error_type)
          || contains "timeout" (lower (err_message e)) then true
  else if mem error_type RETRYABLE_ERRORS || mem full RETRYABLE_ERRORS
          || server_error_status status_code then true
  else true.

(** [RETRY_DELAYS[-1]] *)
Definition last_delay : Z := last RETRY_DELAYS 0%Z.

Definition get_retry_delay (retry_count : nat) (e : option error) : Z :=
  match e with
  | Some err =>
      if truthy_int (err_retry_after err)
      then match err_retry_after err with Some d => d | None => 0%Z end
      else if (List.length RETRY_DELAYS <=? retry_count)%nat then last_delay
      else nth retry_count RETRY_DELAYS 0%Z
  | None =>
      if (List.length RETRY_DELAYS <=? retry_count)%nat then last_delay
      else nth retry_count RETRY_DELAYS 0%Z
  end.

Definition get_max_retry_duration : Z := fold_right Z.add 0%Z RETRY_DELAYS.

Fixpoint dict_get (k : string) (d : list (string * Z)) (default : Z) : Z :=
  match d with
  | [] => default
  | (k', v) :: d' => if String.eqb k k' then v else dict_get k d' default
  end.

Definition get_phase_timeout (phase : string) : Z :=
  let base_time := dict_get phase PHASE_BASE_EXECUTION_TIME 600%Z in
  let retry_duration := get_max_retry_duration in
  let safety_buffer := 300%Z in
  (base_time + retry_duration + safety_buffer)%Z.
End RetryPolicy.

(** ** core/rate_limiter.py *)

(** A Redis sorted set: members with a score, one entry per member, read
    back in increasing score order (equal scores: by member). *)
Module ZSet.
Section Ops.
Context {M : Type}.
Variable meqb : M -> M -> bool.
Variable mltb : M -> M -> bool.

Definition zset := list (M * Z).

Definition zrem_member (m : M) (z : zset) : zset :=
  filter (fun e => negb (meqb (fst e) m)) z.

Fixpoint zinsert (m : M) (sc : Z) (z : zset) : zset :=
  match z with
  | [] => [(m, sc)]
  | (m', sc') :: r =>
      if (sc <? sc')%Z || ((sc =? sc')%Z && mltb m m')
      then (m, sc) :: z
      else (m', sc') :: zinsert m sc r
  end.

(** [ZADD key {m: sc}]: an existing member only has its score replaced. *)
Definition zadd (m : M) (sc : Z) (z : zset) : zset :=
  zinsert m sc (zrem_member m z).

(** [ZREMRANGEBYSCORE key lo hi]: both bounds inclusive. *)
Definition zremrangebyscore (lo hi : Z) (z : zset) : zset :=
  filter (fun e => negb ((lo <=? snd e)%Z && (snd e <=? hi)%Z)) z.

Definition zcard (z : zset) : Z := Z.of_nat (List.length z).

(** [ZRANGE key 0 0 WITHSCORES] *)
Definition zrange_first (z : zset) : option (M * Z) := hd_error z.
End Ops.

(** Total weight of a list, for sums over the entries of a set. *)
Definition weight_sum {A} (w : A -> Z) (l : list A) : Z :=
  fold_right (fun x acc => (w x + acc)%Z) 0%Z l.
End ZSet.

Module RateLimiter.
Import Py ZSet.

Section Limiter.
(** Timestamps are the readings of [time.time()] counted in clock
    ticks; [sec] is the number of ticks in one second, so that the
    literal [60] of the source is [60 * sec]. *)
Variable sec : Z.

Record config := mkConfig {
  rpm_limit : option Z;
  tpm_limit : option Z
}.

(** A Redis key holding a sorted set, with the instant at which its
    [EXPIRE] fires. *)
Record key_state (M : Type) := mkKey {
  entries : list (M * Z);
  expire_at : option Z
}.
Arguments mkKey {M}.
Arguments entries {M}.
Arguments expire_at {M}.

(** The RPM member is the string of the instant; the TPM member is
    ["<instant>:<tokens>"], kept as the pair it encodes. *)
Definition tpm_member := (Z * Z)%type.

Record state := mkState {
  rpm_key : key_state Z;
  tpm_key : key_state tpm_member
}.

Definition empty_key {M} : key_state M := mkKey [] None.
Definition empty_state : state := mkState empty_key empty_key.

(** What Redis still holds of a key at instant [now]. *)
Definition live {M} (now : Z) (k : key_state M) : key_state M :=
  match expire_at k with
  | Some x => if (x <=? now)%Z then empty_key else k
  | None => k
  end.

Definition rpm_eqb (a b : Z) : bool := (a =? b)%Z.
Definition rpm_ltb (a b : Z) : bool := false.

Definition tpm_eqb (a b : tpm_member) : bool :=
  (fst a =? fst b)%Z && (snd a =? snd b)%Z.

Definition tokens_text (n : Z) : string :=
  DecimalString.NilZero.string_of_int (Z.to_int n).

(** Members of equal score share the instant, so their order is the
    order of the token texts. *)
Definition tpm_ltb (a b : tpm_member) : bool :=
  String.ltb (tokens_text (snd a)) (tokens_text (snd b)).

Definition limit_of (o : option Z) : Z :=
  match o with Some z => z | None => 0%Z end.

Definition acquire_request (cfg : config) (now : Z) (st : state)
  : state * (bool * Z) :=
  if negb (truthy_int (rpm_limit cfg)) then (st, (true, 0%Z))
  else
    let k := live now (rpm_key st) in
    let pruned := zremrangebyscore 0 (now - 60 * sec) (entries k) in
    let current_count := zcard pruned in
    if (current_count <? limit_of (rpm_limit cfg))%Z then
      let k' := mkKey (zadd rpm_eqb rpm_ltb now now pruned)
                      (Some (now + 61 * sec)%Z) in
      (mkState k' (tpm_key st), (true, 0%Z))
    else
      let wait :=
        match zrange_first pruned with
        | Some (_, oldest_time) => Z.max 0 ((oldest_time + 60 * sec) - now)
        | None => (1 * sec)%Z
        end in
      (mkState (mkKey pruned (expire_at k)) (tpm_key st), (false, wait)).

Definition sum_tokens (es : list (tpm_member * Z)) : Z :=
  fold_right (fun e acc => (snd (fst e) + acc)%Z) 0%Z es.

(** The loop looking for the instant at which enough tokens expire. *)
Fixpoint wait_for_deficit (deficit freed now : Z)
         (es : list (tpm_member * Z)) : Z :=
  match es with
  | [] => (1 * sec)%Z
  | (m, timestamp) :: r =>
      let freed' := (freed + snd m)%Z in
      if (deficit <=? freed')%Z
      then Z.max 0 ((timestamp + 60 * sec) - now)
      else wait_for_deficit deficit freed' now r
  end.

Definition acquire_tokens (cfg : config) (token_count : Z) (now : Z)
           (st : state) : state * (bool * Z) :=
  if negb (truthy_int (tpm_limit cfg)) then (st, (true, 0%Z))
  else
    let k := live now (tpm_key st) in
    let pruned := zremrangebyscore 0 (now - 60 * sec) (entries k) in
    let current_tokens := sum_tokens pruned in
    if (current_tokens + token_count <=? limit_of (tpm_limit cfg))%Z then
      let k' := mkKey (zadd tpm_eqb tpm_ltb (now, token_count) now pruned)
                      (Some (now + 61 * sec)%Z) in
      (mkState (rpm_key st) k', (true, 0%Z))
    else
      let deficit := ((current_tokens + token_count)
                      - limit_of (tpm_limit cfg))%Z in
      let wait := wait_for_deficit deficit 0 now pruned in
      (mkState (rpm_key st) (mkKey pruned (expire_at k)), (false, wait)).

Definition get_current_rpm (cfg : config) (now : Z) (st : state) : Z :=
  if negb (truthy_int (rpm_limit cfg)) then 0%Z
  else zcard (zremrangebyscore 0 (now - 60 * sec)
                               (entries (live now (rpm_key st)))).

Definition get_current_tpm (cfg : config) (now : Z) (st : state) : Z :=
  if negb (truthy_int (tpm_limit cfg)) then 0%Z
  else sum_tokens (zremrangebyscore 0 (now - 60 * sec)
                                    (entries (live now (tpm_key st)))).

(** *** Sequential runs against one provider *)

Inductive call :=
| AcquireRequest
| AcquireTokens (token_count : Z).

Definition step (cfg : config) (now : Z) (c : call) (st : state)
  : state * (bool * Z) :=
  match c with
  | AcquireRequest => acquire_request cfg now st
  | AcquireTokens n => acquire_tokens cfg n now st
  end.

(** Each call is made at the instant paired with it; the result list
    keeps the instant, the call and what it returned. *)
Fixpoint run (cfg : config) (st : state) (calls : list (Z * call))
  : list (Z * call * (bool * Z)) :=
  match calls with
  | [] => []
  | (now, c) :: rest =>
      let '(st', r) := step cfg now c st in
      (now, c, r) :: run cfg st' rest
  end.

Fixpoint final_state (cfg : config) (st : state) (calls : list (Z * call))
  : state :=
  match calls with
  | [] => st
  | (now, c) :: rest => final_state cfg (fst (step cfg now c st)) rest
  end.

Definition in_window (s t : Z) : bool :=
  (s <=? t)%Z && (t <? s + 60 * sec)%Z.

(** Number of [acquire_request] grants whose instant lies in
    [[s, s + 60s)]. *)
Fixpoint granted_requests (s : Z) (log : list (Z * call * (bool * Z))) : Z :=
  match log with
  | [] => 0%Z
  | (t, AcquireRequest, (true, _)) :: r =>
      ((if in_window s t then 1 else 0) + granted_requests s r)%Z
  | _ :: r => granted_requests s r
  end.

(** Sum of the token counts granted in [[s, s + 60s)]. *)
Fixpoint granted_tokens (s : Z) (log : list (Z * call * (bool * Z))) : Z :=
  match log with
  | [] => 0%Z
  | (t, AcquireTokens n, (true, _)) :: r =>
      ((if in_window s t then n else 0) + granted_tokens s r)%Z
  | _ :: r => granted_tokens s r
  end.

(** The grants of a log: instants of the granted requests, and
    (instant, tokens) of the granted reservations. *)
Fixpoint req_grants (log : list (Z * call * (bool * Z))) : list Z :=
  match log with
  | [] => []
  | (t, AcquireRequest, (true, _)) :: r => t :: req_grants r
  | _ :: r => req_grants r
  end.

Fixpoint tok_grants (log : list (Z * call * (bool * Z))) : list tpm_member :=
  match log with
  | [] => []
  | (t, AcquireTokens n, (true, _)) :: r => (t, n) :: tok_grants r
  | _ :: r => tok_grants r
  end.

Definition window_count (s : Z) (G : list Z) : Z :=
  Z.of_nat (List.length (filter (in_window s) G)).

Definition window_tokens (s : Z) (G : list tpm_member) : Z :=
  weight_sum snd (filter (fun g => in_window s (fst g)) G).

(** What the RPM key remembers after the calls made up to instant [T],
    [G] being the instants granted so far: every grant younger than
    sixty seconds is still a member, and the key will not expire
    before it is sixty-one seconds old. *)
Definition rpm_inv (T : Z) (G : list Z) (k : key_state Z) : Prop :=
  (forall t, In t G -> (t <= T)%Z) /\
  (forall t, In t G -> (T < t + 60 * sec)%Z ->
     In (t, t) (entries k) /\
     exists x, expire_at k = Some x /\ (t + 61 * sec <= x)%Z) /\
  NoDup (map fst (entries k)).

Definition tpm_inv (T : Z) (G : list tpm_member) (k : key_state tpm_member)
  : Prop :=
  (forall g, In g G -> (fst g <= T)%Z) /\
  (forall g, In g G -> (T < fst g + 60 * sec)%Z ->
     In (g, fst g) (entries k) /\
     exists x, expire_at k = Some x /\ (fst g + 61 * sec <= x)%Z) /\
  NoDup (map fst (entries k)) /\
  Forall (fun e => (0 <= snd (fst e))%Z) (entries k).

Definition nonneg_call (c : call) : Prop :=
  match c with
  | AcquireRequest => True
  | AcquireTokens n => (0 <= n)%Z
  end.

(** A window state as the limiter itself can have produced it: every
    recorded reservation is a non-negative token count. *)
Definition tokens_nonneg (st : state) : Prop :=
  Forall (fun e => (0 <= snd (fst e))%Z) (entries (tpm_key st)).

End Limiter.

Arguments mkKey {M}.
Arguments entries {M}.
Arguments expire_at {M}.
End RateLimiter.

(** ** A state-and-exception monad for the effectful code

    A computation runs on a world [W] and either returns, raises a Python
    exception, or does not come back ([Diverge]: a loop that ran out of
    the fuel given to it, or a task parked for ever). *)

Module PyM.
Import Py.

Inductive outcome (A : Type) :=
| Ok (a : A)
| Raise (e : error)
| Diverge.
Arguments Ok {A}.
Arguments Raise {A}.
Arguments Diverge {A}.

Definition M (W A : Type) := W -> W * outcome A.

Definition ret {W A} (a : A) : M W A := fun w => (w, Ok a).
Definition raise {W A} (e : error) : M W A := fun w => (w, Raise e).
Definition diverge {W A} : M W A := fun w => (w, Diverge).

Definition bind {W A B} (c : M W A) (k : A -> M W B) : M W B :=
  fun w =>
    match c w with
    | (w', Ok a) => k a w'
    | (w', Raise e) => (w', Raise e)
    | (w', Diverge) => (w', Diverge)
    end.

(** [try: c  except Exception as e: h e] *)
Definition try_except {W A} (c : M W A) (h : error -> M W A) : M W A :=
  fun w =>
    match c w with
    | (w', Raise e) => h e w'
    | r => r
    end.

(** The body of a [try] whose [except Exception] clause is run
    afterwards by the caller: an exception raised inside the clause is
    then not caught again. *)
Definition attempt {W A} (c : M W A) : M W (A + error) :=
  fun w =>
    match c w with
    | (w', Ok a) => (w', Ok (inl a))
    | (w', Raise e) => (w', Ok (inr e))
    | (w', Diverge) => (w', Diverge)
    end.

Definition get {W} : M W W := fun w => (w, Ok w).
Definition put {W} (w : W) : M W unit := fun _ => (w, Ok tt).
Definition modify {W} (f : W -> W) : M W unit := fun w => (f w, Ok tt).

Definition when {W} (b : bool) (c : M W unit) : M W unit :=
  if b then c else ret tt.

(** [for x in xs: body x] *)
Fixpoint for_each {W A} (xs : list A) (body : A -> M W unit) : M W unit :=
  match xs with
  | [] => ret tt
  | x :: r => bind (body x) (fun _ => for_each r body)
  end.

(** [[f x for x in xs]] with effects, left to right. *)
Fixpoint map_m {W A B} (f : A -> M W B) (xs : list A) : M W (list B) :=
  match xs with
  | [] => ret []
  | x :: r => bind (f x) (fun y => bind (map_m f r) (fun ys => ret (y :: ys)))
  end.

Module Notations.
Notation "x <- c ;; k" := (bind c (fun x => k))
  (at level 61, c at next level, right associativity).
Notation "c ;;; k" := (bind c (fun _ => k))
  (at level 61, right associativity).
End Notations.
End PyM.

(** ** services/chunking_service.py *)

Module Chunking.
Import Py PyM PyM.Notations.

Definition len (s : string) : Z := Z.of_nat (String.length s).

Definition nl : string := String (ascii_of_nat 10) EmptyString.

(** [str.isspace] on one character, which is also the class [\s] of
    the sentence pattern. *)
Definition is_space (c : ascii) : bool :=
  let n := nat_of_ascii c in
  ((9 <=? n)%nat && (n <=? 13)%nat) || ((28 <=? n)%nat && (n <=? 32)%nat)
  || (n =? 133)%nat || (n =? 160)%nat.

Fixpoint lstrip (s : string) : string :=
  match s with
  | EmptyString => EmptyString
  | String c s' => if is_space c then lstrip s' else s
  end.

Fixpoint rstrip (s : string) : string :=
  match s with
  | EmptyString => EmptyString
  | String c s' =>
      match rstrip s' with
      | EmptyString => if is_space c then EmptyString else String c EmptyString
      | r => String c r
      end
  end.

Definition strip (s : string) : string := rstrip (lstrip s).

(** [len(text.split())]: the number of maximal runs of non-blank
    characters. *)
Fixpoint count_words (in_word : bool) (s : string) : Z :=
  match s with
  | EmptyString => 0%Z
  | String c s' =>
      if is_space c then count_words false s'
      else ((if in_word then 0 else 1) + count_words true s')%Z
  end.

Definition word_count (s : string) : Z := count_words false s.

Fixpoint join (sep : string) (l : list string) : string :=
  match l with
  | [] => EmptyString
  | [x] => x
  | x :: r => x ++ sep ++ join sep r
  end.

(** Python slice [l[start:stop]], negative indices counting from the
    end. *)
Definition slice_index {A} (l : list A) (i : Z) : nat :=
  let n := Z.of_nat (List.length l) in
  Z.to_nat (if (i <? 0)%Z then Z.max 0 (n + i) else Z.min i n).

Definition py_slice {A} (l : list A) (start stop : Z) : list A :=
  let a := slice_index l start in
  let b := slice_index l stop in
  firstn (b - a) (skipn a l).

(** [class AnthropicRateLimitError(Exception)] *)
Definition AnthropicRateLimitError (msg : string) (retry_after : option Z)
  : error :=
  mkError "AnthropicRateLimitError" "mentorfy.services.chunking_service"
          msg retry_after.

Definition is_AnthropicRateLimitError (e : error) : bool :=
  String.eqb (err_type e) "AnthropicRateLimitError"
  && String.eqb (err_module e) "mentorfy.services.chunking_service".

(** The pydantic model [Chunk]. *)
Record Chunk := mkChunk {
  text : string;
  context : string;
  chunk_index : Z;
  char_start : Z;
  char_end : Z;
  token_count : Z
}.

Definition pydantic_ValidationError (msg : string) : error :=
  mkError "ValidationError" "pydantic_core._pydantic_core" msg None.

(** The field constraints: [chunk_index >= 0], [char_start >= 0],
    [char_end > 0], [token_count > 0]. *)
Definition Chunk_valid (c : Chunk) : bool :=
  (0 <=? chunk_index c)%Z && (0 <=? char_start c)%Z
  && (0 <? char_end c)%Z && (0 <? token_count c)%Z.

(** The constructor call [Chunk(text=..., ...)]. *)
Definition Chunk_new {W} (text context : string)
           (chunk_index char_start char_end token_count : Z) : M W Chunk :=
  let c := mkChunk text context chunk_index char_start char_end token_count in
  if Chunk_valid c then ret c
  else raise (pydantic_ValidationError "validation errors for Chunk").

Record base_chunk := mkBase {
  b_text : string;
  b_char_start : Z;
  b_char_end : Z;
  b_token_count : Z
}.

Definition is_sentence_end (c : ascii) : bool :=
  Ascii.eqb c "."%char || Ascii.eqb c "!"%char || Ascii.eqb c "?"%char.

(** [re.split(r"(?<=[.!?])\s+", text)].  [cur] is the piece being read,
    most recent character first; [after_end] tells whether the previous
    character is one of [.!?]; [in_gap] whether a separator is being
    consumed. *)
Fixpoint re_split_sentences (after_end in_gap : bool) (cur : string)
         (s : string) : list string :=
  let rev_cur :=
    (fix rev (a acc : string) : string :=
       match a with
       | EmptyString => acc
       | String c a' => rev a' (String c acc)
       end) cur EmptyString in
  match s with
  | EmptyString => [rev_cur]
  | String c s' =>
      if is_space c && in_gap then re_split_sentences false true cur s'
      else if is_space c && after_end
           then rev_cur :: re_split_sentences false true EmptyString s'
      else re_split_sentences (is_sentence_end c) false (String c cur) s'
  end.

Definition nonempty (s : string) : bool := negb (String.eqb s "").

Record service := mkService {
  chunk_size : Z;
  chunk_overlap : Z;
  max_concurrent_requests : Z;
  limiter : RateLimiter.config
}.

Section Service.
Variable sec : Z.
Variable svc : service.

Definition _split_into_sentences (text : string) : list string :=
  map strip (filter (fun s => nonempty (strip s))
                    (re_split_sentences false false EmptyString text)).

Definition _estimate_tokens (text : string) : Z := (len text / 4)%Z.

(** The sentences kept as overlap, walking the finished chunk from
    its end. *)
Fixpoint overlap_of (reversed_chunk : list string) (overlap_tokens : Z)
         (overlap_sentences : list string) : list string * Z :=
  match reversed_chunk with
  | [] => (overlap_sentences, overlap_tokens)
  | s :: r =>
      let s_tokens := _estimate_tokens s in
      if (chunk_overlap svc <? overlap_tokens + s_tokens)%Z
      then (overlap_sentences, overlap_tokens)
      else overlap_of r (overlap_tokens + s_tokens)%Z (s :: overlap_sentences)
  end.

Record pack_state := mkPack {
  chunks : list base_chunk;
  current_chunk : list string;
  current_tokens : Z;
  char_position : Z
}.

Definition close_chunk (p : pack_state) : base_chunk :=
  let chunk_text := join " " (current_chunk p) in
  mkBase chunk_text (char_position p - len chunk_text) (char_position p)
         (current_tokens p).

Definition pack_sentence (p : pack_state) (sentence : string) : pack_state :=
  let sentence_tokens := _estimate_tokens sentence in
  let p1 :=
    if (chunk_size svc <? current_tokens p + sentence_tokens)%Z
       && negb (match current_chunk p with [] => true | _ => false end)
    then
      let '(overlap_sentences, overlap_tokens) :=
        overlap_of (rev (current_chunk p)) 0 [] in
      mkPack (chunks p ++ [close_chunk p]) overlap_sentences overlap_tokens
             (char_position p)
    else p in
  mkPack (chunks p1) (current_chunk p1 ++ [sentence])
         (current_tokens p1 + sentence_tokens)
         (char_position p1 + (len sentence + 1)).

Definition _create_chunks_with_boundaries (text : string) : list base_chunk :=
  let p := fold_left pack_sentence (_split_into_sentences text)
                     (mkPack [] [] 0 0) in
  match current_chunk p with
  | [] => chunks p
  | _ => chunks p ++ [close_chunk p]
  end.

(** *** The world of the chunker *)

Inductive event :=
| Sleep (ticks : Z)
| WaveAttempt (batch_start : Z)
| LLMCall (is_first_chunk : bool) (chunk_text : string).

Record world := mkWorld {
  redis : RateLimiter.state;
  limiter_calls : nat;
  llm_calls : nat;
  trace : list event
}.

(** The [retry-after] header of a 429 response. *)
Inductive retry_after_header :=
| HeaderAbsent
| HeaderNotInt
| HeaderInt (seconds : Z).

Inductive llm_outcome :=
| LLMText (content : string)
| LLMRateLimited (message : string) (header : retry_after_header)
| LLMError (e : error).

(** Everything outside the chunker: the provider's answer to the
    [k]-th request, the clock read at the [k]-th limiter call, what
    other workers did to the shared limiter store before it, and the
    jitter drawn after it (in thousandths). *)
Record environment := mkEnv {
  llm : nat -> string -> string -> llm_outcome;
  time_at : nat -> Z;
  others : nat -> RateLimiter.state -> RateLimiter.state;
  jitter : nat -> Z
}.

Variable env : environment.

Definition log (e : event) : M world unit :=
  modify (fun w => mkWorld (redis w) (limiter_calls w) (llm_calls w)
                           (trace w ++ [e])).

Definition sleep (ticks : Z) : M world unit := log (Sleep ticks).

Definition acquire_tokens (n : Z) : M world (bool * Z) :=
  fun w =>
    let k := limiter_calls w in
    let '(st, r) := RateLimiter.acquire_tokens sec (limiter svc) n
                      (time_at env k) (others env k (redis w)) in
    (mkWorld st (S k) (llm_calls w) (trace w), Ok r).

Definition messages_create (is_first : bool) (system_content user_content
                            chunk_text : string) : M world string :=
  fun w =>
    let k := llm_calls w in
    let w' := mkWorld (redis w) (limiter_calls w) (S k)
                      (trace w ++ [LLMCall is_first chunk_text]) in
    match llm env k system_content user_content with
    | LLMText c => (w', Ok (strip c))
    | LLMRateLimited msg h =>
        let retry_after :=
          match h with HeaderInt n => Some n | _ => None end in
        (w', Raise (AnthropicRateLimitError msg retry_after))
    | LLMError e => (w', Raise e)
    end.

Definition max_wait_attempts : nat := 20.

(** The reservation loop; [remaining] is [max_wait_attempts -
    attempts]. *)
Fixpoint reserve (estimated_tokens : Z) (remaining attempts : nat)
  : M world nat :=
  match remaining with
  | O => ret attempts
  | S remaining' =>
      r <- acquire_tokens estimated_tokens ;;
      let '(can_proceed, wait_time) := r in
      if can_proceed then ret attempts
      else
        k <- (fun w => (w, Ok (limiter_calls w))) ;;
        let backoff := Z.min (2 ^ Z.of_nat attempts) 30 in
        let actual_wait :=
          (Z.max wait_time (backoff * sec) * jitter env k / 1000)%Z in
        sleep actual_wait ;;;
        reserve estimated_tokens remaining' (S attempts)
  end.

Definition system_prompt (full_document : string)
           (document_title : option string) : string :=
  "<document>" ++ nl ++ full_document ++ nl ++ "</document>" ++ nl ++ nl
  ++ "You will receive chunks from this document. For each chunk, provide a brief (1-2 sentence) description that situates it within the context of the overall document. Focus on what the chunk is about and how it relates to the document's main topics."
  ++ (if truthy_str document_title
      then " The document is titled: "
           ++ match document_title with Some t => t | None => "" end
      else "")
  ++ nl ++ nl ++ "Provide only the contextual description, no preamble.".

Definition user_prompt (chunk_text : string) : string :=
  "<chunk>" ++ nl ++ chunk_text ++ nl ++ "</chunk>".

(** The pre-estimated total of a chunk-context request: the first
    request pays for the document, the chunk and the output, the later
    ones for the chunk and the output. *)
Definition estimated_request_tokens (full_document chunk_text : string)
           (document_title : option string) (is_first_chunk : bool) : Z :=
  let system_content := system_prompt full_document document_title in
  let user_content := user_prompt chunk_text in
  let chunk_tokens := _estimate_tokens user_content in
  let output_tokens := 100%Z in
  if is_first_chunk
  then (_estimate_tokens system_content + chunk_tokens + output_tokens)%Z
  else (chunk_tokens + output_tokens)%Z.

Definition _generate_chunk_context (full_document chunk_text : string)
           (document_title : option string) (is_first_chunk : bool)
  : M world string :=
  let system_content := system_prompt full_document document_title in
  let user_content := user_prompt chunk_text in
  let estimated_tokens :=
    estimated_request_tokens full_document chunk_text document_title
                             is_first_chunk in
  attempts <- reserve estimated_tokens max_wait_attempts 0 ;;
  if (max_wait_attempts <=? attempts)%nat
  then raise (builtin_error "RuntimeError"
                "Failed to acquire TPM capacity after 20 attempts")
  else messages_create is_first_chunk system_content user_content chunk_text.

Definition max_rate_limit_retries : nat := 10.
Definition stagger_delay_ms : Z := 250.
Definition batch_delay : Z := 2.

(** One [asyncio.gather] over a wave, taken in chunk order: the
    requests are staggered, and the first failure is the wave's. *)
Fixpoint gather_wave (full_document : string)
         (document_title : option string) (index : Z)
         (batch : list base_chunk) : M world (list string) :=
  match batch with
  | [] => ret []
  | c :: r =>
      when (0 <? index)%Z
           (sleep (index * stagger_delay_ms * sec / 1000)) ;;;
      x <- _generate_chunk_context full_document (b_text c)
                                    document_title false ;;
      xs <- gather_wave full_document document_title (index + 1) r ;;
      ret (x :: xs)
  end.

(** [try: gather(...) except AnthropicRateLimitError as e: ...]: the
    clause catches that class only. *)
Definition catch_rate_limit {A} (c : M world A) : M world (A + error) :=
  fun w =>
    match c w with
    | (w', Ok a) => (w', Ok (inl a))
    | (w', Raise e) =>
        if is_AnthropicRateLimitError e then (w', Ok (inr e))
        else (w', Raise e)
    | (w', Diverge) => (w', Diverge)
    end.

(** [e.retry_after or 60] *)
Definition wave_pause (e : error) : Z :=
  if truthy_int (err_retry_after e)
  then match err_retry_after e with Some n => n | None => 60%Z end
  else 60%Z.

(** The [while batch_start < len(remaining_chunks)] loop, [fuel]
    bounding the number of passes. *)
Fixpoint wave_loop (fuel : nat) (full_document : string)
         (document_title : option string)
         (remaining_chunks : list base_chunk)
         (batch_start : Z) (rate_limit_retries : nat)
         (contexts : list string) : M world (list string) :=
  let batch_size := max_concurrent_requests svc in
  let n := Z.of_nat (List.length remaining_chunks) in
  if negb (batch_start <? n)%Z then ret contexts
  else
    match fuel with
    | O => diverge
    | S fuel' =>
        let batch_end := Z.min (batch_start + batch_size) n in
        let batch := py_slice remaining_chunks batch_start batch_end in
        if (batch_size =? 0)%Z
        then raise (builtin_error "ZeroDivisionError"
                      "integer division or modulo by zero")
        else
          log (WaveAttempt batch_start) ;;;
          attempt <- catch_rate_limit
                       (batch_contexts <-
                          gather_wave full_document document_title 0 batch ;;
                        when (batch_end <? n)%Z (sleep (batch_delay * sec)) ;;;
                        ret batch_contexts) ;;
          match attempt with
          | inl batch_contexts =>
              wave_loop fuel' full_document document_title
                        remaining_chunks batch_end 0
                        (contexts ++ batch_contexts)
          | inr e =>
              let rate_limit_retries := S rate_limit_retries in
              if (max_rate_limit_retries <? rate_limit_retries)%nat
              then raise e
              else
                sleep (wave_pause e * sec) ;;;
                wave_loop fuel' full_document document_title
                          remaining_chunks batch_start rate_limit_retries
                          contexts
          end
    end.

Definition _generate_contexts_concurrent (fuel : nat)
           (full_document : string) (base_chunks : list base_chunk)
           (document_title : option string) : M world (list string) :=
  match base_chunks with
  | [] => raise (builtin_error "IndexError" "list index out of range")
  | first :: remaining_chunks =>
      first_context <- _generate_chunk_context full_document (b_text first)
                                               document_title true ;;
      let contexts := [first_context] in
      match remaining_chunks with
      | [] => ret contexts
      | _ => wave_loop fuel full_document document_title
                       remaining_chunks 0 0 contexts
      end
  end.

(** [Chunk(...)] for each pair of [enumerate(zip(base_chunks,
    contexts))]. *)
Fixpoint build_chunks (i : Z) (base_chunks : list base_chunk)
         (contexts : list string) : M world (list Chunk) :=
  match base_chunks, contexts with
  | b :: bs, c :: cs =>
      chunk <- Chunk_new (b_text b) c i (b_char_start b) (b_char_end b)
                         (b_token_count b) ;;
      rest <- build_chunks (i + 1) bs cs ;;
      ret (chunk :: rest)
  | _, _ => ret []
  end.

Definition chunk_document (fuel : nat) (text : string)
           (document_title : option string) : M world (list Chunk) :=
  let text := strip text in
  if negb (nonempty text)
  then raise (builtin_error "ValueError" "Document text is empty")
  else
    let text_tokens := _estimate_tokens text in
    if (text_tokens <? chunk_size svc)%Z then
      chunk <- Chunk_new text
                 (if truthy_str document_title
                  then match document_title with Some t => t | None => "" end
                  else "Short document")
                 0 0 (len text) text_tokens ;;
      ret [chunk]
    else
      let base_chunks := _create_chunks_with_boundaries text in
      contexts <- _generate_contexts_concurrent fuel text base_chunks
                                                document_title ;;
      build_chunks 0 base_chunks contexts.

(** Number of passes of the wave loop recorded in a trace. *)
Fixpoint wave_attempts (tr : list event) : nat :=
  match tr with
  | [] => 0
  | WaveAttempt _ :: r => S (wave_attempts r)
  | _ :: r => wave_attempts r
  end.

Fixpoint llm_requests (tr : list event) : nat :=
  match tr with
  | [] => 0
  | LLMCall _ _ :: r => S (llm_requests r)
  | _ :: r => llm_requests r
  end.

(** A computation that never parks and records no wave attempt. *)
Definition quiet {A} (c : M world A) : Prop :=
  forall w w' r, c w = (w', r) ->
    r <> Diverge /\ wave_attempts (trace w') = wave_attempts (trace w).

(** Waves still to run from [batch_start], and the passes the loop can
    still make: eleven per wave, less the retries already spent on the
    current one. *)
Definition waves_left (n batch_start : Z) : Z :=
  if (batch_start <? n)%Z
  then ((n - batch_start + max_concurrent_requests svc - 1)
        / max_concurrent_requests svc)%Z
  else 0%Z.

Definition passes_left (n batch_start : Z) (rate_limit_retries : nat) : Z :=
  if (batch_start <? n)%Z
  then (11 * waves_left n batch_start - Z.of_nat rate_limit_retries)%Z
  else 0%Z.

(** [total_batches]: the number of waves over the remaining chunks. *)
Definition total_batches (remaining_chunks : list base_chunk) : Z :=
  ((Z.of_nat (List.length remaining_chunks) + max_concurrent_requests svc - 1)
   / max_concurrent_requests svc)%Z.
End Service.

(** [get_chunking_service]: the budget of 800 tokens with 100 of
    overlap; the wave size and the TPM cap come from the environment
    variables [CHUNKING_MAX_CONCURRENT] and [ANTHROPIC_TPM_LIMIT]. *)
Definition get_chunking_service (chunking_max_concurrent
                                 anthropic_tpm_limit : Z) : service :=
  mkService 800 100 chunking_max_concurrent
            (RateLimiter.mkConfig None (Some anthropic_tpm_limit)).
End Chunking.

(** ** The relational store, the queue broker and the graph engine

    Tables are lists of rows in insertion order.  A statement of the
    Supabase client either applies to every row matching its filter or
    inserts one row under a fresh id.  Two failures are modelled: the
    foreign key of [pipeline_phase.pipeline_job_id], which the handlers
    themselves mention, and the insert of a [kg_entity_mapping] row,
    which the graph handler makes inside a [try] of its own (an oracle of
    the handlers' environment).  The clock is read once per
    invocation. *)

Module Store.
Import Py PyM.

Definition id := nat.

Inductive json :=
| JNull
| JBool (b : bool)
| JInt (z : Z)
| JStr (s : string)
| JStrs (l : list string)
| JMegabytes (bytes : Z).

Definition dict := list (string * json).

Fixpoint dict_set (k : string) (v : json) (d : dict) : dict :=
  match d with
  | [] => [(k, v)]
  | (k', v') :: r =>
      if String.eqb k k' then (k, v) :: r else (k', v') :: dict_set k v r
  end.

(** [{**a, **b}] *)
Definition dict_merge (a b : dict) : dict :=
  fold_left (fun acc kv => dict_set (fst kv) (snd kv) acc) b a.


Inductive phase_label :=
| Ingestion | Extraction | Chunking | KgIngest | PipelineDone.

Inductive job_status :=
| JobPending | JobProcessing | JobCompleted | JobFailed | JobCancelled.

Inductive phase_status :=
| Queued | Processing | Completed | Failed | Skipped | Cancelled.

Definition job_status_eqb (a b : job_status) : bool :=
  match a, b with
  | JobPending, JobPending | JobProcessing, JobProcessing
  | JobCompleted, JobCompleted | JobFailed, JobFailed
  | JobCancelled, JobCancelled => true
  | _, _ => false
  end.

Definition phase_status_eqb (a b : phase_status) : bool :=
  match a, b with
  | Queued, Queued | Processing, Processing | Completed, Completed
  | Failed, Failed | Skipped, Skipped | Cancelled, Cancelled => true
  | _, _ => false
  end.

Record pipeline_job := mkJob {
  job_id : id;
  job_document_id : id;
  job_clerk_org_id : string;
  job_current_phase : phase_label;
  job_status_of : job_status;
  job_started_at : option Z;
  job_completed_at : option Z;
  job_updated_at : option Z;
  job_metadata : dict
}.

Record pipeline_phase := mkPhase {
  phase_id : id;
  phase_job_id : id;
  phase_label_of : phase_label;
  phase_status_of : phase_status;
  phase_input_location : option string;
  phase_output_location : option string;
  phase_retry_count : nat;
  phase_parent_phase_id : option id;
  phase_queued_at : option Z;
  phase_started_at : option Z;
  phase_completed_at : option Z;
  phase_expected_completion_at : option Z;
  phase_error_type : option string;
  phase_error_message : option string;
  phase_metadata : dict
}.

Record document := mkDocument {
  doc_id : id;
  doc_clerk_org_id : option string;
  doc_title : option string;
  doc_created_at : option Z;
  doc_status : string;
  doc_updated_at : option Z
}.

Record document_chunk := mkChunkRow {
  chunk_id : id;
  chunk_document_id : id;
  chunk_content : string;
  chunk_context : string;
  chunk_index_of : Z;
  chunk_token_count : Z;
  chunk_char_start : Z;
  chunk_char_end : Z
}.

Record kg_entity_mapping := mkMapping {
  mapping_id : id;
  mapping_organization_id : option string;
  mapping_document_id : id;
  mapping_entity_id : string;
  mapping_provider : string;
  mapping_entity_type : string;
  mapping_source_chunk_ids : list id
}.

(** The keyword arguments travelling with every queue payload. *)
Record kwargs := mkKwargs {
  kw_source_name : option string;
  kw_source_platform : option string;
  kw_clerk_org_id : option string;
  kw_file_type : option string;
  kw_store_raw : option bool;
  kw_user_id : option string
}.

Inductive queue_name :=
| QUEUE_EXTRACTION | QUEUE_INGEST_EXTRACT | QUEUE_CHUNKING | QUEUE_KG_INGEST.

Inductive task :=
| ExtractTask (pipeline_job_id document_id : id) (raw_location : string)
              (retry_count : nat) (parent_phase_id : option id) (kw : kwargs)
| IngestExtractTask (pipeline_job_id document_id : id)
                    (source_location : string) (file_type : option string)
                    (retry_count : nat)
                    (parent_ingest_phase_id parent_extract_phase_id : option id)
                    (kw : kwargs)
| ChunkTask (pipeline_job_id document_id : id) (text_location : string)
            (retry_count : nat) (parent_phase_id : option id) (kw : kwargs)
| KgIngestTask (pipeline_job_id document_id : id)
               (retry_count : nat) (parent_phase_id : option id) (kw : kwargs).

(** An item handed to the broker: [enqueue] (no delay) or [enqueue_in]. *)
Record queue_item := mkItem {
  item_queue : queue_name;
  item_delay : option Z;
  item_task : task
}.

Inductive graph_call :=
| AddEpisode (name episode_body source_description : string)
             (reference_time : option Z) (group_id : option string)
| RemoveEpisode (uuid : string).

Record world := mkWorld {
  jobs : list pipeline_job;
  phases : list pipeline_phase;
  documents : list document;
  chunks : list document_chunk;
  mappings : list kg_entity_mapping;
  next_id : id;
  objects : list (string * string);
  queue : list queue_item;
  graph_calls : list graph_call
}.

Definition with_jobs (f : list pipeline_job -> list pipeline_job) (w : world) :=
  mkWorld (f (jobs w)) (phases w) (documents w) (chunks w) (mappings w)
          (next_id w) (objects w) (queue w) (graph_calls w).

Definition with_phases (f : list pipeline_phase -> list pipeline_phase)
           (w : world) :=
  mkWorld (jobs w) (f (phases w)) (documents w) (chunks w) (mappings w)
          (next_id w) (objects w) (queue w) (graph_calls w).

Definition with_documents (f : list document -> list document) (w : world) :=
  mkWorld (jobs w) (phases w) (f (documents w)) (chunks w) (mappings w)
          (next_id w) (objects w) (queue w) (graph_calls w).

Definition with_chunks (f : list document_chunk -> list document_chunk)
           (w : world) :=
  mkWorld (jobs w) (phases w) (documents w) (f (chunks w)) (mappings w)
          (next_id w) (objects w) (queue w) (graph_calls w).

Definition with_mappings
           (f : list kg_entity_mapping -> list kg_entity_mapping) (w : world) :=
  mkWorld (jobs w) (phases w) (documents w) (chunks w) (f (mappings w))
          (next_id w) (objects w) (queue w) (graph_calls w).

Definition with_objects (f : list (string * string) -> list (string * string))
           (w : world) :=
  mkWorld (jobs w) (phases w) (documents w) (chunks w) (mappings w)
          (next_id w) (f (objects w)) (queue w) (graph_calls w).

Definition with_queue (f : list queue_item -> list queue_item) (w : world) :=
  mkWorld (jobs w) (phases w) (documents w) (chunks w) (mappings w)
          (next_id w) (objects w) (f (queue w)) (graph_calls w).

Definition with_graph_calls (f : list graph_call -> list graph_call)
           (w : world) :=
  mkWorld (jobs w) (phases w) (documents w) (chunks w) (mappings w)
          (next_id w) (objects w) (queue w) (f (graph_calls w)).

Definition fresh_id : M world id :=
  fun w =>
    (mkWorld (jobs w) (phases w) (documents w) (chunks w) (mappings w)
             (S (next_id w)) (objects w) (queue w) (graph_calls w),
     Ok (next_id w)).

(** [UPDATE t SET ... WHERE p]: the rows matching [p] are rewritten by
    [f], in place. *)
Definition update_where {A} (p : A -> bool) (f : A -> A) (rows : list A)
  : list A :=
  map (fun r => if p r then f r else r) rows.

Definition select_where {A} (p : A -> bool) (rows : list A) : list A :=
  filter p rows.

Definition delete_where {A} (p : A -> bool) (rows : list A) : list A :=
  filter (fun r => negb (p r)) rows.

Definition APIError (msg : string) : error :=
  mkError "APIError" "postgrest.exceptions" msg None.

(** *** Column updates *)

Definition job_set_metadata (now : Z) (m : dict) (j : pipeline_job) :=
  mkJob (job_id j) (job_document_id j) (job_clerk_org_id j)
        (job_current_phase j) (job_status_of j) (job_started_at j)
        (job_completed_at j) (Some now) m.

Definition job_set_current_phase (now : Z) (l : phase_label)
           (j : pipeline_job) :=
  mkJob (job_id j) (job_document_id j) (job_clerk_org_id j)
        l (job_status_of j) (job_started_at j)
        (job_completed_at j) (Some now) (job_metadata j).

(** [{"status": s, "completed_at": now}] *)
Definition job_set_status (now : Z) (s : job_status) (j : pipeline_job) :=
  mkJob (job_id j) (job_document_id j) (job_clerk_org_id j)
        (job_current_phase j) s (job_started_at j)
        (Some now) (job_updated_at j) (job_metadata j).

(** [{"current_phase": "completed", "status": "completed",
      "completed_at": now, "updated_at": now}] *)
Definition job_set_completed (now : Z) (j : pipeline_job) :=
  mkJob (job_id j) (job_document_id j) (job_clerk_org_id j)
        PipelineDone JobCompleted (job_started_at j)
        (Some now) (Some now) (job_metadata j).

(** [{"status": "failed", "completed_at": now, "metadata": m}] *)
Definition job_set_failed_with_metadata (now : Z) (m : dict)
           (j : pipeline_job) :=
  mkJob (job_id j) (job_document_id j) (job_clerk_org_id j)
        (job_current_phase j) JobFailed (job_started_at j)
        (Some now) (job_updated_at j) m.

(** [{"status": "completed", "completed_at": now, "output_location": out,
      "metadata": m}] *)
Definition phase_set_completed (now : Z) (out : option string) (m : dict)
           (p : pipeline_phase) :=
  mkPhase (phase_id p) (phase_job_id p) (phase_label_of p) Completed
          (phase_input_location p) out (phase_retry_count p)
          (phase_parent_phase_id p) (phase_queued_at p) (phase_started_at p)
          (Some now) (phase_expected_completion_at p)
          (phase_error_type p) (phase_error_message p) m.

(** [{"status": "failed", "error_message": msg, "error_type": ty,
      "completed_at": now}] *)
Definition phase_set_failed (now : Z) (ty msg : string) (p : pipeline_phase) :=
  mkPhase (phase_id p) (phase_job_id p) (phase_label_of p) Failed
          (phase_input_location p) (phase_output_location p)
          (phase_retry_count p) (phase_parent_phase_id p) (phase_queued_at p)
          (phase_started_at p) (Some now) (phase_expected_completion_at p)
          (Some ty) (Some msg) (phase_metadata p).

(** The same with a [metadata] column. *)
Definition phase_set_failed_with_metadata (now : Z) (ty msg : string)
           (m : dict) (p : pipeline_phase) :=
  mkPhase (phase_id p) (phase_job_id p) (phase_label_of p) Failed
          (phase_input_location p) (phase_output_location p)
          (phase_retry_count p) (phase_parent_phase_id p) (phase_queued_at p)
          (phase_started_at p) (Some now) (phase_expected_completion_at p)
          (Some ty) (Some msg) m.

(** [{"status": "cancelled", "completed_at": now, "error_message": msg}] *)
Definition phase_set_cancelled (now : Z) (msg : string) (p : pipeline_phase) :=
  mkPhase (phase_id p) (phase_job_id p) (phase_label_of p) Cancelled
          (phase_input_location p) (phase_output_location p)
          (phase_retry_count p) (phase_parent_phase_id p) (phase_queued_at p)
          (phase_started_at p) (Some now) (phase_expected_completion_at p)
          (phase_error_type p) (Some msg) (phase_metadata p).

Definition document_set_status (now : Z) (s : string) (d : document) :=
  mkDocument (doc_id d) (doc_clerk_org_id d) (doc_title d) (doc_created_at d)
             s (Some now).

(** *** Statements *)

Definition job_by_id (i : id) (j : pipeline_job) : bool := (job_id j =? i)%nat.
Definition phase_by_id (i : id) (p : pipeline_phase) : bool :=
  (phase_id p =? i)%nat.

Definition update_job (i : id) (f : pipeline_job -> pipeline_job)
  : M world unit :=
  modify (with_jobs (update_where (job_by_id i) f)).

Definition update_phase (i : id) (f : pipeline_phase -> pipeline_phase)
  : M world unit :=
  modify (with_phases (update_where (phase_by_id i) f)).

Definition update_document (i : id) (f : document -> document) : M world unit :=
  modify (with_documents (update_where (fun d => (doc_id d =? i)%nat) f)).

Definition select_job (i : id) : M world (list pipeline_job) :=
  fun w => (w, Ok (select_where (job_by_id i) (jobs w))).

(** [INSERT INTO pipeline_phase]: refused when the job row is gone. *)
Definition insert_phase (mk : id -> pipeline_phase) : M world id :=
  fun w =>
    let i := next_id w in
    let row := mk i in
    if existsb (job_by_id (phase_job_id row)) (jobs w)
    then (mkWorld (jobs w) (phases w ++ [row]) (documents w) (chunks w)
                  (mappings w) (S i) (objects w) (queue w) (graph_calls w),
          Ok i)
    else (w, Raise (APIError "violates foreign key constraint")).

Definition enqueue (q : queue_name) (t : task) : M world unit :=
  modify (with_queue (fun l => (l ++ [mkItem q None t])%list)).

Definition enqueue_in (q : queue_name) (delay : Z) (t : task) : M world unit :=
  modify (with_queue (fun l => (l ++ [mkItem q (Some delay) t])%list)).

(** [update_job_metadata]: read the job's metadata, merge, write back. *)
Definition update_job_metadata (now : Z) (pipeline_job_id : id)
           (new_metadata : dict) : M world unit :=
  bind (select_job pipeline_job_id) (fun rows =>
    let current_metadata :=
      match rows with
      | j :: _ => job_metadata j
      | [] => []
      end in
    let merged := dict_merge current_metadata new_metadata in
    update_job pipeline_job_id (job_set_metadata now merged)).

Definition get_or {A} (o : option A) (default : A) : A :=
  match o with Some a => a | None => default end.
End Store.

(** ** utils/deletion.py *)

Module Deletion.
Import Py PyM PyM.Notations Store.

Definition job_is_active (j : pipeline_job) : bool :=
  job_status_eqb (job_status_of j) JobProcessing
  || job_status_eqb (job_status_of j) JobPending.

Definition phase_is_active (p : pipeline_phase) : bool :=
  phase_status_eqb (phase_status_of p) Queued
  || phase_status_eqb (phase_status_of p) Processing.

Definition id_in (i : id) (ids : list id) : bool := existsb (Nat.eqb i) ids.

(** The two clock readings are the one taken for the job update and the
    one taken for the phase update. *)
Definition cancel_pipeline_jobs_for_document (now_jobs now_phases : Z)
           (document_id : id) (org_id : string) : M world nat :=
  try_except
    (w <- get ;;
     let jobs_result :=
       select_where (fun j => (job_document_id j =? document_id)%nat
                              && String.eqb (job_clerk_org_id j) org_id
                              && job_is_active j) (jobs w) in
     match jobs_result with
     | [] => ret 0%nat
     | _ =>
         let pipeline_job_ids := map job_id jobs_result in
         modify (with_jobs
                   (update_where (fun j => id_in (job_id j) pipeline_job_ids)
                                 (job_set_status now_jobs JobCancelled))) ;;;
         modify (with_phases
                   (update_where
                      (fun p => id_in (phase_job_id p) pipeline_job_ids
                                && phase_is_active p)
                      (phase_set_cancelled now_phases "Document was deleted"))) ;;;
         ret (List.length pipeline_job_ids)
     end)
    (fun e => ret 0%nat).

(** The statuses from which nothing moves any more. *)
Definition job_is_terminal (j : pipeline_job) : bool :=
  match job_status_of j with
  | JobCompleted | JobFailed | JobCancelled => true
  | JobPending | JobProcessing => false
  end.

Definition phase_is_terminal (p : pipeline_phase) : bool :=
  match phase_status_of p with
  | Completed | Failed | Cancelled | Skipped => true
  | Queued | Processing => false
  end.

(** The jobs that a cancellation for a document and an organisation is
    to reach, and the phases they own. *)
Definition to_cancel (document_id : id) (org_id : string) (j : pipeline_job)
  : bool :=
  (job_document_id j =? document_id)%nat
  && String.eqb (job_clerk_org_id j) org_id
  && negb (job_is_terminal j).

Definition owned_by_cancelled (w : world) (document_id : id)
           (org_id : string) (p : pipeline_phase) : bool :=
  existsb (fun j => (job_id j =? phase_job_id p)%nat
                    && to_cancel document_id org_id j)
          (jobs w).
End Deletion.

(** ** core/queues.py and core/pipeline_helpers.py *)

Module PipelineHelpers.
Import Py PyM PyM.Notations Store.

Definition show_id (i : id) : string :=
  DecimalString.NilZero.string_of_uint (Nat.to_uint i).

(** The four [enqueue_*] functions of [core/queues.py]; each returns
    the broker's job id. *)
Definition enqueue_extraction (pipeline_job_id document_id : id)
           (raw_location : string) (kw : kwargs) : M world string :=
  enqueue QUEUE_EXTRACTION
          (ExtractTask pipeline_job_id document_id raw_location 0 None kw) ;;;
  ret ("extract_" ++ show_id pipeline_job_id).

Definition enqueue_ingest_extract (pipeline_job_id document_id : id)
           (source_location : string) (kw : kwargs) : M world string :=
  enqueue QUEUE_INGEST_EXTRACT
          (IngestExtractTask pipeline_job_id document_id source_location
                             (kw_file_type kw) 0 None None kw) ;;;
  ret ("ingest_extract_" ++ show_id pipeline_job_id).

Definition enqueue_chunking (pipeline_job_id document_id : id)
           (text_location : string) (kw : kwargs) : M world string :=
  enqueue QUEUE_CHUNKING
          (ChunkTask pipeline_job_id document_id text_location 0 None kw) ;;;
  ret ("chunk_" ++ show_id pipeline_job_id).

Definition enqueue_kg_ingest (pipeline_job_id document_id : id)
           (kw : kwargs) : M world string :=
  enqueue QUEUE_KG_INGEST
          (KgIngestTask pipeline_job_id document_id 0 None kw) ;;;
  ret ("kg_" ++ show_id pipeline_job_id).

Definition create_pipeline_job (now : Z) (document_id : id)
           (source_platform clerk_org_id source_name : string)
           (store_raw : bool) : M world id :=
  i <- fresh_id ;;
  modify (with_jobs (fun l =>
    (l ++ [mkJob i document_id clerk_org_id
                 (if negb (String.eqb source_platform "manual_upload")
                  then Ingestion else Extraction)
                 JobProcessing (Some now) None None
                 [("source_name", JStr source_name);
                  ("source_platform", JStr source_platform);
                  ("store_raw", JBool store_raw)]])%list)) ;;;
  ret i.

Definition create_skipped_ingestion_phase (now : Z) (pipeline_job_id : id)
  : M world unit :=
  insert_phase (fun i =>
    mkPhase i pipeline_job_id Ingestion Skipped None None 0 None
            (Some now) None (Some now) None None None
            [("reason", JStr "manual_upload")]) ;;;
  ret tt.

Record submission := mkSubmission {
  sub_pipeline_job_id : id;
  sub_job_id : string
}.

Definition enqueue_pipeline_job (now : Z) (document_id : id)
           (source_platform clerk_org_id source_name file_type : string)
           (raw_location source_location : option string)
           (store_raw : option bool) (user_id : option string)
  : M world submission :=
  pipeline_job_id <- create_pipeline_job now document_id source_platform
                                         clerk_org_id source_name
                                         (get_or store_raw false) ;;
  if String.eqb source_platform "manual_upload" then
    if negb (truthy_str raw_location)
    then raise (builtin_error "ValueError"
                  "raw_location required for manual uploads")
    else
      create_skipped_ingestion_phase now pipeline_job_id ;;;
      job_id <- enqueue_extraction pipeline_job_id document_id
                  (get_or raw_location "")
                  (mkKwargs (Some source_name) (Some source_platform)
                            (Some clerk_org_id) (Some file_type) None None) ;;
      ret (mkSubmission pipeline_job_id job_id)
  else
    if negb (truthy_str source_location)
    then raise (builtin_error "ValueError"
                  "source_location required for external sources")
    else
      job_id <- enqueue_ingest_extract pipeline_job_id document_id
                  (get_or source_location "")
                  (mkKwargs (Some source_name) (Some source_platform)
                            (Some clerk_org_id) (Some file_type)
                            (Some (get_or store_raw false)) user_id) ;;
      ret (mkSubmission pipeline_job_id job_id).
End PipelineHelpers.

(** ** workers/*.py

    Everything a handler reaches outside the store is an oracle of the
    [environment]: object storage, the extraction and chunking services,
    the origin download, and the graph engine, and so is the answer of
    the [kg_entity_mapping] insert.  The [asyncio.gather] of the graph
    ingest is taken in chunk order.  The progress meter of the broker's
    job is not part of the model. *)

Module Workers.
Import Py PyM PyM.Notations Store RetryPolicy PipelineHelpers.

Inductive env_var :=
| Unset
| NotAnInteger
| IntValue (z : Z).

(** What [add_episode] did: raised, or returned a result whose episode
    carries the uuid (when it carries one). *)
Inductive episode_outcome :=
| EpisodeRaises (e : error)
| EpisodeReturns (uuid : option string).

Record environment := mkEnv {
  now : Z;
  load_raw_document : string -> outcome string;
  load_extracted_text : string -> outcome string;
  get_mime_type : string -> string;
  is_audio_video_file : string -> bool;
  transcribe_audio_video : string -> string -> outcome string;
  extract_document_text : string -> string -> outcome string;
  storage_upload : string -> option error;
  download_from_google_drive :
    string -> option string -> option string -> outcome (string * string);
  file_extension : string -> string -> string;
  rpc_jsonb_set : string -> outcome dict;
  anthropic_api_key : bool;
  chunking : string -> string -> outcome (list Chunking.Chunk);
  get_graphiti_client : outcome bool;
  KG_MAX_CONCURRENT : env_var;
  add_episode : document_chunk -> episode_outcome;
  remove_episode : string -> option error;
  insert_mapping : document_chunk -> option error
}.

Inductive result :=
| Success (document_id : id) (details : dict)
| ResultSkipped (reason : string) (document_id : id)
| ResultFailed (error_text : string) (retry_count : nat)
| ResultRetrying (error_text : string) (retry_count : nat).

Definition lift {A} (o : outcome A) : M world A := fun w => (w, o).

(** The dispatch on the MIME type: audio and video are transcribed,
    documents and subtitles are parsed. *)
Definition extraction_outcome (env : environment)
           (file_data mime_type : string) : outcome string :=
  if is_audio_video_file env mime_type
  then transcribe_audio_video env file_data mime_type
  else extract_document_text env file_data mime_type.

Definition extract_text (env : environment) (file_data mime_type : string)
  : M world string :=
  lift (extraction_outcome env file_data mime_type).

Definition upload (env : environment) (path data : string) : M world unit :=
  match storage_upload env path with
  | Some e => raise e
  | None =>
      modify (with_objects (fun l =>
        (path, data) :: filter (fun kv => negb (String.eqb (fst kv) path)) l))
  end.

Definition store_extracted_text (env : environment) (document_id : id)
           (text : string) : M world string :=
  let path := "extracted_text/" ++ show_id document_id ++ ".txt" in
  upload env path text ;;; ret path.

Fixpoint lstrip_dots (s : string) : string :=
  match s with
  | String "."%char s' => lstrip_dots s'
  | _ => s
  end.

Definition store_raw_document (env : environment) (document_id : id)
           (file_data file_extension : string) : M world string :=
  let path := "raw_documents/" ++ show_id document_id ++ "."
              ++ lstrip_dots file_extension in
  upload env path file_data ;;; ret path.

Definition ValueError (msg : string) : error := builtin_error "ValueError" msg.

(** [{"retry_at": None, "retry_count": retry_count, "last_error": None}] *)
Definition clear_retry_metadata (env : environment) (pipeline_job_id : id)
           (retry_count : nat) : M world unit :=
  when (0 <? retry_count)%nat
       (update_job_metadata (now env) pipeline_job_id
          [("retry_at", JNull);
           ("retry_count", JInt (Z.of_nat retry_count));
           ("last_error", JNull)]).

Definition processing_phase (env : environment) (pipeline_job_id : id)
           (label : phase_label) (phase : string)
           (input_location : option string) (retry_count : nat)
           (parent_phase_id : option id) (i : id) : pipeline_phase :=
  mkPhase i pipeline_job_id label Processing input_location None retry_count
          parent_phase_id None (Some (now env)) None
          (Some (now env + get_phase_timeout phase)%Z) None None [].

Definition queued_retry_phase (env : environment) (pipeline_job_id : id)
           (label : phase_label) (input_location : option string)
           (next_retry : nat) (parent_phase_id : option id) (delay : Z)
           (i : id) : pipeline_phase :=
  mkPhase i pipeline_job_id label Queued input_location None next_retry
          parent_phase_id (Some (now env + delay)%Z) None None None
          None None [].

(** [if phase_id: ...update({"status": "failed", ...})] *)
Definition mark_phase_failed (env : environment) (phase_id : option id)
           (e : error) : M world unit :=
  match phase_id with
  | Some i => update_phase i (phase_set_failed (now env) (err_type e)
                                               (err_message e))
  | None => ret tt
  end.

Definition retry_metadata (env : environment) (delay : Z) (next_retry : nat)
           (e : error) : dict :=
  [("retry_at", JInt (now env + delay));
   ("retry_count", JInt (Z.of_nat next_retry));
   ("last_error", JStr (String.substring 0 500 (err_message e)))].

Definition failure_result (retry_count : nat) (e : error) : result :=
  if (MAX_RETRIES <=? retry_count)%nat || negb (is_retryable_error e None)
  then ResultFailed (err_message e) retry_count
  else ResultRetrying (err_message e) retry_count.

Definition should_retry (retry_count : nat) (e : error) : bool :=
  (retry_count <? MAX_RETRIES)%nat && is_retryable_error e None.

(** *** extraction_worker.py *)

Definition extract_task_except (env : environment)
           (pipeline_job_id document_id : id) (raw_location : string)
           (retry_count : nat) (kw : kwargs) (phase_id : option id)
           (e : error) : M world result :=
  mark_phase_failed env phase_id e ;;;
  (if should_retry retry_count e then
     let delay := get_retry_delay retry_count (Some e) in
     let next_retry := S retry_count in
     insert_phase (queued_retry_phase env pipeline_job_id Extraction
                     (Some raw_location) next_retry phase_id delay) ;;;
     update_job_metadata (now env) pipeline_job_id
                         (retry_metadata env delay next_retry e) ;;;
     enqueue_in QUEUE_EXTRACTION delay
                (ExtractTask pipeline_job_id document_id raw_location
                             next_retry phase_id kw)
   else
     metadata <- lift (rpc_jsonb_set env (err_message e)) ;;
     update_job pipeline_job_id
                (job_set_failed_with_metadata (now env) metadata)) ;;;
  ret (failure_result retry_count e).

Definition extract_task (env : environment)
           (pipeline_job_id document_id : id) (raw_location : string)
           (retry_count : nat) (parent_phase_id : option id) (kw : kwargs)
  : M world result :=
  let source_name := get_or (kw_source_name kw) "Unknown file" in
  let file_type := get_or (kw_file_type kw) "unknown" in
  let clerk_org_id := kw_clerk_org_id kw in
  started <- attempt
    (clear_retry_metadata env pipeline_job_id retry_count ;;;
     insert_phase (processing_phase env pipeline_job_id Extraction "extraction"
                     (Some raw_location) retry_count parent_phase_id)) ;;
  match started with
  | inr e => extract_task_except env pipeline_job_id document_id raw_location
                                 retry_count kw None e
  | inl phase_id =>
      finished <- attempt
        (file_data <- lift (load_raw_document env raw_location) ;;
         let mime_type := get_mime_type env file_type in
         text_content <- extract_text env file_data mime_type ;;
         let text_length := Chunking.len text_content in
         let word_count := Chunking.word_count text_content in
         if (text_length =? 0)%Z
         then raise (ValueError ("No text extracted from " ++ file_type
                                 ++ " file (MIME: " ++ mime_type
                                 ++ "). Source: " ++ raw_location))
         else
           text_location <- store_extracted_text env document_id text_content ;;
           update_phase phase_id
             (phase_set_completed (now env) (Some text_location)
                [("text_length", JInt text_length);
                 ("word_count", JInt word_count);
                 ("file_size_mb", JMegabytes (Chunking.len file_data))]) ;;;
           update_job pipeline_job_id
                      (job_set_current_phase (now env) Chunking) ;;;
           enqueue_chunking pipeline_job_id document_id text_location
             (mkKwargs (Some source_name)
                       (Some (get_or (kw_source_platform kw) "manual_upload"))
                       clerk_org_id None None None) ;;;
           ret (Success document_id
                        [("text_length", JInt text_length);
                         ("word_count", JInt word_count)])) ;;
      match finished with
      | inl r => ret r
      | inr e => extract_task_except env pipeline_job_id document_id
                                     raw_location retry_count kw
                                     (Some phase_id) e
      end
  end.

(** *** ingest_extract_worker.py *)

Definition ingest_extract_task_except (env : environment)
           (pipeline_job_id document_id : id) (source_location : string)
           (file_type : option string) (retry_count : nat) (kw : kwargs)
           (ingest_phase_id extract_phase_id : option id) (e : error)
  : M world result :=
  mark_phase_failed env ingest_phase_id e ;;;
  mark_phase_failed env extract_phase_id e ;;;
  (if should_retry retry_count e then
     let delay := get_retry_delay retry_count (Some e) in
     let next_retry := S retry_count in
     insert_phase (queued_retry_phase env pipeline_job_id Ingestion
                     (Some source_location) next_retry ingest_phase_id delay) ;;;
     insert_phase (queued_retry_phase env pipeline_job_id Extraction
                     (Some source_location) next_retry extract_phase_id delay) ;;;
     update_job_metadata (now env) pipeline_job_id
                         (retry_metadata env delay next_retry e) ;;;
     enqueue_in QUEUE_INGEST_EXTRACT delay
                (IngestExtractTask pipeline_job_id document_id source_location
                                   file_type next_retry ingest_phase_id
                                   extract_phase_id kw)
   else
     update_job pipeline_job_id (job_set_status (now env) JobFailed)) ;;;
  ret (failure_result retry_count e).

Definition ingest_extract_task (env : environment)
           (pipeline_job_id document_id : id) (source_location : string)
           (file_type : option string) (retry_count : nat)
           (parent_ingest_phase_id parent_extract_phase_id : option id)
           (kw : kwargs) : M world result :=
  let source_name := get_or (kw_source_name kw) "Unknown file" in
  let source_platform := get_or (kw_source_platform kw) "unknown" in
  let clerk_org_id := kw_clerk_org_id kw in
  let user_id := kw_user_id kw in
  let store_raw := get_or (kw_store_raw kw) false in
  let except := ingest_extract_task_except env pipeline_job_id document_id
                  source_location file_type retry_count kw in
  checked <- attempt
    (job_check <- select_job pipeline_job_id ;;
     match job_check with
     | [] => ret (inl (ResultSkipped "pipeline_job_not_found" document_id))
     | j :: _ =>
         if job_status_eqb (job_status_of j) JobCancelled
         then ret (inl (ResultSkipped "pipeline_job_cancelled" document_id))
         else
           clear_retry_metadata env pipeline_job_id retry_count ;;;
           i <- insert_phase (processing_phase env pipeline_job_id Ingestion
                                "extraction" (Some source_location)
                                retry_count parent_ingest_phase_id) ;;
           ret (inr i)
     end) ;;
  match checked with
  | inr e => except None None e
  | inl (inl skipped) => ret skipped
  | inl (inr ingest_phase_id) =>
      ingested <- attempt
        (downloaded <-
           (if String.prefix "gdrive://" source_location
            then lift (download_from_google_drive env source_location
                                                  clerk_org_id user_id)
            else raise (ValueError "Unsupported source platform")) ;;
         let '(file_data, mime_type) := downloaded in
         update_phase ingest_phase_id
           (phase_set_completed (now env) None
              [("file_size_mb", JMegabytes (Chunking.len file_data));
               ("mime_type", JStr mime_type)]) ;;;
         update_job pipeline_job_id
                    (job_set_current_phase (now env) Extraction) ;;;
         i <- insert_phase (processing_phase env pipeline_job_id Extraction
                              "extraction" (Some source_location)
                              retry_count parent_extract_phase_id) ;;
         ret (file_data, mime_type, i)) ;;
      match ingested with
      | inr e => except (Some ingest_phase_id) None e
      | inl (file_data, mime_type, extract_phase_id) =>
          finished <- attempt
            (text_content <- extract_text env file_data mime_type ;;
             let text_length := Chunking.len text_content in
             let word_count := Chunking.word_count text_content in
             if (text_length =? 0)%Z || (word_count =? 0)%Z then
               update_phase extract_phase_id
                 (phase_set_completed (now env) None
                    [("empty_extraction", JBool true);
                     ("reason", JStr "No text content extracted (file may have no speech or readable text)")]) ;;;
               update_job pipeline_job_id (job_set_completed (now env)) ;;;
               update_document document_id
                 (document_set_status (now env) "available_to_ai") ;;;
               ret (Success document_id [("empty_extraction", JBool true)])
             else
               text_location <- store_extracted_text env document_id
                                                     text_content ;;
               raw_location <-
                 (if store_raw
                  then p <- store_raw_document env document_id file_data
                              (file_extension env mime_type source_name) ;;
                       ret (Some p)
                  else ret None) ;;
               update_phase extract_phase_id
                 (phase_set_completed (now env) (Some text_location)
                    [("text_length", JInt text_length);
                     ("word_count", JInt word_count);
                     ("raw_stored", JBool store_raw);
                     ("raw_location",
                      match raw_location with
                      | Some p => JStr p
                      | None => JNull
                      end)]) ;;;
               update_job pipeline_job_id
                          (job_set_current_phase (now env) Chunking) ;;;
               enqueue_chunking pipeline_job_id document_id text_location
                 (mkKwargs (Some source_name) (Some source_platform)
                           clerk_org_id None None None) ;;;
               ret (Success document_id
                            [("text_length", JInt text_length);
                             ("word_count", JInt word_count);
                             ("raw_stored", JBool store_raw)])) ;;
          match finished with
          | inl r => ret r
          | inr e => except (Some ingest_phase_id) (Some extract_phase_id) e
          end
      end
  end.
(** *** chunking_worker.py *)

(** [time.sleep(secs)] on an integer: the worker is blocked and the
    store is not touched.  The length is first converted to
    nanoseconds in 64 bits, which raises [OverflowError] beyond
    9223372036 seconds either way; a negative length then raises
    [ValueError]. *)
Definition time_sleep (secs : Z) : M world unit :=
  if (secs <? -9223372036)%Z || (9223372036 <? secs)%Z
  then raise (builtin_error "OverflowError"
                "timestamp too large to convert to C _PyTime_t")
  else if (secs <? 0)%Z
  then raise (ValueError "sleep length must be non-negative")
  else ret tt.

Definition chunk_task_except (env : environment)
           (pipeline_job_id document_id : id) (text_location : string)
           (retry_count : nat) (kw : kwargs) (phase_id : option id)
           (e : error) : M world result :=
  mark_phase_failed env phase_id e ;;;
  (if should_retry retry_count e then
     let delay := get_retry_delay retry_count (Some e) in
     let next_retry := S retry_count in
     insert_phase (queued_retry_phase env pipeline_job_id Chunking
                     (Some text_location) next_retry phase_id delay) ;;;
     update_job_metadata (now env) pipeline_job_id
                         (retry_metadata env delay next_retry e) ;;;
     enqueue_in QUEUE_CHUNKING delay
                (ChunkTask pipeline_job_id document_id text_location
                           next_retry phase_id kw) ;;;
     when (truthy_int (err_retry_after e))
          (time_sleep (get_or (err_retry_after e) 0%Z))
   else
     update_job pipeline_job_id (job_set_status (now env) JobFailed)) ;;;
  ret (failure_result retry_count e).

(** The batch insert of the chunk rows, [chunk_index] from
    [enumerate]. *)
Fixpoint insert_chunks (document_id : id) (i : Z)
         (cs : list Chunking.Chunk) : M world unit :=
  match cs with
  | [] => ret tt
  | c :: r =>
      k <- fresh_id ;;
      modify (with_chunks (fun l =>
        (l ++ [mkChunkRow k document_id (Chunking.text c) (Chunking.context c)
                          i (Chunking.token_count c) (Chunking.char_start c)
                          (Chunking.char_end c)])%list)) ;;;
      insert_chunks document_id (i + 1)%Z r
  end.

Definition chunk_task (env : environment)
           (pipeline_job_id document_id : id) (text_location : string)
           (retry_count : nat) (parent_phase_id : option id) (kw : kwargs)
  : M world result :=
  let source_name := get_or (kw_source_name kw) "Unknown file" in
  let source_platform := get_or (kw_source_platform kw) "unknown" in
  let clerk_org_id := kw_clerk_org_id kw in
  started <- attempt
    (clear_retry_metadata env pipeline_job_id retry_count ;;;
     insert_phase (processing_phase env pipeline_job_id Chunking "chunking"
                     (Some text_location) retry_count parent_phase_id)) ;;
  match started with
  | inr e => chunk_task_except env pipeline_job_id document_id text_location
                               retry_count kw None e
  | inl phase_id =>
      finished <- attempt
        (text_content <- lift (load_extracted_text env text_location) ;;
         let text_length := Chunking.len text_content in
         let word_count := Chunking.word_count text_content in
         if negb (anthropic_api_key env)
         then raise (ValueError "ANTHROPIC_API_KEY environment variable not set")
         else
           chunks <- lift (chunking env text_content source_name) ;;
           let chunk_count := Z.of_nat (List.length chunks) in
           insert_chunks document_id 0 chunks ;;;
           update_phase phase_id
             (phase_set_completed (now env) None
                [("chunk_count", JInt chunk_count);
                 ("text_length", JInt text_length);
                 ("word_count", JInt word_count)]) ;;;
           update_job pipeline_job_id
                      (job_set_current_phase (now env) KgIngest) ;;;
           enqueue_kg_ingest pipeline_job_id document_id
             (mkKwargs (Some source_name) (Some source_platform)
                       clerk_org_id None None None) ;;;
           ret (Success document_id
                        [("chunk_count", JInt chunk_count);
                         ("text_length", JInt text_length)])) ;;
      match finished with
      | inl r => ret r
      | inr e => chunk_task_except env pipeline_job_id document_id
                                   text_location retry_count kw
                                   (Some phase_id) e
      end
  end.

(** *** kg_worker.py *)

Definition ingest_kg_task_except (env : environment)
           (pipeline_job_id document_id : id) (retry_count : nat)
           (kw : kwargs) (phase_id : option id) (e : error)
  : M world result :=
  mark_phase_failed env phase_id e ;;;
  (if should_retry retry_count e then
     let delay := get_retry_delay retry_count (Some e) in
     let next_retry := S retry_count in
     insert_phase (queued_retry_phase env pipeline_job_id KgIngest None
                     next_retry phase_id delay) ;;;
     update_job_metadata (now env) pipeline_job_id
                         (retry_metadata env delay next_retry e) ;;;
     enqueue_in QUEUE_KG_INGEST delay
                (KgIngestTask pipeline_job_id document_id next_retry phase_id kw)
   else
     update_job pipeline_job_id (job_set_status (now env) JobFailed)) ;;;
  ret (failure_result retry_count e).

(** [.order("chunk_index")] *)
Fixpoint insert_by_index (c : document_chunk) (l : list document_chunk)
  : list document_chunk :=
  match l with
  | [] => [c]
  | x :: r =>
      if (chunk_index_of c <? chunk_index_of x)%Z then c :: l
      else x :: insert_by_index c r
  end.

Definition order_by_index (l : list document_chunk) : list document_chunk :=
  fold_left (fun acc c => insert_by_index c acc) l [].

Definition show_int (z : Z) : string :=
  DecimalString.NilZero.string_of_int (Z.to_int z).

Definition show_optional (o : option string) : string :=
  match o with Some s => s | None => "None" end.

Definition log_graph_call (c : graph_call) : M world unit :=
  modify (with_graph_calls (fun l => (l ++ [c])%list)).

(** The [add_episode] call made for a chunk. *)
Definition add_episode_call (env : environment)
           (clerk_org_id : option string) (document_title : option string)
           (document_created_at : option Z) (chunk : document_chunk)
  : graph_call :=
  let embedding_text :=
    chunk_context chunk ++ Chunking.nl ++ Chunking.nl ++ chunk_content chunk in
  AddEpisode (show_optional document_title ++ " - Chunk "
              ++ show_int (chunk_index_of chunk))
             embedding_text (chunk_context chunk)
             (Some (get_or document_created_at (now env)))
             clerk_org_id.

(** [add_chunk_to_kg]: the episode id, or [None] on any failure.  The
    [kg_entity_mapping] insert stands inside the same [try] as
    [add_episode]: when it raises ([insert_mapping] gives the error for
    the chunk), the function answers [None] although the episode
    exists. *)
Definition add_chunk_to_kg (env : environment) (document_id : id)
           (clerk_org_id : option string) (document_title : option string)
           (document_created_at : option Z) (chunk : document_chunk)
  : M world (option string) :=
  log_graph_call (add_episode_call env clerk_org_id document_title
                                   document_created_at chunk) ;;;
  match add_episode env chunk with
  | EpisodeRaises _ => ret None
  | EpisodeReturns episode_id =>
      if truthy_str episode_id then
        match insert_mapping env chunk with
        | Some _ => ret None
        | None =>
            k <- fresh_id ;;
            modify (with_mappings (fun l =>
              (l ++ [mkMapping k clerk_org_id document_id
                               (get_or episode_id "") "graphiti" "episode"
                               [chunk_id chunk]])%list)) ;;;
            ret episode_id
        end
      else ret episode_id
  end.

(** [isinstance(result, str)] over the gathered results. *)
Fixpoint episode_ids_of (results : list (option string)) : list string :=
  match results with
  | [] => []
  | Some s :: r => s :: episode_ids_of r
  | None :: r => episode_ids_of r
  end.

Definition remove_episodes (env : environment) (episode_ids : list string)
  : M world unit :=
  for_each episode_ids (fun episode_id =>
    log_graph_call (RemoveEpisode episode_id)).

Definition partial_failure_message (failed_count chunk_count : nat) : string :=
  "Partial failure: " ++ show_id failed_count ++ "/" ++ show_id chunk_count
  ++ " chunks failed to ingest".

Definition partial_failure_metadata (episode_count chunk_count
                                     failed_count : nat) : dict :=
  [("episode_count", JInt (Z.of_nat episode_count));
   ("chunk_count", JInt (Z.of_nat chunk_count));
   ("failed_count", JInt (Z.of_nat failed_count));
   ("cleaned_up_episodes", JInt (Z.of_nat episode_count))].

Definition partial_ingest_error (failed_count chunk_count episode_count : nat)
  : error :=
  PartialIngestError
    ("Partial KG ingest failure: " ++ show_id failed_count ++ "/"
     ++ show_id chunk_count ++ " chunks failed. Cleaned up "
     ++ show_id episode_count
     ++ " episodes. Retry will re-process all chunks.").

(** [select * from document_chunk where document_id = ... order by
    chunk_index] *)
Definition document_chunks (document_id : id) (w : world)
  : list document_chunk :=
  order_by_index
    (select_where (fun c => (chunk_document_id c =? document_id)%nat)
                  (chunks w)).

(** Steps 2 to 7 of the handler, inside its [try]. *)
Definition ingest_kg_body (env : environment)
           (pipeline_job_id document_id : id) (kw : kwargs) (phase_id : id)
  : M world result :=
  let clerk_org_id := kw_clerk_org_id kw in
  w <- get ;;
  let chunks := document_chunks document_id w in
  match chunks with
  | [] => raise (ValueError ("No chunks found for document "
                             ++ show_id document_id))
  | _ =>
      let chunk_count := List.length chunks in
      doc <- match select_where (fun d => (doc_id d =? document_id)%nat)
                                (documents w) with
             | [d] => ret d
             | _ => raise (APIError "JSON object requested, multiple (or no) rows returned")
             end ;;
      let document_title := doc_title doc in
      let document_created_at := doc_created_at doc in
      graphiti_client <- lift (get_graphiti_client env) ;;
      if negb graphiti_client
      then raise (ValueError "Failed to initialize Graphiti client")
      else
        match KG_MAX_CONCURRENT env with
        | Unset =>
            raise (ValueError "KG_MAX_CONCURRENT environment variable is required")
        | NotAnInteger =>
            raise (ValueError "invalid literal for int() with base 10")
        | IntValue kg_max_concurrent =>
            if (kg_max_concurrent <? 0)%Z
            then raise (ValueError "Semaphore initial value must be >= 0")
            else if (kg_max_concurrent =? 0)%Z then diverge
            else
              results <- map_m (add_chunk_to_kg env document_id clerk_org_id
                                  document_title document_created_at) chunks ;;
              let episode_ids := episode_ids_of results in
              let episode_count := List.length episode_ids in
              let failed_count := (chunk_count - episode_count)%nat in
              if (0 <? failed_count)%nat then
                modify (with_mappings
                          (delete_where
                             (fun m => (mapping_document_id m =? document_id)%nat))) ;;;
                when (negb (match episode_ids with [] => true | _ => false end)
                      && graphiti_client)
                     (remove_episodes env episode_ids) ;;;
                update_phase phase_id
                  (phase_set_failed_with_metadata (now env)
                     "PartialIngestFailure"
                     (partial_failure_message failed_count chunk_count)
                     (partial_failure_metadata episode_count chunk_count
                                               failed_count)) ;;;
                raise (partial_ingest_error failed_count chunk_count
                                            episode_count)
              else
                update_phase phase_id
                  (phase_set_completed (now env) None
                     [("episode_count", JInt (Z.of_nat episode_count));
                      ("chunk_count", JInt (Z.of_nat chunk_count));
                      ("episode_ids", JStrs (firstn 10 episode_ids))]) ;;;
                update_job pipeline_job_id (job_set_completed (now env)) ;;;
                ret (Success document_id
                             [("episode_count", JInt (Z.of_nat episode_count));
                              ("chunk_count", JInt (Z.of_nat chunk_count))])
        end
  end.

Definition ingest_kg_task (env : environment)
           (pipeline_job_id document_id : id) (retry_count : nat)
           (parent_phase_id : option id) (kw : kwargs) : M world result :=
  started <- attempt
    (clear_retry_metadata env pipeline_job_id retry_count ;;;
     insert_phase (processing_phase env pipeline_job_id KgIngest "kg_ingest"
                     None retry_count parent_phase_id)) ;;
  match started with
  | inr e => ingest_kg_task_except env pipeline_job_id document_id
                                   retry_count kw None e
  | inl phase_id =>
      finished <- attempt (ingest_kg_body env pipeline_job_id document_id kw
                                          phase_id) ;;
      match finished with
      | inl r => ret r
      | inr e => ingest_kg_task_except env pipeline_job_id document_id
                                       retry_count kw (Some phase_id) e
      end
  end.

(** The handler behind each queue. *)
Definition run_task (env : environment) (t : task) : M world result :=
  match t with
  | ExtractTask j d raw rc parent kw => extract_task env j d raw rc parent kw
  | IngestExtractTask j d src ft rc pi pe kw =>
      ingest_extract_task env j d src ft rc pi pe kw
  | ChunkTask j d loc rc parent kw => chunk_task env j d loc rc parent kw
  | KgIngestTask j d rc parent kw => ingest_kg_task env j d rc parent kw
  end.







(** A computation that leaves the mapping table, the chunk and document
    tables and the graph engine alone. *)
Definition keeps_graph {A} (c : M world A) : Prop :=
  forall w, mappings (fst (c w)) = mappings w
            /\ graph_calls (fst (c w)) = graph_calls w
            /\ chunks (fst (c w)) = chunks w
            /\ documents (fst (c w)) = documents w.


End Workers.

(** ** Sample data for the worked examples *)

Module Sample.
Import Py PyM Store Workers.

Definition kw : kwargs :=
  mkKwargs (Some "talk.mp4") (Some "manual_upload") (Some "org_a")
           (Some "mp4") None None.

(** An environment in which every service answers; [add_episode] gives
    no episode id for the chunk of index [failing] and the id
    ["ep<index>"] for the others; extraction yields [extracted]. *)
Definition env (failing : Z) (extracted : string) : environment :=
  mkEnv 1000%Z
        (fun _ => Ok "raw bytes") (fun _ => Ok "Some extracted text.")
        (fun file_type => file_type) (fun _ => false)
        (fun _ _ => Ok extracted) (fun _ _ => Ok extracted)
        (fun _ => None)
        (fun _ _ _ => Ok ("raw bytes", "application/pdf"))
        (fun _ _ => ".pdf") (fun _ => Ok [])
        true
        (fun t title =>
           Ok [Chunking.mkChunk t title 0 0 (Chunking.len t) 5])
        (Ok true) (IntValue 2)
        (fun c => if (chunk_index_of c =? failing)%Z
                  then EpisodeReturns None
                  else EpisodeReturns
                         (Some ("ep" ++ show_int (chunk_index_of c))))
        (fun _ => None) (fun _ => None).

(** Job 1 of document 7, which has three chunks and no mapping row. *)
Definition world_with (status : job_status) : world :=
  mkWorld [mkJob 1 7 "org_a" KgIngest status (Some 10%Z) None None []]
          []
          [mkDocument 7 (Some "org_a") (Some "Talk") (Some 5%Z) "processing" None]
          [mkChunkRow 21 7 "first" "about one" 0 3 0 10;
           mkChunkRow 22 7 "second" "about two" 1 3 10 20;
           mkChunkRow 23 7 "third" "about three" 2 3 20 30]
          [] 30 [] [] [].

(** The same store after the document and its job were deleted. *)
Definition world_without_job : world :=
  mkWorld [] [] [] [] [] 30 [] [] [].
End Sample.
(** ** utils/file_utils.py *)

Module FileUtils.
Import Py.

Definition MAX_AUDIO_VIDEO_SIZE : Z := (1200 * 1024 * 1024)%Z.
Definition MAX_DOCUMENT_SIZE : Z := (50 * 1024 * 1024)%Z.

Definition AUDIO_MIME_TYPES : list string :=
  [ "audio/mpeg"; "audio/mp4"; "audio/wav"; "audio/flac"; "audio/ogg";
    "audio/opus"; "audio/x-m4a"; "audio/x-wav" ].

Definition VIDEO_MIME_TYPES : list string :=
  [ "video/mp4"; "video/quicktime"; "video/x-msvideo"; "video/x-matroska";
    "video/webm"; "video/mpeg" ].

Definition DOCUMENT_MIME_TYPES : list string :=
  [ "application/pdf";
    "application/vnd.openxmlformats-officedocument.wordprocessingml.document";
    "application/msword"; "text/plain";
    "application/vnd.google-apps.document" ].

Definition SUBTITLE_MIME_TYPES : list string :=
  [ "text/vtt"; "text/srt"; "application/x-subrip" ].

(** [d.get(k)] on a dict of strings. *)
Fixpoint lookup (k : string) (d : list (string * string)) : option string :=
  match d with
  | [] => None
  | (k', v) :: r => if String.eqb k k' then Some v else lookup k r
  end.

Definition is_audio_video_file (mime_type : string) : bool :=
  if mem mime_type AUDIO_MIME_TYPES || mem mime_type VIDEO_MIME_TYPES then true
  else String.prefix "audio/" mime_type || String.prefix "video/" mime_type.

Definition is_document_file (mime_type : string) : bool :=
  mem mime_type DOCUMENT_MIME_TYPES.

Definition is_subtitle_file (mime_type : string) : bool :=
  mem mime_type SUBTITLE_MIME_TYPES.

Inductive ProcessingMode :=
| direct_transcription
| standard_document.

Definition get_processing_mode (mime_type : string) : ProcessingMode :=
  if is_audio_video_file mime_type then direct_transcription
  else standard_document.

(** The table [mime_to_ext] of [get_file_extension]. *)
Definition mime_to_ext : list (string * string) :=
  [ ("audio/mpeg", ".mp3"); ("audio/mp4", ".m4a"); ("audio/wav", ".wav");
    ("audio/flac", ".flac"); ("audio/ogg", ".ogg"); ("audio/opus", ".opus");
    ("audio/x-m4a", ".m4a"); ("audio/x-wav", ".wav");
    ("video/mp4", ".mp4"); ("video/quicktime", ".mov");
    ("video/x-msvideo", ".avi"); ("video/x-matroska", ".mkv");
    ("video/webm", ".webm"); ("video/mpeg", ".mpeg");
    ("application/pdf", ".pdf");
    ("application/vnd.openxmlformats-officedocument.wordprocessingml.document",
     ".docx");
    ("application/msword", ".doc"); ("text/plain", ".txt");
    ("application/vnd.google-apps.document", ".docx");
    ("text/vtt", ".vtt"); ("text/srt", ".srt");
    ("application/x-subrip", ".srt") ].

(** [get_file_extension]; [path_suffix] stands for
    [Path(filename).suffix]. *)
Definition get_file_extension (path_suffix : string -> string)
           (mime_type filename : string) : string :=
  let fallback :=
    match lookup mime_type mime_to_ext with
    | Some ext => ext
    | None => ""
    end in
  if negb (String.eqb filename "") then
    let ext := path_suffix filename in
    if negb (String.eqb ext "") then ext else fallback
  else fallback.

(** The table [mime_to_type] of [get_file_type_label]. *)
Definition mime_to_type : list (string * string) :=
  [ ("audio/mpeg", "mp3"); ("audio/mp4", "m4a"); ("audio/wav", "wav");
    ("audio/flac", "flac"); ("audio/ogg", "ogg"); ("audio/opus", "opus");
    ("audio/x-m4a", "m4a"); ("audio/x-wav", "wav");
    ("video/mp4", "mp4"); ("video/quicktime", "mov");
    ("video/x-msvideo", "avi"); ("video/x-matroska", "mkv");
    ("video/webm", "webm"); ("video/mpeg", "mpeg");
    ("application/pdf", "pdf");
    ("application/vnd.openxmlformats-officedocument.wordprocessingml.document",
     "docx");
    ("application/msword", "doc"); ("text/plain", "txt");
    ("application/vnd.google-apps.document", "gdoc");
    ("text/vtt", "vtt"); ("text/srt", "srt");
    ("application/x-subrip", "srt") ].

Definition get_file_type_label (mime_type : string) : string :=
  match lookup mime_type mime_to_type with
  | Some label => label
  | None => "unknown"
  end.
End FileUtils.

(** ** services/extraction.py *)

Module Extraction.
Import Py PyM FileUtils.

Definition EXTENSION_TO_MIME : list (string * string) :=
  [ ("mp3", "audio/mpeg"); ("m4a", "audio/mp4"); ("wav", "audio/wav");
    ("flac", "audio/flac"); ("ogg", "audio/ogg"); ("opus", "audio/opus");
    ("mp4", "video/mp4"); ("mov", "video/quicktime");
    ("avi", "video/x-msvideo"); ("mkv", "video/x-matroska");
    ("webm", "video/webm"); ("mpeg", "video/mpeg");
    ("pdf", "application/pdf");
    ("docx",
     "application/vnd.openxmlformats-officedocument.wordprocessingml.document");
    ("doc", "application/msword"); ("txt", "text/plain");
    ("gdoc", "application/vnd.google-apps.document");
    ("vtt", "text/vtt"); ("srt", "text/srt") ].

Definition MIME_TO_EXTENSION : list (string * string) :=
  [ ("application/pdf", ".pdf");
    ("application/vnd.openxmlformats-officedocument.wordprocessingml.document",
     ".docx");
    ("application/msword", ".doc"); ("text/plain", ".txt");
    ("text/vtt", ".vtt"); ("text/srt", ".srt");
    ("audio/mpeg", ".mp3"); ("audio/mp4", ".m4a"); ("audio/wav", ".wav");
    ("audio/flac", ".flac"); ("audio/ogg", ".ogg"); ("audio/opus", ".opus");
    ("video/mp4", ".mp4"); ("video/quicktime", ".mov");
    ("video/x-msvideo", ".avi"); ("video/x-matroska", ".mkv");
    ("video/webm", ".webm"); ("video/mpeg", ".mpeg") ].

Definition get_mime_type (file_type : string) : string :=
  if contains "/" file_type then file_type
  else match lookup (lower file_type) EXTENSION_TO_MIME with
       | Some mime => mime
       | None => "application/octet-stream"
       end.

(** What the two extractors reach outside: the temporary file written
    with a suffix, the [DEEPGRAM_API_KEY] variable, the transcription
    service and the text extractor. *)
Record services := mkServices {
  write_temp_file : string -> string -> outcome string;
  DEEPGRAM_API_KEY : option string;
  transcribe_file : string -> outcome string;
  extract_text_of_file : string -> string -> outcome string
}.

Definition obind {A B} (o : outcome A) (k : A -> outcome B) : outcome B :=
  match o with
  | Ok a => k a
  | Raise e => Raise e
  | Diverge => Diverge
  end.

(** The body of [transcribe_audio_video] once the suffix is known. *)
Definition transcribe_with_suffix (sv : services) (file_data file_ext : string)
  : outcome string :=
  obind (write_temp_file sv file_ext file_data) (fun temp_path =>
    if negb (truthy_str (DEEPGRAM_API_KEY sv))
    then Raise (builtin_error "ValueError"
                  "DEEPGRAM_API_KEY environment variable not set")
    else transcribe_file sv temp_path).

Definition transcribe_audio_video (sv : services) (file_data mime_type : string)
  : outcome string :=
  let file_ext := lookup mime_type MIME_TO_EXTENSION in
  if negb (truthy_str file_ext)
  then Raise (builtin_error "ValueError"
                ("Unsupported MIME type for transcription: " ++ mime_type))
  else transcribe_with_suffix sv file_data
         (match file_ext with Some ext => ext | None => "" end).

Definition extract_document_text (sv : services) (file_data mime_type : string)
  : outcome string :=
  let file_ext :=
    match lookup mime_type MIME_TO_EXTENSION with
    | Some ext => ext
    | None => ".tmp"
    end in
  obind (write_temp_file sv file_ext file_data) (fun temp_path =>
    extract_text_of_file sv temp_path mime_type).
End Extraction.

(** ** What the limiter's keys look like

    The shape every key has after any sequence of calls from the empty
    store: entries in increasing score order, scores that are instants
    read from the clock, and no more than the cap allows. *)

Module LimiterShape.
Import Py ZSet RateLimiter.

Definition by_score {M} (a b : M * Z) : Prop := (snd a <= snd b)%Z.

Definition rpm_shape (cap : Z) (k : key_state Z) : Prop :=
  StronglySorted by_score (entries k)
  /\ Forall (fun e => (0 <= snd e)%Z) (entries k)
  /\ (zcard (entries k) <= cap)%Z.

Definition tpm_shape (cap : Z) (k : key_state tpm_member) : Prop :=
  StronglySorted by_score (entries k)
  /\ Forall (fun e => (0 <= snd e)%Z /\ (0 <= snd (fst e))%Z) (entries k)
  /\ (sum_tokens (entries k) <= cap)%Z.

(** Calls made at instants of the epoch, reserving non-negative token
    counts. *)
Definition sound_call (c : Z * call) : Prop :=
  (0 <= fst c)%Z /\ nonneg_call (snd c).

(** Whether every call of a log was granted at no wait. *)
Definition all_granted (log : list (Z * call * (bool * Z))) : bool :=
  forallb (fun r => fst (snd r) && (snd (snd r) =? 0)%Z) log.
End LimiterShape.

(** ** Measures on the chunker's sentences *)

Module ChunkingShape.
Import Py Chunking.

(** A string of whitespace only. *)
Fixpoint all_space (s : string) : bool :=
  match s with
  | EmptyString => true
  | String c s' => is_space c && all_space s'
  end.

(** What a list of sentences adds to [char_position]: each sentence
    and the space counted after it. *)
Definition width (l : list string) : Z :=
  fold_right (fun s acc => (len s + 1 + acc)%Z) 0%Z l.

(** The estimate the packer keeps for a list of sentences. *)
Definition tokens_of (l : list string) : Z :=
  fold_right (fun s acc => (_estimate_tokens s + acc)%Z) 0%Z l.

(** The fields a [Chunk] takes over from its base chunk. *)
Definition base_fields (b : base_chunk) : string * Z * Z * Z :=
  (b_text b, b_char_start b, b_char_end b, b_token_count b).

Definition chunk_fields (c : Chunk) : string * Z * Z * Z :=
  (text c, char_start c, char_end c, token_count c).

(** [0, 1, ..., n - 1] from [i]. *)
Fixpoint indices (i : Z) (n : nat) : list Z :=
  match n with
  | O => []
  | S n' => i :: indices (i + 1)%Z n'
  end.

(** A base chunk whose span has the length of its text and starts
    after the origin. *)
Definition good_span (b : base_chunk) : Prop :=
  (1 <= b_char_start b)%Z
  /\ (b_char_start b + len (b_text b))%Z = b_char_end b
  /\ b_text b <> EmptyString.

Definition ends_before (a b : base_chunk) : Prop :=
  (b_char_end a < b_char_end b)%Z.

(** What holds of the packer's state between two sentences. *)
Definition packed (p : pack_state) : Prop :=
  (width (current_chunk p) <= char_position p)%Z
  /\ Forall (fun s => s <> EmptyString) (current_chunk p)
  /\ Forall good_span (chunks p)
  /\ StronglySorted ends_before (chunks p)
  /\ Forall (fun b => (b_char_end b < char_position p)%Z) (chunks p).

(** The same for the token budget. *)
Definition within_budget (svc : service) (p : pack_state) : Prop :=
  (0 <= current_tokens p <= chunk_size svc)%Z
  /\ (current_chunk p = [] -> current_tokens p = 0%Z)
  /\ Forall (fun b => (0 <= b_token_count b <= chunk_size svc)%Z) (chunks p).
End ChunkingShape.

(** ** What a handler hands to the broker *)

Module WorkerShape.
Import Py PyM Store RetryPolicy Workers.











(** Reduction of the setters of [world] met when a handler is run by
    hand. *)
Ltac simpl_world :=
  cbn [with_jobs with_phases with_documents with_chunks with_mappings
       with_objects with_queue with_graph_calls jobs phases documents
       chunks mappings next_id objects queue graph_calls].

Ltac simpl_world_in H :=
  cbn [with_jobs with_phases with_documents with_chunks with_mappings
       with_objects with_queue with_graph_calls jobs phases documents
       chunks mappings next_id objects queue graph_calls] in H.


End WorkerShape.

(** ** More sample data *)

Module Scenario.
Import Py PyM Store Workers.

(** As [Sample.env], with the object storage and the metadata call
    answering as given. *)
Definition env (load_raw load_text : outcome string) (rpc : outcome dict)
  : environment :=
  mkEnv 1000%Z
        (fun _ => load_raw) (fun _ => load_text)
        (fun file_type => file_type) (fun _ => false)
        (fun _ _ => Ok "Some extracted text.")
        (fun _ _ => Ok "Some extracted text.")
        (fun _ => None)
        (fun _ _ _ => Ok ("raw bytes", "application/pdf"))
        (fun _ _ => ".pdf") (fun _ => rpc)
        true
        (fun t title =>
           Ok [Chunking.mkChunk t title 0 0 (Chunking.len t) 5;
               Chunking.mkChunk t title 1 0 (Chunking.len t) 5])
        (Ok true) (IntValue 2)
        (fun c => EpisodeReturns
                    (Some ("ep" ++ show_int (chunk_index_of c))))
        (fun _ => None) (fun _ => None).





Definition not_found : error :=
  mkError "FileNotFoundError" "builtins" "no such object" None.

(** Job 1 of document 7, nothing chunked yet. *)
Definition fresh_world : world :=
  mkWorld [mkJob 1 7 "org_a" Extraction JobProcessing (Some 10%Z) None None []]
          []
          [mkDocument 7 (Some "org_a") (Some "Talk") (Some 5%Z) "processing" None]
          [] [] 30 [] [] [].
End Scenario.

(** * Properties of the retry policy *)

Module RetryPolicyFacts.
Import Py RetryPolicy.

Lemma mem_In x xs : mem x xs = true <-> In x xs.
Proof.
  unfold mem. rewrite existsb_exists. split.
  - intros [y [Hy E]]. apply String.eqb_eq in E. now subst.
  - intros H. exists x. split; [assumption | apply String.eqb_refl].
Qed.

Lemma mem_not_In x xs : mem x xs = false <-> ~ In x xs.
Proof.
  rewrite <- mem_In. destruct (mem x xs); split; intros; congruence.
Qed.

(** A qualified name [module.Class] always carries a dot, the six
    non-retryable names carry none: the test on [full_error_type] adds
    nothing to the test on the bare class name. *)
Lemma has_dot_app a b : has_dot (a ++ b) = has_dot a || has_dot b.
Proof.
  induction a as [|c a IH]; simpl; [reflexivity|].
  rewrite IH. now rewrite orb_assoc.
Qed.

Lemma non_retryable_no_dot s :
  In s NON_RETRYABLE_ERRORS -> has_dot s = false.
Proof.
  unfold NON_RETRYABLE_ERRORS. simpl.
  intros H. repeat (destruct H as [<- | H]; [reflexivity|]). contradiction.
Qed.

Lemma full_error_type_non_retryable e :
  mem (full_error_type e) NON_RETRYABLE_ERRORS = true ->
  mem (err_type e) NON_RETRYABLE_ERRORS = true.
Proof.
  unfold full_error_type.
  destruct (String.eqb (err_module e) "builtins"); [trivial|].
  intros H. apply mem_In, non_retryable_no_dot in H.
  rewrite !has_dot_app in H. simpl in H.
  rewrite orb_true_r in H. discriminate.
Qed.

(** The function is decided by its first two tests alone. *)
Lemma is_retryable_error_decided e sc :
  is_retryable_error e sc =
  negb (mem (err_type e) NON_RETRYABLE_ERRORS || client_error_status sc).
Proof.
  unfold is_retryable_error. cbv zeta.
  destruct (mem (err_type e) NON_RETRYABLE_ERRORS) eqn:Hn; [reflexivity|].
  destruct (mem (full_error_type e) NON_RETRYABLE_ERRORS) eqn:Hf.
  - apply full_error_type_non_retryable in Hf. congruence.
  - cbn [orb negb].
    destruct (client_error_status sc); [reflexivity|].
    repeat match goal with |- context [if ?b then _ else _] => destruct b end;
      reflexivity.
Qed.

Lemma client_error_status_iff sc :
  client_error_status sc = true <->
  exists c, sc = Some c /\ (400 <= c < 500)%Z /\ c <> 429%Z.
Proof.
  unfold client_error_status. split.
  - destruct sc as [c|]; [|discriminate]. intros H.
    apply andb_true_iff in H. destruct H as [H H3].
    apply andb_true_iff in H. destruct H as [_ H].
    apply andb_true_iff in H. destruct H as [H1 H2].
    exists c. repeat split; lia.
  - intros [c [-> [[H1 H2] H3]]].
    repeat (apply andb_true_iff; split); lia.
Qed.

(** C4 (as amended).  [is_retryable_error] makes its two non-retryable
    tests first.  It answers [False] exactly when the class name is one
    of [ValidationError], [ValueError], [FileNotFoundError],
    [InvalidFileFormat], [AuthenticationError], [PermissionDenied], or
    the status code is a 4xx other than 429, whatever else holds of the
    error.  In every other case it answers [True]: for
    [ConnectionError], [Timeout], [ReadTimeout], [TimeoutError], the
    rate-limit errors, [ServiceUnavailable], [PartialIngestError] and
    every 5xx status, and for every error that matches none of the
    listed cases. *)
Theorem is_retryable_error_taxonomy (e : error) (status_code : option Z) :
  let non_retryable :=
    In (err_type e)
       ["ValidationError"; "ValueError"; "FileNotFoundError";
        "InvalidFileFormat"; "AuthenticationError"; "PermissionDenied"] \/
    (exists c, status_code = Some c /\ (400 <= c < 500)%Z /\ c <> 429%Z) in
  let listed_retryable :=
    In (err_type e)
       ["ConnectionError"; "Timeout"; "ReadTimeout"; "TimeoutError";
        "RateLimitError"; "AnthropicRateLimitError"; "ServiceUnavailable";
        "PartialIngestError"] \/
    (exists c, status_code = Some c /\ (500 <= c < 600)%Z) in
  (is_retryable_error e status_code = false <-> non_retryable) /\
  (~ non_retryable -> listed_retryable ->
   is_retryable_error e status_code = true) /\
  (~ non_retryable -> ~ listed_retryable ->
   is_retryable_error e status_code = true).
Proof.
  cbv zeta. rewrite is_retryable_error_decided.
  change ["ValidationError"; "ValueError"; "FileNotFoundError";
          "InvalidFileFormat"; "AuthenticationError"; "PermissionDenied"]
    with NON_RETRYABLE_ERRORS.
  assert (Hyes :
    In (err_type e) NON_RETRYABLE_ERRORS \/
    (exists c, status_code = Some c /\ (400 <= c < 500)%Z /\ c <> 429%Z) ->
    mem (err_type e) NON_RETRYABLE_ERRORS || client_error_status status_code
    = true).
  { intros [H | H]; apply orb_true_iff.
    - left. now apply mem_In.
    - right. now apply client_error_status_iff. }
  assert (Hno :
    ~ (In (err_type e) NON_RETRYABLE_ERRORS \/
       (exists c, status_code = Some c /\ (400 <= c < 500)%Z /\ c <> 429%Z)) ->
    mem (err_type e) NON_RETRYABLE_ERRORS || client_error_status status_code
    = false).
  { intros H. apply orb_false_iff. split.
    - apply mem_not_In. tauto.
    - destruct (client_error_status status_code) eqn:E; [|reflexivity].
      apply client_error_status_iff in E. tauto. }
  split; [split|split].
  - intros H.
    destruct (mem (err_type e) NON_RETRYABLE_ERRORS) eqn:E1.
    + left. now apply mem_In.
    + destruct (client_error_status status_code) eqn:E2; [|discriminate H].
      right. now apply client_error_status_iff.
  - intros H. now rewrite (Hyes H).
  - intros H _. now rewrite (Hno H).
  - intros H _. now rewrite (Hno H).
Qed.

(** The taxonomy at three concrete errors: a [ValueError] carrying a 500,
    a [ConnectionError] without status, and an unknown error class with a
    429. *)
Lemma is_retryable_error_taxonomy_witness :
  is_retryable_error (builtin_error "ValueError" "bad input") (Some 500%Z) = false
  /\ is_retryable_error (builtin_error "ConnectionError" "reset") None = true
  /\ is_retryable_error (mkError "Weird" "pkg" "boom" None) (Some 429%Z) = true.
Proof.
  split; [|split].
  - apply (proj2 (proj1 (is_retryable_error_taxonomy
                           (builtin_error "ValueError" "bad input")
                           (Some 500%Z)))).
    left. simpl. tauto.
  - apply (proj1 (proj2 (is_retryable_error_taxonomy
                    (builtin_error "ConnectionError" "reset") None))).
    + intros [H | [c [H _]]]; [|discriminate].
      simpl in H. repeat (destruct H as [H | H]; [discriminate|]). exact H.
    + left. simpl. tauto.
  - apply (proj2 (proj2 (is_retryable_error_taxonomy
                    (mkError "Weird" "pkg" "boom" None) (Some 429%Z)))).
    + intros [H | [c [H [_ Hc]]]].
      * simpl in H. repeat (destruct H as [H | H]; [discriminate|]). exact H.
      * injection H as <-. now apply Hc.
    + intros [H | [c [H Hc]]].
      * simpl in H. repeat (destruct H as [H | H]; [discriminate|]). exact H.
      * injection H as <-. lia.
Defined.

(** C4 as the specification words it promises [True] for
    [ConnectionError] and for every 5xx status without saying which
    test wins.  The non-retryable tests win: a [ConnectionError]
    carrying a 404 and a [ValueError] carrying a 503 are both given
    up. *)
Lemma is_retryable_error_precedence_counterexample :
  is_retryable_error (builtin_error "ConnectionError" "reset") (Some 404%Z)
  = false
  /\ is_retryable_error (builtin_error "ValueError" "bad input") (Some 503%Z)
     = false.
Proof. split; reflexivity. Qed.


Lemma ValueError_not_retryable msg sc :
  is_retryable_error (builtin_error "ValueError" msg) sc = false.
Proof. rewrite is_retryable_error_decided. reflexivity. Qed.

End RetryPolicyFacts.

(** * Properties of the sorted-set model *)

Module ZSetFacts.
Import ZSet.

Section Facts.
Context {M : Type}.
Variable meqb : M -> M -> bool.
Variable mltb : M -> M -> bool.
Hypothesis meqb_spec : forall a b, meqb a b = true <-> a = b.

Lemma zinsert_perm m sc (z : list (M * Z)) :
  Permutation (zinsert mltb m sc z) ((m, sc) :: z).
Proof.
  induction z as [|[m' sc'] r IH]; simpl; [reflexivity|].
  destruct ((sc <? sc')%Z || ((sc =? sc')%Z && mltb m m')); [reflexivity|].
  rewrite IH. apply perm_swap.
Qed.

Lemma In_zrem_member e m (z : list (M * Z)) :
  In e (zrem_member meqb m z) <-> In e z /\ fst e <> m.
Proof.
  unfold zrem_member. rewrite filter_In. split; intros [H1 H2]; split; trivial.
  - intros E. apply meqb_spec in E. rewrite E in H2. discriminate.
  - destruct (meqb (fst e) m) eqn:E; [|reflexivity].
    apply meqb_spec in E. contradiction.
Qed.

Lemma In_zadd e m sc (z : list (M * Z)) :
  In e (zadd meqb mltb m sc z) <-> e = (m, sc) \/ (In e z /\ fst e <> m).
Proof.
  unfold zadd. split.
  - intros H. apply (Permutation_in _ (zinsert_perm _ _ _)) in H.
    destruct H as [H | H]; [left; now symmetry|].
    right. now apply In_zrem_member.
  - intros H.
    apply (Permutation_in _ (Permutation_sym (zinsert_perm _ _ _))).
    destruct H as [-> | H]; [now left|]. right. now apply In_zrem_member.
Qed.

Lemma In_zremrangebyscore e lo hi (z : list (M * Z)) :
  In e (zremrangebyscore lo hi z) <->
  In e z /\ ~ (lo <= snd e <= hi)%Z.
Proof.
  unfold zremrangebyscore. rewrite filter_In.
  split; intros [H1 H2]; split; trivial; lia.
Qed.

(** Filtering entries keeps their keys distinct. *)
Lemma NoDup_map_filter {X K} (key : X -> K) (keep : X -> bool) (xs : list X)
      (Hxs : NoDup (map key xs)) :
  NoDup (map key (filter keep xs)).
Proof.
  induction xs as [|x xs IHxs]; simpl; [constructor|].
  inversion Hxs as [|? ? Hfresh Hrest]; subst.
  destruct (keep x); simpl; [constructor|]; auto.
  intros Hin. apply Hfresh. apply in_map_iff in Hin.
  destruct Hin as [y [E Hy]]. apply filter_In in Hy.
  apply in_map_iff. exists y. tauto.
Qed.

Lemma NoDup_members_zremrangebyscore lo hi (z : list (M * Z)) :
  NoDup (map fst z) -> NoDup (map fst (zremrangebyscore lo hi z)).
Proof. apply NoDup_map_filter. Qed.

Lemma NoDup_members_zadd m sc (z : list (M * Z)) :
  NoDup (map fst z) -> NoDup (map fst (zadd meqb mltb m sc z)).
Proof.
  intros H. unfold zadd.
  apply (Permutation_NoDup
           (l := map fst ((m, sc) :: zrem_member meqb m z))).
  - apply Permutation_map, Permutation_sym, zinsert_perm.
  - simpl. constructor.
    + intros Hin. apply in_map_iff in Hin. destruct Hin as [e [E He]].
      apply In_zrem_member in He. tauto.
    + now apply NoDup_map_filter.
Qed.
End Facts.

Local Open Scope Z_scope.

Lemma weight_sum_app {A} (w : A -> Z) (l l' : list A) :
  weight_sum w (l ++ l') = weight_sum w l + weight_sum w l'.
Proof.
  unfold weight_sum. induction l as [|y l IHl]; simpl; [reflexivity|].
  rewrite IHl. lia.
Qed.

Lemma weight_sum_nonneg {A} (w : A -> Z) (l : list A) :
  (forall x, In x l -> 0 <= w x) -> 0 <= weight_sum w l.
Proof.
  induction l as [|b l IH]; simpl; intros Hpos; [lia|].
  assert (0 <= w b) by (apply Hpos; now left).
  assert (0 <= weight_sum w l) by (apply IH; intros x Hx; apply Hpos; now right).
  lia.
Qed.

(** A duplicate-free selection of non-negative weights weighs no more
    than the whole. *)
Lemma weight_sum_NoDup_incl {A} (w : A -> Z) (l1 : list A) :
  forall l2, NoDup l1 -> incl l1 l2 ->
  (forall x, In x l2 -> 0 <= w x) ->
  weight_sum w l1 <= weight_sum w l2.
Proof.
  induction l1 as [|a l1 IH]; intros l2 Hnd Hincl Hpos.
  - simpl. now apply weight_sum_nonneg.
  - inversion Hnd as [|? ? Hn Hd]; subst.
    assert (Ha : In a l2) by (apply Hincl; now left).
    apply in_split in Ha. destruct Ha as [p [q ->]].
    assert (Hi : incl l1 (p ++ q)).
    { intros x Hx. assert (Hx2 : In x (p ++ a :: q)) by (apply Hincl; now right).
      apply in_app_or in Hx2. apply in_or_app.
      destruct Hx2 as [Hx2 | [Hx2 | Hx2]]; [now left | | now right].
      subst. contradiction. }
    assert (Hp : forall x, In x (p ++ q) -> 0 <= w x).
    { intros x Hx. apply Hpos. apply in_app_or in Hx. apply in_or_app.
      destruct Hx; [now left | right; now right]. }
    specialize (IH (p ++ q)%list Hd Hi Hp).
    rewrite weight_sum_app in *. simpl. lia.
Qed.

End ZSetFacts.

(** * Properties of the rate limiter *)

Module RateLimiterFacts.
Import Py ZSet ZSetFacts RateLimiter.
Local Open Scope Z_scope.

Lemma rpm_eqb_spec a b : rpm_eqb a b = true <-> a = b.
Proof. unfold rpm_eqb. apply Z.eqb_eq. Qed.

Lemma tpm_eqb_spec a b : tpm_eqb a b = true <-> a = b.
Proof.
  unfold tpm_eqb. destruct a as [a1 a2], b as [b1 b2]. simpl.
  rewrite andb_true_iff, !Z.eqb_eq. split.
  - intros [-> ->]. reflexivity.
  - intros E. injection E as -> ->. tauto.
Qed.

Lemma truthy_int_Some c : c <> 0 -> truthy_int (Some c) = true.
Proof. intros H. simpl. apply negb_true_iff, Z.eqb_neq. exact H. Qed.

(** Membership in the key as Redis still holds it. *)
Lemma live_entries {M} (now : Z) (k : key_state M) e :
  In e (entries (live now k)) -> In e (entries k).
Proof.
  unfold live. destruct (expire_at k) as [x|]; [|trivial].
  destruct (x <=? now); [intros []|trivial].
Qed.

Lemma live_keeps {M} (now : Z) (k : key_state M) x :
  expire_at k = Some x -> now < x -> live now k = k.
Proof.
  intros E H. unfold live. rewrite E.
  destruct (x <=? now) eqn:L; [lia|reflexivity].
Qed.

Lemma live_NoDup {M} (now : Z) (k : key_state M) :
  NoDup (map fst (entries k)) -> NoDup (map fst (entries (live now k))).
Proof.
  unfold live. destruct (expire_at k) as [x|]; [|trivial].
  destruct (x <=? now); [intros _; constructor|trivial].
Qed.

Lemma live_expire_at {M} (now : Z) (k : key_state M) x :
  expire_at k = Some x -> now < x -> expire_at (live now k) = Some x.
Proof. intros E H. now rewrite (live_keeps now k x E H). Qed.


Lemma window_count_app sec s G now :
  window_count sec s (G ++ [now]) =
  window_count sec s G + (if in_window sec s now then 1 else 0).
Proof.
  unfold window_count. rewrite filter_app, length_app. simpl.
  destruct (in_window sec s now); simpl; lia.
Qed.

Lemma rpm_inv_mono sec T T' G k :
  T <= T' -> rpm_inv sec T G k -> rpm_inv sec T' G k.
Proof.
  intros HT (H1 & H2 & H3). refine (conj _ (conj _ _)).
  - intros t Ht. specialize (H1 t Ht). lia.
  - intros t Ht Hw. apply (H2 t Ht); lia.
  - exact H3.
Qed.

(** The grants younger than sixty seconds survive expiry and pruning. *)
Lemma rpm_recent sec T G k now t :
  0 < sec -> rpm_inv sec T G k -> T < now ->
  In t G -> now < t + 60 * sec ->
  live now k = k /\
  In (t, t) (zremrangebyscore 0 (now - 60 * sec) (entries k)).
Proof.
  intros Hsec (H1 & H2 & H3) HT Ht Hw.
  destruct (H2 t Ht) as [Hin [x [Hx Hle]]]; [lia|].
  split.
  - apply (live_keeps now k x Hx). lia.
  - apply In_zremrangebyscore. split; [exact Hin|]. cbn [snd]. lia.
Qed.

Lemma acquire_request_step sec cfg cap T G st now :
  0 < sec -> rpm_limit cfg = Some cap -> 0 < cap ->
  rpm_inv sec T G (rpm_key st) -> T < now -> NoDup G ->
  (forall s, window_count sec s G <= cap) ->
  let r := acquire_request sec cfg now st in
  let G' := if fst (snd r) then (G ++ [now])%list else G in
  rpm_inv sec now G' (rpm_key (fst r)) /\ NoDup G' /\
  (forall s, window_count sec s G' <= cap).
Proof.
  intros Hsec Hcfg Hcap Hinv HT Hnd Hwin.
  unfold acquire_request. rewrite Hcfg.
  rewrite truthy_int_Some by lia. cbn [negb limit_of].
  set (k := live now (rpm_key st)).
  set (pruned := zremrangebyscore 0 (now - 60 * sec) (entries k)).
  assert (Hrecent : forall t, In t G -> now < t + 60 * sec ->
                    In (t, t) pruned /\ expire_at k = expire_at (rpm_key st)).
  { intros t Ht Hw.
    destruct (rpm_recent sec T G (rpm_key st) now t Hsec Hinv HT Ht Hw) as [E Hin].
    unfold pruned, k. rewrite E. split; [exact Hin|reflexivity]. }
  assert (Hndp : NoDup (map fst pruned)).
  { apply NoDup_members_zremrangebyscore, live_NoDup.
    now destruct Hinv as (_ & _ & H3). }
  destruct Hinv as (H1 & H2 & H3).
  destruct (zcard pruned <? cap) eqn:Hlt; cbn [fst snd].
  - (* granted *)
    apply Z.ltb_lt in Hlt.
    refine (conj (conj _ (conj _ _)) (conj _ _)).
    + intros t Ht. apply in_app_or in Ht. destruct Ht as [Ht | [<- | []]]; [|lia].
      specialize (H1 t Ht). lia.
    + intros t Ht Hw. split.
      * apply (In_zadd rpm_eqb rpm_ltb rpm_eqb_spec).
        apply in_app_or in Ht. destruct Ht as [Ht | [<- | []]]; [|now left].
        right. split; [now apply Hrecent|]. cbn [fst]. specialize (H1 t Ht). lia.
      * exists (now + 61 * sec). split; [reflexivity|].
        apply in_app_or in Ht. destruct Ht as [Ht | [<- | []]]; [|lia].
        specialize (H1 t Ht). lia.
    + now apply (NoDup_members_zadd rpm_eqb rpm_ltb rpm_eqb_spec).
    + apply NoDup_app; [exact Hnd | constructor; [intros []|constructor] |].
      intros t Ht [E | []]. specialize (H1 t Ht). lia.
    + intros s. rewrite window_count_app.
      destruct (in_window sec s now) eqn:Hw; [|specialize (Hwin s); lia].
      unfold in_window in Hw. apply andb_true_iff in Hw. destruct Hw as [Hs1 Hs2].
      assert (Hlen : (List.length (filter (in_window sec s) G)
                      <= List.length (map fst pruned))%nat).
      { apply NoDup_incl_length; [now apply NoDup_filter|].
        intros t Ht. apply filter_In in Ht. destruct Ht as [Ht Hwt].
        unfold in_window in Hwt. apply andb_true_iff in Hwt.
        apply in_map_iff. exists (t, t). split; [reflexivity|].
        apply Hrecent; [exact Ht|lia]. }
      rewrite length_map in Hlen. unfold window_count, zcard in *. lia.
  - (* denied *)
    refine (conj (conj _ (conj _ _)) (conj _ _)).
    + intros t Ht. specialize (H1 t Ht). lia.
    + intros t Ht Hw. split; [now apply Hrecent|].
      destruct (Hrecent t Ht Hw) as [_ E]. cbn [expire_at]. rewrite E.
      destruct (H2 t Ht) as [_ Hx]; [lia|exact Hx].
    + exact Hndp.
    + exact Hnd.
    + exact Hwin.
Qed.

Lemma acquire_tokens_rpm_key sec cfg n now st :
  rpm_key (fst (acquire_tokens sec cfg n now st)) = rpm_key st.
Proof.
  unfold acquire_tokens.
  repeat match goal with |- context [if ?b then _ else _] => destruct b end;
    reflexivity.
Qed.

Lemma acquire_request_tpm_key sec cfg now st :
  tpm_key (fst (acquire_request sec cfg now st)) = tpm_key st.
Proof.
  unfold acquire_request.
  repeat match goal with |- context [if ?b then _ else _] => destruct b end;
    reflexivity.
Qed.

Lemma run_rpm_bound sec cfg cap :
  0 < sec -> rpm_limit cfg = Some cap -> 0 < cap ->
  forall calls st T G,
    rpm_inv sec T G (rpm_key st) -> NoDup G ->
    (forall s, window_count sec s G <= cap) ->
    StronglySorted Z.lt (T :: map fst calls) ->
    forall s, window_count sec s (G ++ req_grants (run sec cfg st calls)) <= cap.
Proof.
  intros Hsec Hcfg Hcap.
  induction calls as [|[now c] rest IH]; intros st T G Hinv Hnd Hwin Hsorted s.
  - simpl. rewrite app_nil_r. apply Hwin.
  - simpl in Hsorted.
    inversion Hsorted as [|? ? Hs1 Hf1]; subst.
    inversion Hs1 as [|? ? Hs2 Hf2]; subst.
    inversion Hf1 as [|? ? HTnow _]; subst.
    simpl. destruct c as [|n].
    + pose proof (acquire_request_step sec cfg cap T G st now
                    Hsec Hcfg Hcap Hinv HTnow Hnd Hwin) as Hstep.
      cbv zeta in Hstep. simpl step.
      destruct (acquire_request sec cfg now st) as [st' [ok w]].
      cbn [fst snd] in Hstep. destruct Hstep as (Hinv' & Hnd' & Hwin').
      destruct ok; simpl.
      * replace (G ++ now :: req_grants (run sec cfg st' rest))%list
          with ((G ++ [now]) ++ req_grants (run sec cfg st' rest))%list
          by (rewrite <- app_assoc; reflexivity).
        apply (IH st' now); auto.
      * apply (IH st' now); auto.
    + simpl step.
      pose proof (acquire_tokens_rpm_key sec cfg n now st) as Hk.
      destruct (acquire_tokens sec cfg n now st) as [st' [ok w]].
      cbn [fst] in Hk.
      assert (Hgoal : window_count sec s (G ++ req_grants (run sec cfg st' rest))
                      <= cap).
      { apply (IH st' now); auto.
        rewrite Hk. apply (rpm_inv_mono sec T); [lia|exact Hinv]. }
      destruct ok; exact Hgoal.
Qed.

Lemma granted_requests_count sec s log :
  granted_requests sec s log = window_count sec s (req_grants log).
Proof.
  unfold window_count.
  induction log as [|[[t c] [ok w]] r IH]; [reflexivity|].
  destruct c as [|n]; destruct ok;
    cbn [granted_requests req_grants filter]; try exact IH.
  rewrite IH. destruct (in_window sec s t); cbn [List.length]; lia.
Qed.


(** *** Token reservations *)

Lemma sum_tokens_members (es : list (tpm_member * Z)) :
  sum_tokens es = weight_sum snd (map fst es).
Proof.
  unfold sum_tokens, weight_sum.
  induction es as [|e es IH]; simpl; [reflexivity|]. now rewrite IH.
Qed.

Lemma window_tokens_app sec s G now n :
  window_tokens sec s (G ++ [(now, n)]) =
  window_tokens sec s G + (if in_window sec s now then n else 0).
Proof.
  unfold window_tokens. rewrite filter_app, weight_sum_app.
  cbn [filter fst]. destruct (in_window sec s now); simpl; lia.
Qed.

Lemma live_Forall {M} (P : M * Z -> Prop) (now : Z) (k : key_state M) :
  Forall P (entries k) -> Forall P (entries (live now k)).
Proof.
  unfold live. destruct (expire_at k) as [x|]; [|trivial].
  destruct (x <=? now); [intros _; constructor|trivial].
Qed.

Lemma Forall_zremrangebyscore {M} (P : M * Z -> Prop) lo hi (z : list (M * Z)) :
  Forall P z -> Forall P (zremrangebyscore lo hi z).
Proof.
  intros H. apply Forall_forall. intros e He.
  apply In_zremrangebyscore in He. destruct He as [He _].
  revert e He. now apply Forall_forall.
Qed.

Lemma tpm_inv_mono sec T T' G k :
  T <= T' -> tpm_inv sec T G k -> tpm_inv sec T' G k.
Proof.
  intros HT (H1 & H2 & H3 & H4). refine (conj _ (conj _ (conj _ _))).
  - intros g Hg. specialize (H1 g Hg). lia.
  - intros g Hg Hw. apply (H2 g Hg); lia.
  - exact H3.
  - exact H4.
Qed.

Lemma tpm_recent sec T G k now g :
  0 < sec -> tpm_inv sec T G k -> T < now ->
  In g G -> now < fst g + 60 * sec ->
  live now k = k /\
  In (g, fst g) (zremrangebyscore 0 (now - 60 * sec) (entries k)).
Proof.
  intros Hsec (H1 & H2 & H3 & H4) HT Hg Hw.
  destruct (H2 g Hg) as [Hin [x [Hx Hle]]]; [lia|].
  split.
  - apply (live_keeps now k x Hx). lia.
  - apply In_zremrangebyscore. split; [exact Hin|]. cbn [snd]. lia.
Qed.

(** The tokens held by a window state of non-negative reservations. *)
Lemma pruned_tokens_nonneg sec now (k : key_state tpm_member) :
  Forall (fun e => 0 <= snd (fst e)) (entries k) ->
  0 <= sum_tokens (zremrangebyscore 0 (now - 60 * sec) (entries (live now k))).
Proof.
  intros H. rewrite sum_tokens_members. apply weight_sum_nonneg.
  intros x Hx. apply in_map_iff in Hx. destruct Hx as [e [<- He]].
  apply In_zremrangebyscore in He. destruct He as [He _].
  apply live_entries in He. revert e He. now apply Forall_forall.
Qed.

Lemma acquire_tokens_step sec cfg cap T G st now n :
  0 < sec -> tpm_limit cfg = Some cap -> 0 < cap -> 0 <= n ->
  tpm_inv sec T G (tpm_key st) -> T < now -> NoDup G ->
  (forall s, window_tokens sec s G <= cap) ->
  let r := acquire_tokens sec cfg n now st in
  let G' := if fst (snd r) then (G ++ [(now, n)])%list else G in
  tpm_inv sec now G' (tpm_key (fst r)) /\ NoDup G' /\
  (forall s, window_tokens sec s G' <= cap).
Proof.
  intros Hsec Hcfg Hcap Hn Hinv HT Hnd Hwin.
  unfold acquire_tokens. rewrite Hcfg.
  rewrite truthy_int_Some by lia. cbn [negb limit_of].
  set (k := live now (tpm_key st)).
  set (pruned := zremrangebyscore 0 (now - 60 * sec) (entries k)).
  assert (Hrecent : forall g, In g G -> now < fst g + 60 * sec ->
                    In (g, fst g) pruned /\ expire_at k = expire_at (tpm_key st)).
  { intros g Hg Hw.
    destruct (tpm_recent sec T G (tpm_key st) now g Hsec Hinv HT Hg Hw) as [E Hin].
    unfold pruned, k. rewrite E. split; [exact Hin|reflexivity]. }
  destruct Hinv as (H1 & H2 & H3 & H4).
  assert (Hndp : NoDup (map fst pruned)).
  { now apply NoDup_members_zremrangebyscore, live_NoDup. }
  assert (Hpos : Forall (fun e => 0 <= snd (fst e)) pruned).
  { now apply Forall_zremrangebyscore, live_Forall. }
  destruct (sum_tokens pruned + n <=? cap) eqn:Hle; cbn [fst snd].
  - (* granted *)
    apply Z.leb_le in Hle.
    refine (conj (conj _ (conj _ (conj _ _))) (conj _ _)).
    + intros g Hg. apply in_app_or in Hg. destruct Hg as [Hg | [<- | []]];
        [|cbn [fst]; lia].
      specialize (H1 g Hg). lia.
    + intros g Hg Hw. split.
      * apply (In_zadd tpm_eqb tpm_ltb tpm_eqb_spec).
        apply in_app_or in Hg. destruct Hg as [Hg | [<- | []]]; [|now left].
        right. split; [now apply Hrecent|]. cbn [fst].
        intros E. specialize (H1 g Hg). rewrite E in H1. cbn [fst] in H1. lia.
      * exists (now + 61 * sec). split; [reflexivity|].
        apply in_app_or in Hg. destruct Hg as [Hg | [<- | []]]; [|cbn [fst]; lia].
        specialize (H1 g Hg). lia.
    + now apply (NoDup_members_zadd tpm_eqb tpm_ltb tpm_eqb_spec).
    + apply Forall_forall. intros e He.
      apply (In_zadd tpm_eqb tpm_ltb tpm_eqb_spec) in He.
      destruct He as [-> | [He _]]; [exact Hn|].
      revert e He. now apply Forall_forall.
    + apply NoDup_app; [exact Hnd | constructor; [intros []|constructor] |].
      intros g Hg [E | []]. specialize (H1 g Hg). rewrite <- E in H1.
      cbn [fst] in H1. lia.
    + intros s. rewrite window_tokens_app.
      destruct (in_window sec s now) eqn:Hw; [|specialize (Hwin s); lia].
      unfold in_window in Hw. apply andb_true_iff in Hw. destruct Hw as [Hs1 Hs2].
      assert (Hsum : weight_sum snd (filter (fun g => in_window sec s (fst g)) G)
                     <= weight_sum snd (map fst pruned)).
      { apply weight_sum_NoDup_incl; [now apply NoDup_filter| |].
        - intros g Hg. apply filter_In in Hg. destruct Hg as [Hg Hwg].
          unfold in_window in Hwg. apply andb_true_iff in Hwg.
          apply in_map_iff. exists (g, fst g). split; [reflexivity|].
          apply Hrecent; [exact Hg|lia].
        - intros x Hx. apply in_map_iff in Hx. destruct Hx as [e [<- He]].
          revert e He. now apply Forall_forall. }
      rewrite <- sum_tokens_members in Hsum. unfold window_tokens. lia.
  - (* denied *)
    refine (conj (conj _ (conj _ (conj _ _))) (conj _ _)).
    + intros g Hg. specialize (H1 g Hg). lia.
    + intros g Hg Hw. split; [now apply Hrecent|].
      destruct (Hrecent g Hg Hw) as [_ E]. cbn [expire_at]. rewrite E.
      destruct (H2 g Hg) as [_ Hx]; [lia|exact Hx].
    + exact Hndp.
    + exact Hpos.
    + exact Hnd.
    + exact Hwin.
Qed.

Lemma run_tpm_bound sec cfg cap :
  0 < sec -> tpm_limit cfg = Some cap -> 0 < cap ->
  forall calls st T G,
    tpm_inv sec T G (tpm_key st) -> NoDup G ->
    (forall s, window_tokens sec s G <= cap) ->
    StronglySorted Z.lt (T :: map fst calls) ->
    Forall nonneg_call (map snd calls) ->
    forall s, window_tokens sec s (G ++ tok_grants (run sec cfg st calls)) <= cap.
Proof.
  intros Hsec Hcfg Hcap.
  induction calls as [|[now c] rest IH];
    intros st T G Hinv Hnd Hwin Hsorted Hnn s.
  - simpl. rewrite app_nil_r. apply Hwin.
  - simpl in Hsorted, Hnn.
    inversion Hsorted as [|? ? Hs1 Hf1]; subst.
    inversion Hs1 as [|? ? Hs2 Hf2]; subst.
    inversion Hf1 as [|? ? HTnow _]; subst.
    inversion Hnn as [|? ? Hc Hrest]; subst.
    simpl. destruct c as [|n].
    + simpl step.
      pose proof (acquire_request_tpm_key sec cfg now st) as Hk.
      destruct (acquire_request sec cfg now st) as [st' [ok w]].
      cbn [fst] in Hk.
      assert (Hgoal : window_tokens sec s (G ++ tok_grants (run sec cfg st' rest))
                      <= cap).
      { apply (IH st' now); auto.
        rewrite Hk. apply (tpm_inv_mono sec T); [lia|exact Hinv]. }
      destruct ok; exact Hgoal.
    + simpl in Hc.
      pose proof (acquire_tokens_step sec cfg cap T G st now n
                    Hsec Hcfg Hcap Hc Hinv HTnow Hnd Hwin) as Hstep.
      cbv zeta in Hstep. simpl step.
      destruct (acquire_tokens sec cfg n now st) as [st' [ok w]].
      cbn [fst snd] in Hstep. destruct Hstep as (Hinv' & Hnd' & Hwin').
      destruct ok; simpl.
      * replace (G ++ (now, n) :: tok_grants (run sec cfg st' rest))%list
          with ((G ++ [(now, n)]) ++ tok_grants (run sec cfg st' rest))%list
          by (rewrite <- app_assoc; reflexivity).
        apply (IH st' now); auto.
      * apply (IH st' now); auto.
Qed.

Lemma granted_tokens_sum sec s log :
  granted_tokens sec s log = window_tokens sec s (tok_grants log).
Proof.
  unfold window_tokens, weight_sum.
  induction log as [|[[t c] [ok w]] r IH]; [reflexivity|].
  destruct c as [|n]; destruct ok;
    cbn [granted_tokens tok_grants filter fst]; try exact IH.
  rewrite IH. destruct (in_window sec s t); cbn [fold_right snd]; lia.
Qed.

Lemma rpm_inv_empty sec T : rpm_inv sec T [] (rpm_key empty_state).
Proof.
  refine (conj _ (conj _ _)); [intros t [] | intros t [] | constructor].
Qed.

Lemma tpm_inv_empty sec T : tpm_inv sec T [] (tpm_key empty_state).
Proof.
  refine (conj _ (conj _ (conj _ _)));
    [intros t [] | intros t [] | constructor | constructor].
Qed.

Lemma sorted_from_below (ts : list Z) :
  StronglySorted Z.lt ts -> exists T, StronglySorted Z.lt (T :: ts).
Proof.
  intros H. destruct ts as [|t ts].
  - exists 0. constructor; constructor.
  - exists (t - 1). constructor; [exact H|].
    inversion H as [|? ? Hs Hf]; subst. constructor; [lia|].
    apply Forall_forall. intros x Hx.
    assert (t < x) by (revert x Hx; now apply Forall_forall). lia.
Qed.


(** C5 (as amended).  Over any sequence of [acquire_request] and
    [acquire_tokens] calls made one after the other at strictly
    increasing instants against an initially empty store, with
    non-negative token counts, and for every window [[s, s + 60s)]:
    when an RPM cap is configured the granted requests whose instant
    lies in the window number at most that cap, and when a TPM cap is
    configured the tokens granted in the window sum to at most that
    cap. *)
Theorem sliding_window_caps sec cfg calls s rpm tpm :
  0 < sec ->
  StronglySorted Z.lt (map fst calls) ->
  Forall nonneg_call (map snd calls) ->
  (rpm_limit cfg = Some rpm -> 0 < rpm ->
   granted_requests sec s (run sec cfg empty_state calls) <= rpm) /\
  (tpm_limit cfg = Some tpm -> 0 < tpm ->
   granted_tokens sec s (run sec cfg empty_state calls) <= tpm).
Proof.
  intros Hsec Hsorted Hnn.
  destruct (sorted_from_below _ Hsorted) as [T HT].
  split; intros Hcfg Hcap.
  - rewrite granted_requests_count.
    apply (run_rpm_bound sec cfg rpm Hsec Hcfg Hcap calls empty_state T []).
    + apply rpm_inv_empty.
    + constructor.
    + intros s'. unfold window_count. simpl. lia.
    + exact HT.
  - rewrite granted_tokens_sum.
    apply (run_tpm_bound sec cfg tpm Hsec Hcfg Hcap calls empty_state T []).
    + apply tpm_inv_empty.
    + constructor.
    + intros s'. unfold window_tokens. simpl. lia.
    + exact HT.
    + exact Hnn.
Qed.

(** The caps at a concrete run: millisecond ticks, two requests and a
    hundred tokens per minute. *)
Lemma sliding_window_caps_witness :
  granted_requests 1000 0
    (run 1000 (mkConfig (Some 2) (Some 100)) empty_state
       [(1000, AcquireRequest); (2000, AcquireTokens 60);
        (3000, AcquireRequest); (4000, AcquireRequest);
        (5000, AcquireTokens 50)]) <= 2
  /\
  granted_tokens 1000 0
    (run 1000 (mkConfig (Some 2) (Some 100)) empty_state
       [(1000, AcquireRequest); (2000, AcquireTokens 60);
        (3000, AcquireRequest); (4000, AcquireRequest);
        (5000, AcquireTokens 50)]) <= 100.
Proof.
  assert (H1 : 0 < 1000) by lia.
  assert (H2 : StronglySorted Z.lt
                 (map fst [(1000, AcquireRequest); (2000, AcquireTokens 60);
                           (3000, AcquireRequest); (4000, AcquireRequest);
                           (5000, AcquireTokens 50)])).
  { simpl. repeat (constructor; try lia). }
  assert (H3 : Forall nonneg_call
                 (map snd [(1000, AcquireRequest); (2000, AcquireTokens 60);
                           (3000, AcquireRequest); (4000, AcquireRequest);
                           (5000, AcquireTokens 50)])).
  { simpl. repeat constructor; simpl; lia. }
  destruct (sliding_window_caps 1000 (mkConfig (Some 2) (Some 100)) _ 0 2 100
              H1 H2 H3) as [A B].
  split; [apply A | apply B]; solve [reflexivity | lia].
Defined.

(** C5 as the specification words it, with a clock that is only
    monotone: three requests at one and the same instant all pass a cap
    of two, because the second [ZADD] re-adds the member of the first. *)
Lemma sliding_window_monotone_clock_counterexample :
  ~ (forall sec cfg calls s rpm tpm,
       0 < sec ->
       Sorted Z.le (map fst calls) ->
       Forall nonneg_call (map snd calls) ->
       (rpm_limit cfg = Some rpm -> 0 < rpm ->
        granted_requests sec s (run sec cfg empty_state calls) <= rpm) /\
       (tpm_limit cfg = Some tpm -> 0 < tpm ->
        granted_tokens sec s (run sec cfg empty_state calls) <= tpm)).
Proof.
  intros H.
  specialize (H 1000 (mkConfig (Some 2) None)
                [(5000, AcquireRequest); (5000, AcquireRequest);
                 (5000, AcquireRequest)] 5000 2 0).
  destruct H as [H _].
  - lia.
  - simpl. repeat (constructor; try lia).
  - simpl. repeat constructor.
  - specialize (H eq_refl ltac:(lia)). vm_compute in H. apply H. reflexivity.
Qed.

Example three_grants_at_one_instant :
  map (fun r => fst (snd r))
      (run 1000 (mkConfig (Some 2) None) empty_state
         [(5000, AcquireRequest); (5000, AcquireRequest);
          (5000, AcquireRequest)])
  = [true; true; true].
Proof. reflexivity. Qed.

(** *** Reservations above the cap *)

Lemma acquire_tokens_over_cap sec cfg cap n now st :
  tpm_limit cfg = Some cap -> cap <> 0 -> cap < n ->
  tokens_nonneg st ->
  fst (snd (acquire_tokens sec cfg n now st)) = false.
Proof.
  intros Hcfg Hcap Hn Hst.
  unfold acquire_tokens. rewrite Hcfg, truthy_int_Some by exact Hcap.
  cbn [negb limit_of].
  pose proof (pruned_tokens_nonneg sec now (tpm_key st) Hst) as Hpos.
  destruct (_ <=? cap) eqn:Hle; [|reflexivity].
  apply Z.leb_le in Hle. lia.
Qed.

Lemma acquire_tokens_nonneg sec cfg n now st :
  0 <= n -> tokens_nonneg st ->
  tokens_nonneg (fst (acquire_tokens sec cfg n now st)).
Proof.
  intros Hn Hst. unfold acquire_tokens, tokens_nonneg in *.
  destruct (negb (truthy_int (tpm_limit cfg))); [exact Hst|].
  assert (Hp : Forall (fun e => 0 <= snd (fst e))
                 (zremrangebyscore 0 (now - 60 * sec)
                    (entries (live now (tpm_key st))))).
  { now apply Forall_zremrangebyscore, live_Forall. }
  destruct (_ <=? _); cbn [fst tpm_key entries]; [|exact Hp].
  apply Forall_forall. intros e He.
  apply (In_zadd tpm_eqb tpm_ltb tpm_eqb_spec) in He.
  destruct He as [-> | [He _]]; [exact Hn|].
  revert e He. now apply Forall_forall.
Qed.

Lemma acquire_tokens_denied_nonneg sec cfg n now st :
  fst (snd (acquire_tokens sec cfg n now st)) = false ->
  tokens_nonneg st ->
  tokens_nonneg (fst (acquire_tokens sec cfg n now st)).
Proof.
  intros Hd Hst. unfold acquire_tokens, tokens_nonneg in *.
  destruct (negb (truthy_int (tpm_limit cfg))); [exact Hst|].
  destruct (_ <=? _); cbn [fst snd tpm_key entries] in *; [discriminate|].
  now apply Forall_zremrangebyscore, live_Forall.
Qed.

Lemma acquire_request_nonneg sec cfg now st :
  tokens_nonneg st -> tokens_nonneg (fst (acquire_request sec cfg now st)).
Proof.
  unfold tokens_nonneg. now rewrite acquire_request_tpm_key.
Qed.

(** Every state the limiter reaches from the empty store under
    non-negative reservations holds non-negative reservations only. *)
Lemma final_state_nonneg sec cfg calls :
  forall st, tokens_nonneg st -> Forall nonneg_call (map snd calls) ->
  tokens_nonneg (final_state sec cfg st calls).
Proof.
  induction calls as [|[now c] rest IH]; intros st Hst Hnn; [exact Hst|].
  simpl in Hnn. inversion Hnn as [|? ? Hc Hrest]; subst.
  simpl. apply IH; [|exact Hrest].
  destruct c as [|n]; simpl.
  - now apply acquire_request_nonneg.
  - now apply acquire_tokens_nonneg.
Qed.

End RateLimiterFacts.

(** * Properties of cancellation *)

Module DeletionFacts.
Import Py PyM Store Deletion.

Lemma id_in_selected (P : pipeline_job -> bool) (i : id) (l : list pipeline_job) :
  id_in i (map job_id (select_where P l))
  = existsb (fun j => (job_id j =? i)%nat && P j) l.
Proof.
  unfold id_in, select_where.
  induction l as [|j l IH]; [reflexivity|].
  cbn [filter existsb]. destruct (P j) eqn:HP.
  - cbn [map existsb]. rewrite IH, andb_true_r. f_equal. apply Nat.eqb_sym.
  - rewrite IH, andb_false_r. reflexivity.
Qed.

(** A primary key names one row. *)
Lemma job_id_unique (l : list pipeline_job) j j' :
  NoDup (map job_id l) -> In j l -> In j' l -> job_id j = job_id j' -> j = j'.
Proof.
  induction l as [|x l IH]; intros Hnd Hj Hj' E; [contradiction|].
  cbn [map] in Hnd. inversion Hnd as [|? ? Hx Hl]; subst.
  destruct Hj as [<- | Hj], Hj' as [<- | Hj']; auto.
  - exfalso. apply Hx. rewrite E. now apply in_map.
  - exfalso. apply Hx. rewrite <- E. now apply in_map.
Qed.

Lemma selected_iff (P : pipeline_job -> bool) (l : list pipeline_job) j :
  NoDup (map job_id l) -> In j l ->
  id_in (job_id j) (map job_id (select_where P l)) = P j.
Proof.
  intros Hnd Hj. rewrite id_in_selected.
  destruct (P j) eqn:HP.
  - apply existsb_exists. exists j. rewrite HP, Nat.eqb_refl. auto.
  - destruct (existsb _ l) eqn:E; [|reflexivity].
    apply existsb_exists in E. destruct E as [j' [Hj' H]].
    apply andb_true_iff in H. destruct H as [H1 H2].
    apply Nat.eqb_eq in H1.
    rewrite (job_id_unique l j' j Hnd Hj' Hj H1) in H2. congruence.
Qed.

Lemma existsb_ext_in {X} (f g : X -> bool) (l : list X) :
  (forall x, In x l -> f x = g x) -> existsb f l = existsb g l.
Proof.
  induction l as [|x l IH]; intros H; [reflexivity|].
  cbn [existsb]. rewrite (H x) by now left.
  rewrite IH; [reflexivity|]. intros y Hy. apply H. now right.
Qed.

Lemma active_not_terminal_job j : job_is_active j = negb (job_is_terminal j).
Proof. unfold job_is_active, job_is_terminal. now destruct (job_status_of j). Qed.

Lemma active_not_terminal_phase p :
  phase_is_active p = negb (phase_is_terminal p).
Proof.
  unfold phase_is_active, phase_is_terminal. now destruct (phase_status_of p).
Qed.

(** C6 (as amended).  Called for a document and an organisation,
    [cancel] rewrites exactly the non-terminal jobs of the document that
    carry this organisation to [cancelled] with [completed_at] the clock
    reading, and exactly the queued or processing phases of those jobs
    to [cancelled] with [completed_at] the clock reading and the message
    "Document was deleted"; every other row stays as it was: every job
    or phase already in a terminal status, every job of the document
    under another organisation and its phases, and all other tables. *)
Theorem cancel_marks_exactly now_jobs now_phases document_id org_id w :
  NoDup (map job_id (jobs w)) ->
  exists w',
    cancel_pipeline_jobs_for_document now_jobs now_phases document_id org_id w
    = (w', Ok (List.length (filter (to_cancel document_id org_id) (jobs w))))
    /\ jobs w' =
       map (fun j => if (job_document_id j =? document_id)%nat
                        && String.eqb (job_clerk_org_id j) org_id
                        && negb (job_is_terminal j)
                     then mkJob (job_id j) (job_document_id j)
                                (job_clerk_org_id j) (job_current_phase j)
                                JobCancelled (job_started_at j)
                                (Some now_jobs) (job_updated_at j)
                                (job_metadata j)
                     else j) (jobs w)
    /\ phases w' =
       map (fun p => if owned_by_cancelled w document_id org_id p
                        && negb (phase_is_terminal p)
                     then mkPhase (phase_id p) (phase_job_id p)
                                  (phase_label_of p) Cancelled
                                  (phase_input_location p)
                                  (phase_output_location p)
                                  (phase_retry_count p)
                                  (phase_parent_phase_id p)
                                  (phase_queued_at p) (phase_started_at p)
                                  (Some now_phases)
                                  (phase_expected_completion_at p)
                                  (phase_error_type p)
                                  (Some "Document was deleted")
                                  (phase_metadata p)
                     else p) (phases w)
    /\ (forall j, In j (jobs w) -> job_is_terminal j = true -> In j (jobs w'))
    /\ (forall j, In j (jobs w) -> job_clerk_org_id j <> org_id ->
                  In j (jobs w'))
    /\ (forall p, In p (phases w) -> phase_is_terminal p = true ->
                  In p (phases w'))
    /\ documents w' = documents w /\ chunks w' = chunks w
    /\ mappings w' = mappings w /\ queue w' = queue w
    /\ graph_calls w' = graph_calls w.
Proof.
  intros Hnd.
  set (P := fun j => (job_document_id j =? document_id)%nat
                     && String.eqb (job_clerk_org_id j) org_id
                     && job_is_active j).
  assert (HP : forall j, P j = to_cancel document_id org_id j).
  { intros j. unfold P, to_cancel. now rewrite active_not_terminal_job. }
  assert (Hsel : select_where P (jobs w)
                 = filter (to_cancel document_id org_id) (jobs w)).
  { unfold select_where. apply filter_ext. exact HP. }
  set (fj := fun j => if to_cancel document_id org_id j
                      then job_set_status now_jobs JobCancelled j else j).
  set (fp := fun p => if owned_by_cancelled w document_id org_id p
                         && negb (phase_is_terminal p)
                      then phase_set_cancelled now_phases "Document was deleted" p
                      else p).
  change (fun j => if (job_document_id j =? document_id)%nat
                      && String.eqb (job_clerk_org_id j) org_id
                      && negb (job_is_terminal j)
                   then mkJob (job_id j) (job_document_id j)
                              (job_clerk_org_id j) (job_current_phase j)
                              JobCancelled (job_started_at j)
                              (Some now_jobs) (job_updated_at j)
                              (job_metadata j)
                   else j) with fj.
  assert (Hjobs : update_where
                    (fun j => id_in (job_id j) (map job_id (select_where P (jobs w))))
                    (job_set_status now_jobs JobCancelled) (jobs w)
                  = map fj (jobs w)).
  { unfold update_where. apply map_ext_in. intros j Hj. unfold fj.
    rewrite (selected_iff P (jobs w) j Hnd Hj), (HP j). reflexivity. }
  assert (Hphases : update_where
                      (fun p => id_in (phase_job_id p)
                                      (map job_id (select_where P (jobs w)))
                                && phase_is_active p)
                      (phase_set_cancelled now_phases "Document was deleted")
                      (phases w)
                    = map fp (phases w)).
  { unfold update_where. apply map_ext. intros p. unfold fp.
    rewrite id_in_selected, active_not_terminal_phase.
    replace (existsb (fun j => (job_id j =? phase_job_id p)%nat && P j) (jobs w))
      with (owned_by_cancelled w document_id org_id p); [reflexivity|].
    unfold owned_by_cancelled. apply existsb_ext_in.
    intros j _. now rewrite (HP j). }
  assert (Hkeepj : forall j, In j (jobs w) -> job_is_terminal j = true ->
                             In j (map fj (jobs w))).
  { intros j Hj Ht. apply in_map_iff. exists j. split; [|exact Hj].
    unfold fj, to_cancel. rewrite Ht, andb_false_r. reflexivity. }
  assert (Hkeepo : forall j, In j (jobs w) -> job_clerk_org_id j <> org_id ->
                             In j (map fj (jobs w))).
  { intros j Hj Ho. apply in_map_iff. exists j. split; [|exact Hj].
    unfold fj, to_cancel. apply String.eqb_neq in Ho.
    rewrite Ho, andb_false_r. reflexivity. }
  assert (Hkeepp : forall p, In p (phases w) -> phase_is_terminal p = true ->
                             In p (map fp (phases w))).
  { intros p Hp Ht. apply in_map_iff. exists p. split; [|exact Hp].
    unfold fp. rewrite Ht, andb_false_r. reflexivity. }
  unfold cancel_pipeline_jobs_for_document, try_except, bind, get.
  fold P.
  destruct (select_where P (jobs w)) as [|j0 rest] eqn:Esel.
  - (* nothing to cancel *)
    exists w. rewrite <- Hsel.
    assert (Hnone : forall j, In j (jobs w)
                              -> to_cancel document_id org_id j = false).
    { intros j Hj. rewrite <- (HP j).
      destruct (P j) eqn:E; [|reflexivity].
      assert (In j (select_where P (jobs w))) by (apply filter_In; auto).
      rewrite Esel in H. contradiction. }
    split; [reflexivity|]. split; [|split; [|split; [|split; [|split]]]].
    + rewrite <- (List.map_id (jobs w)) at 1. apply map_ext_in. intros j Hj.
      unfold fj. now rewrite (Hnone j Hj).
    + rewrite <- (List.map_id (phases w)) at 1. apply map_ext. intros p.
      replace (owned_by_cancelled w document_id org_id p) with false;
        [reflexivity|].
      symmetry. unfold owned_by_cancelled.
      destruct (existsb _ (jobs w)) eqn:E; [|reflexivity].
      apply existsb_exists in E. destruct E as [j [Hj H]].
      apply andb_true_iff in H. destruct H as [_ H].
      rewrite (Hnone j Hj) in H. discriminate.
    + auto.
    + auto.
    + auto.
    + repeat split; reflexivity.
  - (* some jobs to cancel *)
    exists (mkWorld (map fj (jobs w)) (map fp (phases w)) (documents w)
                    (chunks w) (mappings w) (next_id w) (objects w) (queue w)
                    (graph_calls w)).
    split; [|split; [|split; [|split; [|split; [|split]]]]].
    + unfold modify, ret, with_phases, with_jobs.
      cbn [jobs phases documents chunks mappings next_id objects queue
           graph_calls].
      rewrite Hjobs, Hphases, length_map, Hsel. reflexivity.
    + reflexivity.
    + reflexivity.
    + exact Hkeepj.
    + exact Hkeepo.
    + exact Hkeepp.
    + repeat split; reflexivity.
Qed.

(** A document with a processing and a completed job of one
    organisation, the first with a skipped and a processing phase, and
    a processing job of another organisation. *)
Lemma cancel_marks_exactly_witness :
  exists w',
    cancel_pipeline_jobs_for_document 100%Z 101%Z 7 "org_a"
      (mkWorld
         [mkJob 1 7 "org_a" Extraction JobProcessing (Some 10%Z) None None [];
          mkJob 2 7 "org_a" PipelineDone JobCompleted (Some 5%Z)
                (Some 9%Z) None [];
          mkJob 3 7 "org_b" Extraction JobProcessing (Some 10%Z) None None []]
         [mkPhase 11 1 Ingestion Skipped None None 0 None (Some 10%Z) None
                  (Some 10%Z) None None None [];
          mkPhase 12 1 Extraction Processing (Some "raw_documents/7.pdf")
                  None 0 None None (Some 11%Z) None (Some 3000%Z)
                  None None [];
          mkPhase 13 3 Extraction Processing (Some "raw_documents/7.pdf")
                  None 0 None None (Some 11%Z) None (Some 3000%Z)
                  None None []]
         [] [] [] 20 [] [] [])
    = (w', Ok 1%nat)
    /\ map job_status_of (jobs w')
       = [JobCancelled; JobCompleted; JobProcessing]
    /\ map phase_status_of (phases w') = [Skipped; Cancelled; Processing].
Proof.
  destruct (cancel_marks_exactly 100%Z 101%Z 7 "org_a"
              (mkWorld
                 [mkJob 1 7 "org_a" Extraction JobProcessing (Some 10%Z) None None [];
                  mkJob 2 7 "org_a" PipelineDone JobCompleted (Some 5%Z)
                        (Some 9%Z) None [];
                  mkJob 3 7 "org_b" Extraction JobProcessing (Some 10%Z) None
                        None []]
                 [mkPhase 11 1 Ingestion Skipped None None 0 None (Some 10%Z) None
                          (Some 10%Z) None None None [];
                  mkPhase 12 1 Extraction Processing (Some "raw_documents/7.pdf")
                          None 0 None None (Some 11%Z) None (Some 3000%Z)
                          None None [];
                  mkPhase 13 3 Extraction Processing (Some "raw_documents/7.pdf")
                          None 0 None None (Some 11%Z) None (Some 3000%Z)
                          None None []]
                 [] [] [] 20 [] [] []))
    as (w' & E & Hj & Hp & _).
  - cbn. repeat constructor; cbn; intuition discriminate.
  - exists w'. split; [exact E|]. rewrite Hj, Hp. split; reflexivity.
Defined.

(** C6 as the specification words it reaches every non-terminal job of
    the document.  The query also filters on the organisation passed by
    the caller: a processing job of the document that carries another
    organisation, and its processing phase, are left as they are. *)
Lemma cancel_other_organisation_counterexample :
  let w := mkWorld
             [mkJob 1 7 "org_b" Extraction JobProcessing (Some 10%Z) None
                    None []]
             [mkPhase 12 1 Extraction Processing (Some "raw_documents/7.pdf")
                      None 0 None None (Some 11%Z) None (Some 3000%Z)
                      None None []]
             [] [] [] 20 [] [] [] in
  cancel_pipeline_jobs_for_document 100%Z 101%Z 7 "org_a" w = (w, Ok 0%nat)
  /\ map job_document_id (jobs w) = [7]
  /\ map job_is_terminal (jobs w) = [false]
  /\ map phase_status_of (phases w) = [Processing].
Proof. cbv zeta. repeat split. Qed.

End DeletionFacts.

(** * Properties of the chunker *)

Module ChunkingFacts.
Import Py PyM Chunking.
Local Open Scope Z_scope.

Lemma nonempty_length s : (0 < String.length s)%nat -> nonempty s = true.
Proof. destruct s; simpl; [lia|reflexivity]. Qed.

(** C7 (as amended).  When the stripped text estimates to at least one
    token and to fewer than the chunk budget, and a non-empty title is
    supplied, [chunk_document] leaves the world as it found it (no
    request to the provider, no reservation) and returns exactly one
    chunk: the stripped text, the title as context, index 0, span
    [[0, len)], and the estimate as token count. *)
Theorem chunk_document_short sec svc env fuel text title w :
  0 < _estimate_tokens (strip text) < chunk_size svc ->
  title <> "" ->
  chunk_document sec svc env fuel text (Some title) w =
  (w, Ok [mkChunk (strip text) title 0 0 (len (strip text))
                  (_estimate_tokens (strip text))]).
Proof.
  intros [Hpos Hlt] Htitle.
  unfold chunk_document, _estimate_tokens in *.
  assert (Hlen : 4 <= len (strip text)).
  { destruct (Z.le_gt_cases 4 (len (strip text))) as [H|H]; [exact H|].
    rewrite Z.div_small in Hpos; [lia|]. unfold len in *. lia. }
  rewrite nonempty_length by (unfold len in Hlen; lia).
  cbn [negb].
  destruct (len (strip text) / 4 <? chunk_size svc) eqn:E;
    [|apply Z.ltb_ge in E; lia].
  unfold truthy_str. destruct (String.eqb title "") eqn:Et.
  - apply String.eqb_eq in Et. contradiction.
  - cbn [negb]. unfold Chunk_new, Chunk_valid. cbn [chunk_index char_start char_end token_count].
    replace (0 <=? 0) with true by reflexivity.
    replace (0 <? len (strip text)) with true by (symmetry; apply Z.ltb_lt; lia).
    replace (0 <? len (strip text) / 4) with true by (symmetry; apply Z.ltb_lt; lia).
    reflexivity.
Qed.

(** The short path at the production budget of 800 tokens. *)
Lemma chunk_document_short_witness :
  let svc := get_chunking_service 2 100000 in
  let env := mkEnv (fun _ _ _ => LLMText "unused") (fun _ => 0)
                   (fun _ st => st) (fun _ => 1000) in
  let w := mkWorld RateLimiter.empty_state 0 0 [] in
  chunk_document 1000 svc env 0 "  A short note.  " (Some "note.txt") w =
  (w, Ok [mkChunk "A short note." "note.txt" 0 0 13 3]).
Proof.
  cbv zeta.
  apply (chunk_document_short 1000 (get_chunking_service 2 100000)
           _ 0 "  A short note.  " "note.txt").
  - vm_compute. split; reflexivity.
  - discriminate.
Defined.

(** C7 as the specification words it fails on texts of one to three
    characters: their estimate is zero tokens, which the [Chunk] model
    refuses. *)
Lemma chunk_document_tiny_text_counterexample :
  ~ (forall sec env fuel text title w,
       text <> "" ->
       _estimate_tokens (strip text) < 800 ->
       exists c,
         chunk_document sec (get_chunking_service 2 100000) env fuel text
                        (Some title) w = (w, Ok [c])
         /\ context c = title
         /\ token_count c = _estimate_tokens (strip text)
         /\ chunk_index c = 0
         /\ char_start c = 0 /\ char_end c = len (strip text)).
Proof.
  intros H.
  destruct (H 1000
              (mkEnv (fun _ _ _ => LLMText "unused") (fun _ => 0)
                     (fun _ st => st) (fun _ => 1000))
              0%nat "abc" "note.txt"
              (mkWorld RateLimiter.empty_state 0 0 []))
    as [c [E _]].
  - discriminate.
  - vm_compute. reflexivity.
  - vm_compute in E. discriminate E.
Qed.

Example chunk_document_abc :
  snd (chunk_document 1000 (get_chunking_service 2 100000)
         (mkEnv (fun _ _ _ => LLMText "unused") (fun _ => 0)
                (fun _ st => st) (fun _ => 1000))
         0 "abc" (Some "note.txt")
         (mkWorld RateLimiter.empty_state 0 0 []))
  = Raise (pydantic_ValidationError "validation errors for Chunk").
Proof. reflexivity. Qed.

Example chunk_document_blank :
  snd (chunk_document 1000 (get_chunking_service 2 100000)
         (mkEnv (fun _ _ _ => LLMText "unused") (fun _ => 0)
                (fun _ st => st) (fun _ => 1000))
         0 "   " (Some "note.txt")
         (mkWorld RateLimiter.empty_state 0 0 []))
  = Raise (builtin_error "ValueError" "Document text is empty").
Proof. reflexivity. Qed.

Example chunk_document_untitled :
  snd (chunk_document 1000 (get_chunking_service 2 100000)
         (mkEnv (fun _ _ _ => LLMText "unused") (fun _ => 0)
                (fun _ st => st) (fun _ => 1000))
         0 "A short note." None
         (mkWorld RateLimiter.empty_state 0 0 []))
  = Ok [mkChunk "A short note." "Short document" 0 0 13 3].
Proof. reflexivity. Qed.


(** *** The wave loop *)

Section Loop.
Variable sec : Z.
Variable svc : service.
Variable env : environment.

Lemma wave_attempts_app tr e :
  wave_attempts (tr ++ [e]) =
  (wave_attempts tr + match e with WaveAttempt _ => 1 | _ => 0 end)%nat.
Proof.
  induction tr as [|x tr IH]; simpl.
  - destruct e; reflexivity.
  - destruct x; simpl; rewrite IH; reflexivity.
Qed.

Lemma quiet_ret {A} (a : A) : quiet (ret a).
Proof. intros w w' r H. injection H as <- <-. split; [discriminate|reflexivity]. Qed.

Lemma quiet_raise {A} e : quiet (@raise world A e).
Proof. intros w w' r H. injection H as <- <-. split; [discriminate|reflexivity]. Qed.

Lemma quiet_bind {A B} (c : M world A) (k : A -> M world B) :
  quiet c -> (forall a, quiet (k a)) -> quiet (bind c k).
Proof.
  intros Hc Hk w w' r H. unfold bind in H.
  destruct (c w) as [w1 [a|e|]] eqn:E.
  - destruct (Hc _ _ _ E) as [_ H1].
    destruct (Hk a _ _ _ H) as [H2 H3]. split; [exact H2|congruence].
  - injection H as <- <-. destruct (Hc _ _ _ E) as [_ H1].
    split; [discriminate|exact H1].
  - destruct (Hc _ _ _ E) as [H1 _]. congruence.
Qed.

Lemma quiet_sleep t : quiet (sleep t).
Proof.
  intros w w' r H. unfold sleep, log, modify in H. injection H as <- <-.
  split; [discriminate|]. cbn [trace]. rewrite wave_attempts_app. lia.
Qed.

Lemma quiet_when b (c : M world unit) : quiet c -> quiet (when b c).
Proof. destruct b; simpl; [trivial|intros _; apply quiet_ret]. Qed.

Lemma quiet_acquire_tokens n : quiet (acquire_tokens sec svc env n).
Proof.
  intros w w' r H. unfold acquire_tokens in H.
  destruct (RateLimiter.acquire_tokens _ _ _ _ _) as [st x].
  injection H as <- <-. split; [discriminate|reflexivity].
Qed.

Lemma quiet_messages_create b s u c : quiet (messages_create env b s u c).
Proof.
  intros w w' r H. unfold messages_create in H.
  destruct (llm env _ _ _); injection H as <- <-;
    (split; [discriminate|]); cbn [trace]; rewrite wave_attempts_app; lia.
Qed.

Lemma quiet_reserve n remaining :
  forall attempts, quiet (reserve sec svc env n remaining attempts).
Proof.
  induction remaining as [|k IH]; intros attempts; simpl.
  - apply quiet_ret.
  - apply quiet_bind; [apply quiet_acquire_tokens|].
    intros [can wait]. destruct can; [apply quiet_ret|].
    apply quiet_bind.
    + intros w w' r H. injection H as <- <-. split; [discriminate|reflexivity].
    + intros j. apply quiet_bind; [apply quiet_sleep|]. intros _. apply IH.
Qed.

Lemma quiet_generate_chunk_context d c t b :
  quiet (_generate_chunk_context sec svc env d c t b).
Proof.
  unfold _generate_chunk_context. apply quiet_bind; [apply quiet_reserve|].
  intros a. destruct (_ <=? _)%nat; [apply quiet_raise|apply quiet_messages_create].
Qed.

Lemma quiet_gather_wave d t batch :
  forall i, quiet (gather_wave sec svc env d t i batch).
Proof.
  induction batch as [|c r IH]; intros i; simpl.
  - apply quiet_ret.
  - apply quiet_bind; [apply quiet_when, quiet_sleep|]. intros _.
    apply quiet_bind; [apply quiet_generate_chunk_context|]. intros x.
    apply quiet_bind; [apply IH|]. intros xs. apply quiet_ret.
Qed.

Hypothesis batch_size_pos : 0 < max_concurrent_requests svc.

Lemma waves_left_pos n bs : bs < n -> 1 <= waves_left svc n bs.
Proof.
  intros H. unfold waves_left.
  destruct (bs <? n) eqn:E; [|apply Z.ltb_ge in E; lia].
  apply Z.div_le_lower_bound; lia.
Qed.

Lemma waves_left_step n bs :
  bs + max_concurrent_requests svc < n ->
  waves_left svc n (bs + max_concurrent_requests svc)
  = waves_left svc n bs - 1.
Proof.
  intros H. unfold waves_left.
  destruct (bs + _ <? n) eqn:E1; [|apply Z.ltb_ge in E1; lia].
  destruct (bs <? n) eqn:E2; [|apply Z.ltb_ge in E2; lia].
  replace (n - bs + max_concurrent_requests svc - 1)
    with ((n - (bs + max_concurrent_requests svc)
           + max_concurrent_requests svc - 1)
          + 1 * max_concurrent_requests svc) by lia.
  rewrite Z.div_add by lia. lia.
Qed.

Lemma passes_left_next n bs retries :
  bs < n -> (retries <= 10)%nat ->
  passes_left svc n (Z.min (bs + max_concurrent_requests svc) n) 0
  <= passes_left svc n bs retries - 1.
Proof.
  intros H Hr. unfold passes_left.
  destruct (bs <? n) eqn:E2; [|apply Z.ltb_ge in E2; lia].
  destruct (Z.min _ _ <? n) eqn:E1.
  - apply Z.ltb_lt in E1.
    replace (Z.min (bs + max_concurrent_requests svc) n)
      with (bs + max_concurrent_requests svc) by lia.
    rewrite waves_left_step by lia. lia.
  - pose proof (waves_left_pos n bs H). lia.
Qed.

Lemma wave_loop_bound d t remaining :
  forall fuel bs retries ctxs w,
    (retries <= 10)%nat ->
    passes_left svc (Z.of_nat (List.length remaining)) bs retries
    <= Z.of_nat fuel ->
    exists w' r,
      wave_loop sec svc env fuel d t remaining bs retries ctxs w = (w', r)
      /\ r <> Diverge
      /\ Z.of_nat (wave_attempts (trace w'))
         <= Z.of_nat (wave_attempts (trace w))
            + passes_left svc (Z.of_nat (List.length remaining)) bs retries.
Proof.
  set (n := Z.of_nat (List.length remaining)).
  induction fuel as [|fuel IH]; intros bs retries ctxs w Hr Hfuel.
  - unfold passes_left in *. simpl. fold n.
    destruct (bs <? n) eqn:E.
    + apply Z.ltb_lt in E. pose proof (waves_left_pos n bs E). lia.
    + cbn [negb]. exists w, (Ok ctxs).
      split; [reflexivity|]. split; [discriminate|lia].
  - cbn [wave_loop]. fold n.
    destruct (bs <? n) eqn:E.
    2:{ cbn [negb]. exists w, (Ok ctxs). unfold passes_left. rewrite E.
        split; [reflexivity|]. split; [discriminate|lia]. }
    cbn [negb]. apply Z.ltb_lt in E.
    destruct (max_concurrent_requests svc =? 0) eqn:E0;
      [apply Z.eqb_eq in E0; lia|].
    assert (Hpl : 1 <= passes_left svc n bs retries).
    { unfold passes_left. destruct (bs <? n) eqn:E'; [|apply Z.ltb_ge in E'; lia].
      pose proof (waves_left_pos n bs E). lia. }
    unfold bind at 1. unfold log at 1, modify.
    set (w1 := mkWorld (redis w) (limiter_calls w) (llm_calls w)
                       (trace w ++ [WaveAttempt bs])).
    assert (Hw1 : wave_attempts (trace w1) = S (wave_attempts (trace w))).
    { unfold w1. cbn [trace]. rewrite wave_attempts_app. lia. }
    set (batch_end := Z.min (bs + max_concurrent_requests svc) n).
    set (batch := py_slice remaining bs batch_end).
    unfold bind at 1. unfold catch_rate_limit.
    assert (Hq : quiet (bind (gather_wave sec svc env d t 0 batch)
                          (fun batch_contexts =>
                             bind (when (batch_end <? n)
                                        (sleep (batch_delay * sec)))
                                  (fun _ => ret batch_contexts)))).
    { apply quiet_bind; [apply quiet_gather_wave|]. intros bc.
      apply quiet_bind; [apply quiet_when, quiet_sleep|]. intros _.
      apply quiet_ret. }
    destruct (bind (gather_wave sec svc env d t 0 batch) _ w1)
      as [w2 r2] eqn:G.
    destruct (Hq _ _ _ G) as [Hnd Htr].
    destruct r2 as [bc|e|]; [| |congruence].
    + (* the wave succeeded *)
      destruct (IH batch_end 0%nat (ctxs ++ bc)%list w2) as (w' & r & H1 & H2 & H3).
      * lia.
      * pose proof (passes_left_next n bs retries E Hr). fold batch_end in H. lia.
      * exists w', r. split; [exact H1|]. split; [exact H2|].
        pose proof (passes_left_next n bs retries E Hr). fold batch_end in H.
        lia.
    + destruct (is_AnthropicRateLimitError e) eqn:Erl.
      * (* rate limited *)
        destruct (max_rate_limit_retries <? S retries)%nat eqn:Ecap.
        -- exists w2, (Raise e). split; [reflexivity|].
           split; [discriminate|lia].
        -- apply Nat.ltb_ge in Ecap. unfold max_rate_limit_retries in Ecap.
           unfold bind at 1. unfold sleep at 1, log, modify.
           set (w3 := mkWorld (redis w2) (limiter_calls w2) (llm_calls w2)
                              (trace w2 ++ [Sleep (wave_pause e * sec)])).
           assert (Hw3 : wave_attempts (trace w3) = wave_attempts (trace w2)).
           { unfold w3. cbn [trace]. rewrite wave_attempts_app. lia. }
           destruct (IH bs (S retries) ctxs w3) as (w' & r & H1 & H2 & H3).
           ++ lia.
           ++ unfold passes_left in *.
              destruct (bs <? n); lia.
           ++ exists w', r. split; [exact H1|]. split; [exact H2|].
              unfold passes_left in *. destruct (bs <? n); lia.
      * exists w2, (Raise e). split; [reflexivity|].
        split; [discriminate|lia].
Qed.

Lemma passes_left_total remaining :
  passes_left svc (Z.of_nat (List.length remaining)) 0 0
  = 11 * total_batches svc remaining.
Proof.
  unfold passes_left, waves_left, total_batches.
  destruct (0 <? Z.of_nat (List.length remaining)) eqn:E.
  - replace (Z.of_nat (List.length remaining) - 0
             + max_concurrent_requests svc - 1)
      with (Z.of_nat (List.length remaining)
            + max_concurrent_requests svc - 1) by lia.
    change (Z.of_nat 0) with 0. lia.
  - apply Z.ltb_ge in E.
    assert (Z.of_nat (List.length remaining) = 0) as -> by lia.
    rewrite Z.div_small; lia.
Qed.

(** One pass of the loop, by what the wave did. *)
Lemma wave_pass d t remaining fuel bs retries ctxs w :
  let n := Z.of_nat (List.length remaining) in
  let batch_end := Z.min (bs + max_concurrent_requests svc) n in
  let batch := py_slice remaining bs batch_end in
  let w1 := fst (log (WaveAttempt bs) w) in
  bs < n ->
  forall w2 r2,
    gather_wave sec svc env d t 0 batch w1 = (w2, r2) ->
    wave_loop sec svc env (S fuel) d t remaining bs retries ctxs w =
    match r2 with
    | Ok batch_contexts =>
        wave_loop sec svc env fuel d t remaining batch_end 0
                  (ctxs ++ batch_contexts)%list
                  (fst (when (batch_end <? n) (sleep (batch_delay * sec)) w2))
    | Raise e =>
        if is_AnthropicRateLimitError e then
          if (10 <=? retries)%nat then (w2, Raise e)
          else wave_loop sec svc env fuel d t remaining bs (S retries) ctxs
                         (fst (sleep (wave_pause e * sec) w2))
        else (w2, Raise e)
    | Diverge => (w2, Diverge)
    end.
Proof.
  intros n batch_end batch w1 Hbs w2 r2 G.
  cbn [wave_loop]. fold n. fold batch_end. fold batch.
  destruct (bs <? n) eqn:E; [|apply Z.ltb_ge in E; lia].
  cbn [negb].
  destruct (max_concurrent_requests svc =? 0) eqn:E0;
    [apply Z.eqb_eq in E0; lia|].
  unfold bind at 1. unfold log at 1, modify.
  change (mkWorld (redis w) (limiter_calls w) (llm_calls w)
                  (trace w ++ [WaveAttempt bs])) with w1.
  unfold bind at 1. unfold catch_rate_limit.
  unfold bind at 1. rewrite G.
  destruct r2 as [bc|e|]; [| |reflexivity].
  - unfold bind at 1.
    destruct (batch_end <? n); reflexivity.
  - destruct (is_AnthropicRateLimitError e); [|reflexivity].
    unfold max_rate_limit_retries.
    replace (10 <? S retries)%nat with (10 <=? retries)%nat
      by (destruct (10 <=? retries)%nat eqn:A, (10 <? S retries)%nat eqn:B;
          try reflexivity;
          [apply Nat.leb_le in A; apply Nat.ltb_ge in B
          |apply Nat.leb_gt in A; apply Nat.ltb_lt in B]; lia).
    destruct (10 <=? retries)%nat; reflexivity.
Qed.
End Loop.

Lemma rate_limit_error_retryable e :
  is_AnthropicRateLimitError e = true ->
  RetryPolicy.is_retryable_error e None = true.
Proof.
  unfold is_AnthropicRateLimitError. intros H.
  apply andb_true_iff in H. destruct H as [H _].
  apply String.eqb_eq in H.
  rewrite RetryPolicyFacts.is_retryable_error_decided, H. reflexivity.
Qed.

(** *** A wave size below zero *)

(** [l[bs : bs - 1]] of a one-element list is empty from [bs = 0]
    downwards. *)
Lemma py_slice_backwards {A} (x : A) bs :
  bs <= 0 -> py_slice [x] bs (bs - 1) = [].
Proof.
  intros H. unfold py_slice, slice_index. cbn [List.length].
  destruct (bs <? 0) eqn:E1; destruct (bs - 1 <? 0) eqn:E2;
    try (apply Z.ltb_ge in E2; lia).
  - replace (Z.to_nat (Z.max 0 (Z.of_nat 1 + (bs - 1)))
             - Z.to_nat (Z.max 0 (Z.of_nat 1 + bs)))%nat with 0%nat by lia.
    reflexivity.
  - apply Z.ltb_ge in E1.
    replace (Z.to_nat (Z.max 0 (Z.of_nat 1 + (bs - 1)))
             - Z.to_nat (Z.min bs (Z.of_nat 1)))%nat with 0%nat by lia.
    reflexivity.
Qed.

(** With waves of size -1 every pass takes an empty wave, pauses and
    steps [batch_start] one further below the length: no number of
    passes ends the loop. *)
Lemma wave_loop_backwards sec env tpm d t x :
  forall fuel bs acc w,
    bs <= 0 ->
    snd (wave_loop sec (get_chunking_service (-1) tpm) env fuel d t [x] bs 0
                   acc w) = Diverge.
Proof.
  induction fuel as [|fuel IH]; intros bs acc w Hbs.
  - cbn [wave_loop List.length].
    replace (bs <? Z.of_nat 1) with true by (symmetry; apply Z.ltb_lt; lia).
    reflexivity.
  - cbn [wave_loop List.length].
    replace (bs <? Z.of_nat 1) with true by (symmetry; apply Z.ltb_lt; lia).
    cbn [negb get_chunking_service max_concurrent_requests].
    replace (Z.min (bs + -1) (Z.of_nat 1)) with (bs - 1) by lia.
    rewrite py_slice_backwards by exact Hbs.
    cbn [Z.eqb gather_wave].
    replace (bs - 1 <? Z.of_nat 1) with true by (symmetry; apply Z.ltb_lt; lia).
    unfold bind at 1. unfold log at 1, modify at 1.
    unfold bind at 1. unfold catch_rate_limit at 1.
    unfold bind at 1. unfold ret at 1. unfold bind at 1.
    unfold when, sleep, log, modify. unfold ret at 1.
    apply IH. lia.
Qed.

(** C8 (as amended).  With a positive wave size
    ([CHUNKING_MAX_CONCURRENT] above zero) the wave loop always
    terminates.  A pass whose wave meets a 429 logs a pause of the
    error's [retry_after] seconds (60 when it is absent) and runs the
    same wave again with the retry counter one higher; a pass whose wave
    succeeds moves to the next wave with the counter back at zero; the
    eleventh consecutive 429 on a wave is raised again, and the retry
    policy classifies it as retryable.  Hence any fuel of at least
    eleven passes per wave suffices, and the loop makes at most eleven
    passes per wave. *)
Theorem wave_loop_terminates sec svc env d t remaining ctxs :
  0 < max_concurrent_requests svc ->
  let n := Z.of_nat (List.length remaining) in
  let waves := total_batches svc remaining in
  (* a pass, by the outcome of its wave *)
  (forall fuel bs retries acc w w2 r2,
      bs < n ->
      gather_wave sec svc env d t 0
        (py_slice remaining bs (Z.min (bs + max_concurrent_requests svc) n))
        (fst (log (WaveAttempt bs) w)) = (w2, r2) ->
      match r2 with
      | Raise e =>
          is_AnthropicRateLimitError e = true ->
          ((retries < 10)%nat ->
           wave_loop sec svc env (S fuel) d t remaining bs retries acc w =
           wave_loop sec svc env fuel d t remaining bs (S retries) acc
                     (fst (sleep (wave_pause e * sec) w2)))
          /\ ((10 <= retries)%nat ->
              wave_loop sec svc env (S fuel) d t remaining bs retries acc w =
              (w2, Raise e)
              /\ RetryPolicy.is_retryable_error e None = true)
      | Ok batch_contexts =>
          wave_loop sec svc env (S fuel) d t remaining bs retries acc w =
          wave_loop sec svc env fuel d t remaining
                    (Z.min (bs + max_concurrent_requests svc) n) 0
                    (acc ++ batch_contexts)%list
                    (fst (when (Z.min (bs + max_concurrent_requests svc) n <? n)
                               (sleep (batch_delay * sec)) w2))
      | Diverge => False
      end) /\
  (* the pause *)
  (forall e, wave_pause e =
             match err_retry_after e with
             | Some k => if k =? 0 then 60 else k
             | None => 60
             end) /\
  (* termination within eleven passes per wave *)
  (forall fuel w,
      11 * waves <= Z.of_nat fuel ->
      exists w' r,
        wave_loop sec svc env fuel d t remaining 0 0 ctxs w = (w', r)
        /\ r <> Diverge
        /\ Z.of_nat (wave_attempts (trace w'))
           <= Z.of_nat (wave_attempts (trace w)) + 11 * waves).
Proof.
  intros Hpos n waves. split; [|split].
  - intros fuel bs retries acc w w2 r2 Hbs G.
    pose proof (wave_pass sec svc env Hpos d t remaining fuel bs retries acc w
                  Hbs w2 r2 G) as Hpass.
    cbv zeta in Hpass. fold n in Hpass.
    destruct r2 as [bc|e|].
    + exact Hpass.
    + intros Hrl. rewrite Hrl in Hpass. split.
      * intros Hlt. rewrite Hpass.
        destruct (10 <=? retries)%nat eqn:A; [apply Nat.leb_le in A; lia|].
        reflexivity.
      * intros Hge. split; [|now apply rate_limit_error_retryable].
        rewrite Hpass.
        destruct (10 <=? retries)%nat eqn:A; [reflexivity|].
        apply Nat.leb_gt in A. lia.
    + destruct (quiet_gather_wave sec svc env d t _ 0 _ _ _ G) as [Hd _].
      now apply Hd.
  - intros e. unfold wave_pause, truthy_int.
    destruct (err_retry_after e) as [k|]; [|reflexivity].
    destruct (k =? 0); reflexivity.
  - intros fuel w Hfuel.
    destruct (wave_loop_bound sec svc env Hpos d t remaining fuel 0 0%nat ctxs w)
      as (w' & r & H1 & H2 & H3).
    + lia.
    + rewrite (passes_left_total svc Hpos). exact Hfuel.
    + rewrite (passes_left_total svc Hpos) in H3. exists w', r. auto.
Qed.


(** The wave loop on three remaining chunks in waves of two, against a
    provider that answers its first two requests with a 429 carrying
    [retry-after: 5]: the first wave is paused and retried twice, then
    both waves go through, in four passes. *)
Lemma wave_loop_terminates_witness :
  let svc := get_chunking_service 2 100000 in
  let env := mkEnv (fun k _ _ => if (k <? 2)%nat
                                 then LLMRateLimited "429" (HeaderInt 5)
                                 else LLMText "context")
                   (fun k => 1000 * Z.of_nat k)
                   (fun _ st => st) (fun _ => 1000) in
  let remaining := [mkBase "One." 0 4 1; mkBase "Two." 5 9 1;
                    mkBase "Three." 10 16 1] in
  let w := mkWorld RateLimiter.empty_state 0 0 [] in
  exists w' r,
    wave_loop 1000 svc env 22 "One. Two. Three." (Some "T") remaining 0 0
              ["first"] w = (w', r)
    /\ r <> Diverge
    /\ Z.of_nat (wave_attempts (trace w'))
       <= Z.of_nat (wave_attempts (trace w)) + 11 * total_batches svc remaining
    /\ r = Ok ["first"; "context"; "context"; "context"]
    /\ trace w'
       = [WaveAttempt 0; LLMCall false "One."; Sleep 5000;
          WaveAttempt 0; LLMCall false "One."; Sleep 5000;
          WaveAttempt 0; LLMCall false "One."; Sleep 250;
          LLMCall false "Two."; Sleep 2000;
          WaveAttempt 2; LLMCall false "Three."].
Proof.
  cbv zeta.
  assert (Hpos : 0 < max_concurrent_requests (get_chunking_service 2 100000))
    by (vm_compute; reflexivity).
  destruct (proj2 (proj2 (wave_loop_terminates 1000
                            (get_chunking_service 2 100000)
                            (mkEnv (fun k _ _ =>
                                      if (k <? 2)%nat
                                      then LLMRateLimited "429" (HeaderInt 5)
                                      else LLMText "context")
                                   (fun k => 1000 * Z.of_nat k)
                                   (fun _ st => st) (fun _ => 1000))
                            "One. Two. Three." (Some "T")
                            [mkBase "One." 0 4 1; mkBase "Two." 5 9 1;
                             mkBase "Three." 10 16 1]
                            ["first"] Hpos))
              22%nat (mkWorld RateLimiter.empty_state 0 0 []))
    as (w' & r & E & Hr & Hb).
  - vm_compute. discriminate.
  - exists w', r. split; [exact E|]. split; [exact Hr|]. split; [exact Hb|].
    vm_compute in E.
    assert (Hw : trace w'
                 = [WaveAttempt 0; LLMCall false "One."; Sleep 5000;
                    WaveAttempt 0; LLMCall false "One."; Sleep 5000;
                    WaveAttempt 0; LLMCall false "One."; Sleep 250;
                    LLMCall false "Two."; Sleep 2000;
                    WaveAttempt 2; LLMCall false "Three."] /\
                 r = Ok ["first"; "context"; "context"; "context"]).
    { apply pair_equal_spec in E. destruct E as [<- <-].
      split; reflexivity. }
    destruct Hw as [Hw Hres]. split; [exact Hres | exact Hw].
Defined.

(** C8 as the specification words it holds for every configuration.
    [CHUNKING_MAX_CONCURRENT=-1] is accepted by the constructor; the
    loop then takes an empty wave on every pass and never ends, so no
    bound on the passes holds. *)
Lemma wave_loop_negative_wave_size_counterexample :
  ~ exists fuel,
      snd (wave_loop 1000 (get_chunking_service (-1) 100000)
             (mkEnv (fun _ _ _ => LLMText "context")
                    (fun k => 1000 * Z.of_nat k)
                    (fun _ st => st) (fun _ => 1000))
             fuel "One. Two." (Some "T") [mkBase "Two." 5 9 1] 0 0
             ["first"] (mkWorld RateLimiter.empty_state 0 0 []))
      <> Diverge.
Proof.
  intros [fuel H]. apply H. apply wave_loop_backwards. lia.
Qed.

(** *** Reservations above the cap *)

Section OverCap.
Variable sec : Z.
Variable svc : service.
Variable env : environment.
Variable cap : Z.
Hypothesis cap_configured : RateLimiter.tpm_limit (limiter svc) = Some cap.
Hypothesis cap_enabled : cap <> 0.
Hypothesis others_nonneg :
  forall k st, RateLimiter.tokens_nonneg st ->
               RateLimiter.tokens_nonneg (others env k st).

Lemma reserve_denied n remaining :
  cap < n ->
  forall attempts w,
    RateLimiter.tokens_nonneg (redis w) ->
    exists w',
      reserve sec svc env n remaining attempts w
      = (w', Ok (attempts + remaining)%nat)
      /\ limiter_calls w' = (limiter_calls w + remaining)%nat
      /\ llm_calls w' = llm_calls w
      /\ RateLimiter.tokens_nonneg (redis w').
Proof.
  intros Hn. induction remaining as [|k IH]; intros attempts w Hw.
  - exists w. simpl. rewrite !Nat.add_0_r. auto.
  - cbn [reserve]. unfold bind at 1. unfold acquire_tokens at 1.
    pose proof (RateLimiterFacts.acquire_tokens_over_cap sec (limiter svc) cap n
                  (time_at env (limiter_calls w))
                  (others env (limiter_calls w) (redis w))
                  cap_configured cap_enabled Hn
                  (others_nonneg _ _ Hw)) as Hden.
    pose proof (RateLimiterFacts.acquire_tokens_denied_nonneg sec (limiter svc) n
                  (time_at env (limiter_calls w))
                  (others env (limiter_calls w) (redis w))
                  Hden (others_nonneg _ _ Hw)) as Hst.
    destruct (RateLimiter.acquire_tokens sec (limiter svc) n _ _)
      as [st [can wait]].
    cbn [fst snd] in Hden, Hst. subst can.
    unfold bind at 1. unfold bind at 1. unfold sleep, log, modify.
    match goal with
    | |- context [reserve sec svc env n k (S attempts) ?w1] =>
        destruct (IH (S attempts) w1) as (w' & E & H1 & H2 & H3);
          [exact Hst|]
    end.
    exists w'. rewrite E. cbn [limiter_calls llm_calls] in H1, H2.
    repeat split; try assumption; try (f_equal; f_equal; lia); lia.
Qed.
End OverCap.

(** C10 (as amended).  Against a configured TPM cap other than zero, a
    reservation of more tokens than the cap is denied in every window
    state of non-negative reservations, the empty window included.  A
    chunk-context request whose pre-estimated total exceeds the cap is
    therefore never sent: the reservation loop is denied twenty times,
    after which [RuntimeError] is raised. *)
Theorem over_cap_never_admitted sec svc env cap :
  RateLimiter.tpm_limit (limiter svc) = Some cap ->
  cap <> 0 ->
  (forall n now st,
      cap < n -> RateLimiter.tokens_nonneg st ->
      exists wait st',
        RateLimiter.acquire_tokens sec (limiter svc) n now st
        = (st', (false, wait))) /\
  (forall n now,
      cap < n ->
      exists wait st',
        RateLimiter.acquire_tokens sec (limiter svc) n now
                                   RateLimiter.empty_state
        = (st', (false, wait))) /\
  ((forall k st, RateLimiter.tokens_nonneg st ->
                 RateLimiter.tokens_nonneg (others env k st)) ->
   forall d c t first w,
     cap < estimated_request_tokens d c t first ->
     RateLimiter.tokens_nonneg (redis w) ->
     exists w',
       reserve sec svc env (estimated_request_tokens d c t first) 20 0 w
       = (w', Ok 20%nat)
       /\ _generate_chunk_context sec svc env d c t first w
          = (w', Raise (builtin_error "RuntimeError"
                          "Failed to acquire TPM capacity after 20 attempts"))
       /\ limiter_calls w' = (limiter_calls w + 20)%nat
       /\ llm_calls w' = llm_calls w).
Proof.
  intros Hcfg Hcap.
  assert (Hden : forall n now st,
             cap < n -> RateLimiter.tokens_nonneg st ->
             exists wait st',
               RateLimiter.acquire_tokens sec (limiter svc) n now st
               = (st', (false, wait))).
  { intros n now st Hn Hst.
    pose proof (RateLimiterFacts.acquire_tokens_over_cap sec (limiter svc) cap n
                  now st Hcfg Hcap Hn Hst) as H.
    destruct (RateLimiter.acquire_tokens sec (limiter svc) n now st)
      as [st' [can wait]].
    cbn [fst snd] in H. subst can. now exists wait, st'. }
  split; [exact Hden|]. split.
  - intros n now Hn. apply Hden; [exact Hn|]. constructor.
  - intros Hothers d c t first w Hn Hw.
    destruct (reserve_denied sec svc env cap Hcfg Hcap Hothers _ 20 Hn 0%nat w Hw)
      as (w' & E & H1 & H2 & _).
    exists w'. split; [exact E|]. split; [|split; assumption].
    unfold _generate_chunk_context, max_wait_attempts.
    unfold bind. rewrite E. reflexivity.
Qed.

(** A request estimated at 140 tokens against a cap of 50. *)
Lemma over_cap_never_admitted_witness :
  let svc := get_chunking_service 2 50 in
  let env := mkEnv (fun _ _ _ => LLMText "context") (fun k => 1000 * Z.of_nat k)
                   (fun _ st => st) (fun _ => 1000) in
  let w := mkWorld RateLimiter.empty_state 0 0 [] in
  exists w',
    _generate_chunk_context 1000 svc env "A document." "A document."
                            (Some "T") false w
    = (w', Raise (builtin_error "RuntimeError"
                    "Failed to acquire TPM capacity after 20 attempts"))
    /\ limiter_calls w' = 20%nat /\ llm_calls w' = 0%nat.
Proof.
  cbv zeta.
  destruct (over_cap_never_admitted 1000 (get_chunking_service 2 50)
              (mkEnv (fun _ _ _ => LLMText "context")
                     (fun k => 1000 * Z.of_nat k)
                     (fun _ st => st) (fun _ => 1000))
              50 eq_refl ltac:(discriminate)) as (_ & _ & H).
  destruct (H (fun _ st Hst => Hst) "A document." "A document." (Some "T") false
              (mkWorld RateLimiter.empty_state 0 0 []))
    as (w' & _ & E & H1 & H2).
  - vm_compute. reflexivity.
  - constructor.
  - exists w'. split; [exact E|]. split; assumption.
Defined.

(** C10 as the specification words it holds for every cap and every
    window state.  [ANTHROPIC_TPM_LIMIT=0] is accepted by the
    constructor and switches the limiter off: a reservation of 5
    tokens is granted on the empty window, and a request estimated at
    107 tokens is sent.  And a window that holds a negative
    reservation admits 60 tokens against a cap of 50. *)
Lemma over_cap_admitted_counterexample :
  let env := mkEnv (fun _ _ _ => LLMText "context")
                   (fun k => 1000 * Z.of_nat k)
                   (fun _ st => st) (fun _ => 1000) in
  let w := mkWorld RateLimiter.empty_state 0 0 [] in
  let run := _generate_chunk_context 1000 (get_chunking_service 2 0) env
               "A document." "A document." (Some "T") false w in
  let negative :=
    fst (RateLimiter.acquire_tokens 1000 (limiter (get_chunking_service 2 50))
           (-100) 10000 RateLimiter.empty_state) in
  RateLimiter.acquire_tokens 1000 (limiter (get_chunking_service 2 0)) 5 0
                             RateLimiter.empty_state
  = (RateLimiter.empty_state, (true, 0))
  /\ estimated_request_tokens "A document." "A document." (Some "T") false
     = 107
  /\ snd run = Ok "context"
  /\ llm_calls (fst run) = 1%nat
  /\ snd (RateLimiter.acquire_tokens 1000
            (limiter (get_chunking_service 2 50)) 60 30000 negative)
     = (true, 0).
Proof. cbv zeta. repeat split. Qed.

End ChunkingFacts.

(** * Properties of submission *)

Module PipelineHelpersFacts.
Import Py PyM Store PipelineHelpers.






Example submit_with_both_locations :
  let r := enqueue_pipeline_job 50 7 "manual_upload" "org_a" "notes.pdf" "pdf"
             (Some "raw_documents/7.pdf") (Some "gdrive://abc") None None
             (mkWorld [] [] [] [] [] 1 [] [] []) in
  snd r = Ok (mkSubmission 1 "extract_1")
  /\ map phase_status_of (phases (fst r)) = [Skipped]
  /\ map item_queue (queue (fst r)) = [QUEUE_EXTRACTION].
Proof. repeat split. Qed.

End PipelineHelpersFacts.

(** * Properties of the workers *)

Module WorkersFacts.
Import Py PyM Store RetryPolicy PipelineHelpers Workers.

(** *** Frame lemmas: what the bookkeeping leaves alone *)


Lemma keeps_raise {A} e : keeps_graph (@raise world A e).
Proof. intros w. cbn. auto. Qed.

Lemma keeps_lift {A} (o : outcome A) : keeps_graph (lift o).
Proof. intros w. cbn. auto. Qed.













(** *** The gather over the chunks *)
















(** *** The start of a handler *)

Lemma existsb_job_update i p f (l : list pipeline_job) :
  (forall j, job_id (f j) = job_id j) ->
  existsb (job_by_id i) (update_where p f l) = existsb (job_by_id i) l.
Proof.
  intros Hf. unfold update_where. induction l as [|j l IH]; [reflexivity|].
  cbn [map existsb]. rewrite IH. f_equal. unfold job_by_id.
  destruct (p j); [now rewrite Hf|reflexivity].
Qed.

Lemma clear_retry_metadata_run env job rc w :
  exists js,
    clear_retry_metadata env job rc w =
    (mkWorld js (phases w) (documents w) (chunks w) (mappings w) (next_id w)
             (objects w) (queue w) (graph_calls w), Ok tt)
    /\ (forall i, existsb (job_by_id i) js = existsb (job_by_id i) (jobs w))
    /\ map job_status_of js = map job_status_of (jobs w).
Proof.
  unfold clear_retry_metadata, when.
  destruct (0 <? rc)%nat.
  - unfold update_job_metadata, bind, select_job, update_job, modify, with_jobs.
    eexists. split; [reflexivity|]. split.
    + intros i. now apply existsb_job_update.
    + unfold update_where. rewrite map_map. apply map_ext.
      intros j. now destruct (job_by_id job j).
  - exists (jobs w). destruct w. cbn. auto.
Qed.

Lemma start_phase env job rc mk w :
  existsb (job_by_id job) (jobs w) = true ->
  (forall i, phase_job_id (mk i) = job) ->
  exists js,
    attempt (bind (clear_retry_metadata env job rc)
                  (fun _ => insert_phase mk)) w =
    (mkWorld js (phases w ++ [mk (next_id w)]) (documents w) (chunks w)
             (mappings w) (S (next_id w)) (objects w) (queue w)
             (graph_calls w), Ok (inl (next_id w)))
    /\ (forall i, existsb (job_by_id i) js = existsb (job_by_id i) (jobs w))
    /\ map job_status_of js = map job_status_of (jobs w).
Proof.
  intros Hjob Hmk.
  destruct (clear_retry_metadata_run env job rc w) as (js & E & Hjs & Hst).
  exists js. split; [|split; assumption].
  unfold attempt, bind. rewrite E. unfold insert_phase.
  cbn [jobs next_id phases documents chunks mappings objects queue graph_calls].
  rewrite Hmk, Hjs, Hjob. reflexivity.
Qed.


(** *** Partial failure of the graph ingest *)













End WorkersFacts.

(** * The job check at the start of a handler, and empty extractions *)

Module HandlerFacts.
Import Py PyM Store RetryPolicy PipelineHelpers Workers WorkersFacts.

(** The external-source handler looks the job up first and leaves
    without touching anything when the row is gone or cancelled. *)
Lemma ingest_extract_task_skips env job document_id src ft rc pi pe kw w :
  (select_where (job_by_id job) (jobs w) = [] ->
   ingest_extract_task env job document_id src ft rc pi pe kw w
   = (w, Ok (ResultSkipped "pipeline_job_not_found" document_id))) /\
  (forall j rest,
      select_where (job_by_id job) (jobs w) = j :: rest ->
      job_status_of j = JobCancelled ->
      ingest_extract_task env job document_id src ft rc pi pe kw w
      = (w, Ok (ResultSkipped "pipeline_job_cancelled" document_id))).
Proof.
  split.
  - intros H. unfold ingest_extract_task, bind, attempt, select_job.
    rewrite H. reflexivity.
  - intros j rest H Hc. unfold ingest_extract_task, bind, attempt, select_job.
    rewrite H, Hc. reflexivity.
Qed.

(** C2 at its failing inputs.  On a job that was cancelled, the
    local-upload extraction handler, the chunking handler and the
    kg_ingest handler insert their phase row and do the whole phase
    (kg_ingest even marks the cancelled job completed), where the
    external-source handler returns [skipped] and changes nothing.  On a
    job row that is gone, the extraction handler does not return at all:
    the refused insert is raised out of its [except] clause. *)
Theorem handlers_without_job_check :
  let env := Sample.env 9 "Some text." in
  let cancelled := Sample.world_with JobCancelled in
  let extraction :=
    extract_task env 1 7 "raw_documents/7.mp4" 0 None Sample.kw cancelled in
  let chunking :=
    chunk_task env 1 7 "extracted_text/7.txt" 0 None Sample.kw cancelled in
  let kg_ingest := ingest_kg_task env 1 7 0 None Sample.kw cancelled in
  let ingest_extract :=
    ingest_extract_task env 1 7 "gdrive://abc" (Some "pdf") 0 None None
                        Sample.kw cancelled in
  (snd extraction = Ok (Success 7 [("text_length", JInt 10);
                                   ("word_count", JInt 2)])
   /\ map phase_status_of (phases (fst extraction)) = [Completed]
   /\ map item_queue (queue (fst extraction)) = [QUEUE_CHUNKING])
  /\ (snd chunking = Ok (Success 7 [("chunk_count", JInt 1);
                                    ("text_length", JInt 20)])
      /\ map phase_status_of (phases (fst chunking)) = [Completed]
      /\ map item_queue (queue (fst chunking)) = [QUEUE_KG_INGEST])
  /\ (snd kg_ingest = Ok (Success 7 [("episode_count", JInt 3);
                                     ("chunk_count", JInt 3)])
      /\ map phase_status_of (phases (fst kg_ingest)) = [Completed]
      /\ map job_status_of (jobs (fst kg_ingest)) = [JobCompleted])
  /\ ingest_extract = (cancelled, Ok (ResultSkipped "pipeline_job_cancelled" 7))
  /\ extract_task env 1 7 "raw_documents/7.mp4" 0 None Sample.kw
                  Sample.world_without_job
     = (Sample.world_without_job,
        Raise (APIError "violates foreign key constraint")).
Proof. cbv zeta. repeat split; vm_compute; reflexivity. Qed.

(** The three handlers start alike: whatever the status of the job,
    their first step is the insert of a processing phase row. *)
Lemma handlers_start_with_insert env job rc label phase input parent w :
  existsb (job_by_id job) (jobs w) = true ->
  exists w0,
    attempt (bind (clear_retry_metadata env job rc)
                  (fun _ => insert_phase
                              (processing_phase env job label phase input rc
                                                parent))) w
    = (w0, Ok (inl (next_id w)))
    /\ phases w0 = (phases w ++ [processing_phase env job label phase input rc
                                                  parent (next_id w)])%list
    /\ map job_status_of (jobs w0) = map job_status_of (jobs w).
Proof.
  intros Hjob.
  destruct (start_phase env job rc
              (processing_phase env job label phase input rc parent) w Hjob
              (fun _ => eq_refl)) as (js & E & _ & Hst).
  eexists. split; [exact E|]. split; [reflexivity|exact Hst].
Qed.


(** *** Empty extractions *)


Lemma updated_rows {X} (p : X -> bool) (f : X -> X) (l : list X) y :
  In y (update_where p f l) ->
  (exists x, In x l /\ p x = true /\ y = f x) \/ (In y l /\ p y = false).
Proof.
  unfold update_where. intros H. apply in_map_iff in H.
  destruct H as [x [E Hx]]. destruct (p x) eqn:Ep.
  - left. exists x. auto.
  - right. subst y. auto.
Qed.








Example extract_task_on_empty_text :
  let run := extract_task (Sample.env 9 "") 1 7 "raw_documents/7.mp4" 0 None
                          Sample.kw (Sample.world_with JobProcessing) in
  snd run = Ok (ResultFailed
                  "No text extracted from mp4 file (MIME: mp4). Source: raw_documents/7.mp4"
                  0)
  /\ map phase_status_of (phases (fst run)) = [Failed]
  /\ map phase_error_type (phases (fst run)) = [Some "ValueError"]
  /\ map job_status_of (jobs (fst run)) = [JobFailed]
  /\ map doc_status (documents (fst run)) = ["processing"]
  /\ queue (fst run) = [].
Proof. vm_compute. repeat split. Qed.

End HandlerFacts.

(** * File types and MIME types *)

Module FileUtilsFacts.
Import Py PyM FileUtils Extraction.

Lemma lookup_In k d v : lookup k d = Some v -> In (k, v) d.
Proof.
  induction d as [|[k' v'] d IH]; cbn [lookup]; [discriminate|].
  destruct (String.eqb k k') eqn:E.
  - intros H. injection H as <-. apply String.eqb_eq in E. subst. now left.
  - intros H. right. now apply IH.
Qed.

Lemma mem_In_eq x l : mem x l = true -> In x l.
Proof.
  unfold mem. intros H. apply existsb_exists in H.
  destruct H as [y [Hy E]]. apply String.eqb_eq in E. now subst.
Qed.

Lemma forallb_In {A} (p : A -> bool) l x :
  forallb p l = true -> In x l -> p x = true.
Proof. intros H Hx. rewrite forallb_forall in H. now apply H. Qed.

(** X1.  [is_audio_video_file] accepts exactly the MIME types
    that start with [audio/] or [video/]: every member of the two
    explicit sets starts so, and the fallback is the prefix test. *)
Theorem is_audio_video_file_prefix mime_type :
  is_audio_video_file mime_type
  = String.prefix "audio/" mime_type || String.prefix "video/" mime_type.
Proof.
  unfold is_audio_video_file.
  destruct (mem mime_type AUDIO_MIME_TYPES || mem mime_type VIDEO_MIME_TYPES)
    eqn:E; [|reflexivity].
  symmetry. apply orb_true_iff in E. destruct E as [E | E];
    apply mem_In_eq in E.
  - apply (forallb_In (fun m => String.prefix "audio/" m
                                || String.prefix "video/" m)
                      AUDIO_MIME_TYPES); [reflexivity | exact E].
  - apply (forallb_In (fun m => String.prefix "audio/" m
                                || String.prefix "video/" m)
                      VIDEO_MIME_TYPES); [reflexivity | exact E].
Qed.

(** X2.  A file type label that [get_mime_type] knows
    (no slash, and not sent to [application/octet-stream]) comes back
    from [get_file_type_label], in lower case. *)
Theorem get_file_type_label_get_mime_type file_type :
  contains "/" file_type = false ->
  get_mime_type file_type <> "application/octet-stream" ->
  get_file_type_label (get_mime_type file_type) = lower file_type.
Proof.
  intros Hslash Hknown. unfold get_mime_type in *. rewrite Hslash in *.
  destruct (lookup (lower file_type) EXTENSION_TO_MIME) as [mime|] eqn:E;
    [|now elim Hknown].
  apply lookup_In in E.
  pose proof (forallb_In
                (fun kv => String.eqb (get_file_type_label (snd kv)) (fst kv))
                EXTENSION_TO_MIME _ eq_refl E) as H.
  now apply String.eqb_eq in H.
Qed.

Lemma get_file_type_label_get_mime_type_witness :
  get_file_type_label (get_mime_type "DOCX") = "docx".
Proof.
  apply (get_file_type_label_get_mime_type "DOCX");
    [reflexivity | discriminate].
Defined.

(** X3.  [get_mime_type] always answers with a string
    holding a slash, which it then leaves alone: normalising twice is
    normalising once. *)
Theorem get_mime_type_idempotent file_type :
  contains "/" (get_mime_type file_type) = true
  /\ get_mime_type (get_mime_type file_type) = get_mime_type file_type.
Proof.
  assert (H : contains "/" (get_mime_type file_type) = true).
  { unfold get_mime_type.
    destruct (contains "/" file_type) eqn:E; [exact E|].
    destruct (lookup (lower file_type) EXTENSION_TO_MIME) as [mime|] eqn:L;
      [|reflexivity].
    apply lookup_In in L.
    exact (forallb_In (fun kv => contains "/" (snd kv)) EXTENSION_TO_MIME _
                      eq_refl L). }
  split; [exact H|].
  unfold get_mime_type at 1. now rewrite H.
Qed.

(** X4.  On the local-upload path the MIME type
    comes from a label.  Whenever such a MIME type is dispatched to
    [transcribe_audio_video], the function finds a suffix for the
    temporary file, so it does not stop on an unsupported MIME type.
    MIME types given as such have no guarantee: [audio/x-m4a] is an
    audio type of [file_utils] and is refused. *)
Theorem transcribe_audio_video_of_label sv file_data file_type :
  contains "/" file_type = false ->
  is_audio_video_file (get_mime_type file_type) = true ->
  (exists file_ext,
      In (get_mime_type file_type, file_ext) MIME_TO_EXTENSION
      /\ transcribe_audio_video sv file_data (get_mime_type file_type)
         = transcribe_with_suffix sv file_data file_ext)
  /\ is_audio_video_file "audio/x-m4a" = true
  /\ transcribe_audio_video sv file_data "audio/x-m4a"
     = Raise (builtin_error "ValueError"
                "Unsupported MIME type for transcription: audio/x-m4a").
Proof.
  intros Hslash Hav. split; [|split; reflexivity].
  unfold get_mime_type in *. rewrite Hslash in *.
  destruct (lookup (lower file_type) EXTENSION_TO_MIME) as [mime|] eqn:L;
    [|discriminate Hav].
  apply lookup_In in L.
  pose proof (forallb_In
                (fun kv => negb (is_audio_video_file (snd kv))
                           || truthy_str (lookup (snd kv) MIME_TO_EXTENSION))
                EXTENSION_TO_MIME _ eq_refl L) as H.
  cbn [snd] in H. rewrite Hav in H. cbn [negb orb] in H.
  unfold transcribe_audio_video. rewrite H. cbn [negb].
  destruct (lookup mime MIME_TO_EXTENSION) as [ext|] eqn:E; [|discriminate H].
  exists ext. split; [now apply lookup_In | reflexivity].
Qed.

Lemma transcribe_audio_video_of_label_witness :
  exists file_ext,
    In ("video/mp4", file_ext) MIME_TO_EXTENSION
    /\ transcribe_audio_video
         (mkServices (fun _ _ => Ok "/tmp/x.mp4") (Some "key")
                     (fun _ => Ok "Hello there.") (fun _ _ => Ok ""))
         "bytes" (get_mime_type "MP4")
       = Ok "Hello there.".
Proof.
  destruct (proj1 (transcribe_audio_video_of_label
                     (mkServices (fun _ _ => Ok "/tmp/x.mp4") (Some "key")
                                 (fun _ => Ok "Hello there.")
                                 (fun _ _ => Ok ""))
                     "bytes" "MP4" eq_refl eq_refl)) as (ext & Hin & Hrun).
  exists ext. split; [exact Hin|]. rewrite Hrun. reflexivity.
Defined.

(** X5.  No MIME type is both a document or subtitle
    type and an audio or video type: every document and every subtitle
    type is processed in the standard mode. *)
Theorem get_processing_mode_documents mime_type :
  is_document_file mime_type = true \/ is_subtitle_file mime_type = true ->
  is_audio_video_file mime_type = false
  /\ get_processing_mode mime_type = standard_document.
Proof.
  intros H.
  assert (E : is_audio_video_file mime_type = false).
  { destruct H as [H | H]; apply mem_In_eq in H.
    - apply negb_true_iff.
      exact (forallb_In (fun m => negb (is_audio_video_file m))
                        DOCUMENT_MIME_TYPES _ eq_refl H).
    - apply negb_true_iff.
      exact (forallb_In (fun m => negb (is_audio_video_file m))
                        SUBTITLE_MIME_TYPES _ eq_refl H). }
  split; [exact E|]. unfold get_processing_mode. now rewrite E.
Qed.

Lemma get_processing_mode_documents_witness :
  is_audio_video_file "text/vtt" = false
  /\ get_processing_mode "text/vtt" = standard_document.
Proof.
  apply (get_processing_mode_documents "text/vtt"). right. reflexivity.
Defined.

(** X6.  Without a file name to read the suffix from,
    [get_file_extension] gives the suffix under which the extractors of
    [services/extraction.py] write their temporary file, for every MIME
    type those know; and it gives a dot followed by the type label for
    every MIME type with a label, Google Docs apart (label [gdoc],
    suffix [.docx]). *)
Theorem get_file_extension_tables path_suffix mime_type :
  (forall file_ext,
      lookup mime_type MIME_TO_EXTENSION = Some file_ext ->
      get_file_extension path_suffix mime_type "" = file_ext)
  /\ (get_file_type_label mime_type <> "unknown" ->
      mime_type <> "application/vnd.google-apps.document" ->
      get_file_extension path_suffix mime_type ""
      = "." ++ get_file_type_label mime_type).
Proof.
  split.
  - intros file_ext H. apply lookup_In in H.
    pose proof (forallb_In
                  (fun kv => match lookup (fst kv) mime_to_ext with
                             | Some e => String.eqb e (snd kv)
                             | None => false
                             end)
                  MIME_TO_EXTENSION _ eq_refl H) as E.
    cbn [fst snd] in E. unfold get_file_extension. cbn [String.eqb negb].
    destruct (lookup mime_type mime_to_ext); [|discriminate E].
    now apply String.eqb_eq in E.
  - intros Hlabel Hgdoc. unfold get_file_type_label in *.
    destruct (lookup mime_type mime_to_type) as [label|] eqn:L;
      [|now elim Hlabel].
    apply lookup_In in L.
    pose proof (forallb_In
                  (fun kv => String.eqb (fst kv)
                               "application/vnd.google-apps.document"
                             || match lookup (fst kv) mime_to_ext with
                                | Some e => String.eqb e ("." ++ snd kv)
                                | None => false
                                end)
                  mime_to_type _ eq_refl L) as E.
    cbn [fst snd] in E. apply orb_true_iff in E. destruct E as [E | E].
    + apply String.eqb_eq in E. contradiction.
    + unfold get_file_extension. cbn [String.eqb negb].
      destruct (lookup mime_type mime_to_ext); [|discriminate E].
      now apply String.eqb_eq in E.
Qed.

Lemma get_file_extension_tables_witness :
  get_file_extension (fun _ => "") "audio/x-wav" "" = ".wav".
Proof.
  apply (proj2 (get_file_extension_tables (fun _ => "") "audio/x-wav"));
    discriminate.
Defined.
End FileUtilsFacts.

(** * Retry delays and phase timeouts *)

Module RetryDelayFacts.
Import Py RetryPolicy.

Lemma dict_get_bounds k d default lo hi :
  (lo <= default <= hi)%Z ->
  Forall (fun kv => (lo <= snd kv <= hi)%Z) d ->
  (lo <= dict_get k d default <= hi)%Z.
Proof.
  intros Hd H. induction H as [|[k' v] d Hv _ IH]; cbn [dict_get];
    [exact Hd|].
  destruct (String.eqb k k'); [exact Hv | exact IH].
Qed.

Lemma dict_get_missing k d default :
  mem k (map fst d) = false -> dict_get k d default = default.
Proof.
  induction d as [|[k' v] d IH]; cbn [dict_get map fst]; [reflexivity|].
  unfold mem. cbn [existsb]. intros H. apply orb_false_iff in H.
  destruct H as [H1 H2]. rewrite H1. now apply IH.
Qed.

Lemma plain_delay retry_count :
  get_retry_delay retry_count None
  = nth (Nat.min retry_count 2) RETRY_DELAYS 0%Z.
Proof.
  unfold get_retry_delay.
  destruct retry_count as [|[|[|n]]]; reflexivity.
Qed.

Lemma plain_delay_mono a b :
  (a <= b)%nat ->
  (nth (Nat.min a 2) RETRY_DELAYS 0 <= nth (Nat.min b 2) RETRY_DELAYS 0)%Z.
Proof.
  intros H.
  destruct a as [|[|[|a]]]; destruct b as [|[|[|b]]]; cbn; lia.
Qed.

(** X7.  A non-zero [retry_after] carried by the error is
    the delay, whatever the retry count.  Without one, the delay is the
    entry of [RETRY_DELAYS] at the retry count, the last entry from the
    third retry on: it lies between 60 and 900 seconds and never
    decreases from one retry to the next. *)
Theorem get_retry_delay_schedule retry_count e :
  (forall err d,
      e = Some err -> err_retry_after err = Some d -> d <> 0%Z ->
      get_retry_delay retry_count e = d)
  /\ ((forall err, e = Some err -> truthy_int (err_retry_after err) = false) ->
      get_retry_delay retry_count e
      = nth (Nat.min retry_count 2) RETRY_DELAYS 0%Z
      /\ (60 <= get_retry_delay retry_count e <= 900)%Z
      /\ forall later, (retry_count <= later)%nat ->
           (get_retry_delay retry_count e <= get_retry_delay later e)%Z).
Proof.
  split.
  - intros err d -> Hd Hnz. unfold get_retry_delay, truthy_int.
    rewrite Hd. apply Z.eqb_neq in Hnz. now rewrite Hnz.
  - intros Hplain.
    assert (E : forall rc, get_retry_delay rc e = get_retry_delay rc None).
    { intros rc. destruct e as [err|]; [|reflexivity].
      unfold get_retry_delay. now rewrite (Hplain err eq_refl). }
    rewrite E, plain_delay. split; [reflexivity|]. split.
    + destruct retry_count as [|[|[|n]]]; cbn; lia.
    + intros later Hle. rewrite E, plain_delay.
      now apply plain_delay_mono.
Qed.

Lemma get_retry_delay_schedule_witness :
  get_retry_delay 0 (Some (mkError "AnthropicRateLimitError"
                                   "mentorfy.services.chunking_service"
                                   "429" (Some 17%Z))) = 17%Z
  /\ get_retry_delay 5 (Some (builtin_error "ConnectionError" "reset"))
     = 900%Z.
Proof.
  split.
  - apply (proj1 (get_retry_delay_schedule
                    0 (Some (mkError "AnthropicRateLimitError"
                                     "mentorfy.services.chunking_service"
                                     "429" (Some 17%Z))))
                 (mkError "AnthropicRateLimitError"
                          "mentorfy.services.chunking_service"
                          "429" (Some 17%Z)) 17%Z eq_refl eq_refl).
    discriminate.
  - apply (proj2 (get_retry_delay_schedule
                    5 (Some (builtin_error "ConnectionError" "reset")))).
    intros err H. injection H as <-. reflexivity.
Defined.

(** X8.  The timeout of a phase is its base execution
    time (ten minutes for a name without an entry), plus the delays
    that [get_retry_delay] schedules for the [MAX_RETRIES] retries of a
    job, plus five minutes.  It lies between 1860 and 2760 seconds. *)
Theorem get_phase_timeout_covers_retries phase :
  get_phase_timeout phase
  = (dict_get phase PHASE_BASE_EXECUTION_TIME 600
     + fold_right Z.add 0
         (map (fun rc => get_retry_delay rc None) (seq 0 MAX_RETRIES))
     + 300)%Z
  /\ (1860 <= get_phase_timeout phase <= 2760)%Z
  /\ (mem phase (map fst PHASE_BASE_EXECUTION_TIME) = false ->
      get_phase_timeout phase = 2160%Z).
Proof.
  unfold get_phase_timeout. split; [reflexivity|]. split.
  - assert (H : (300 <= dict_get phase PHASE_BASE_EXECUTION_TIME 600
                 <= 1200)%Z).
    { apply dict_get_bounds; [lia|].
      repeat constructor; cbn; lia. }
    change get_max_retry_duration with 1260%Z. lia.
  - intros H. rewrite (dict_get_missing _ _ _ H). reflexivity.
Qed.

Lemma get_phase_timeout_covers_retries_witness :
  get_phase_timeout "ingestion" = 2160%Z.
Proof.
  apply (proj2 (proj2 (get_phase_timeout_covers_retries "ingestion"))).
  reflexivity.
Defined.
End RetryDelayFacts.

(** * The limiter's own view of its windows *)

Module LimiterFacts.
Import Py ZSet ZSetFacts RateLimiter RateLimiterFacts LimiterShape.
Local Open Scope Z_scope.

(** *** Sorted sets *)

Lemma sorted_filter {A} (R : A -> A -> Prop) (p : A -> bool) l :
  StronglySorted R l -> StronglySorted R (filter p l).
Proof.
  induction 1 as [|a l Hl IH Ha]; cbn [filter]; [constructor|].
  destruct (p a); [|exact IH]. constructor; [exact IH|].
  apply Forall_forall. intros x Hx. apply filter_In in Hx.
  rewrite Forall_forall in Ha. now apply Ha.
Qed.

Lemma In_zinsert {M} (mltb : M -> M -> bool) m sc (z : list (M * Z)) e :
  In e (zinsert mltb m sc z) <-> e = (m, sc) \/ In e z.
Proof.
  induction z as [|[m' sc'] r IH]; cbn [zinsert].
  - cbn. intuition congruence.
  - destruct (_ || _); cbn [In]; [intuition congruence|].
    rewrite IH. intuition congruence.
Qed.

Lemma sorted_zinsert {M} (mltb : M -> M -> bool) m sc (z : list (M * Z)) :
  StronglySorted by_score z -> StronglySorted by_score (zinsert mltb m sc z).
Proof.
  induction 1 as [|[m' sc'] r Hr IH Hhd]; cbn [zinsert].
  - constructor; constructor.
  - destruct ((sc <? sc') || ((sc =? sc') && mltb m m')) eqn:E.
    + constructor; [now constructor|].
      assert (Hle : sc <= sc').
      { apply orb_true_iff in E. destruct E as [E | E].
        - apply Z.ltb_lt in E. lia.
        - apply andb_true_iff in E. destruct E as [E _].
          apply Z.eqb_eq in E. lia. }
      constructor; [exact Hle|].
      rewrite Forall_forall in *. intros x Hx. specialize (Hhd x Hx).
      unfold by_score in *. cbn [snd] in *. lia.
    + constructor; [exact IH|].
      apply orb_false_iff in E. destruct E as [E _].
      apply Z.ltb_ge in E.
      rewrite Forall_forall in *. intros x Hx.
      apply In_zinsert in Hx. destruct Hx as [-> | Hx].
      * unfold by_score. cbn [snd]. exact E.
      * now apply Hhd.
Qed.

Lemma length_zinsert {M} (mltb : M -> M -> bool) m sc (z : list (M * Z)) :
  List.length (zinsert mltb m sc z) = S (List.length z).
Proof.
  induction z as [|[m' sc'] r IH]; cbn [zinsert]; [reflexivity|].
  destruct (_ || _); cbn [List.length]; [reflexivity|]. now rewrite IH.
Qed.

Lemma length_filter_le {A} (p : A -> bool) l :
  (List.length (filter p l) <= List.length l)%nat.
Proof.
  induction l as [|a l IH]; cbn [filter List.length]; [lia|].
  destruct (p a); cbn [List.length]; lia.
Qed.

Lemma filter_twice {A} (p : A -> bool) l :
  filter p (filter p l) = filter p l.
Proof.
  induction l as [|a l IH]; cbn [filter]; [reflexivity|].
  destruct (p a) eqn:E; cbn [filter]; [rewrite E, IH|]; auto.
Qed.

Lemma sum_tokens_zinsert mltb m sc (z : list (tpm_member * Z)) :
  sum_tokens (zinsert mltb m sc z) = snd m + sum_tokens z.
Proof.
  induction z as [|[m' sc'] r IH]; cbn [zinsert]; [reflexivity|].
  destruct (_ || _); [reflexivity|].
  unfold sum_tokens in *. cbn [fold_right fst snd]. rewrite IH.
  cbn [fst snd]. lia.
Qed.

Lemma sum_tokens_filter_le (p : tpm_member * Z -> bool) z :
  Forall (fun e => 0 <= snd (fst e)) z ->
  0 <= sum_tokens (filter p z) <= sum_tokens z.
Proof.
  induction 1 as [|e z He _ IH]; cbn [filter]; [cbn; lia|].
  unfold sum_tokens in *.
  destruct (p e); cbn [fold_right]; lia.
Qed.

Lemma sum_tokens_filter_zinsert (p : tpm_member * Z -> bool) mltb m sc z :
  sum_tokens (filter p (zinsert mltb m sc z))
  = (if p (m, sc) then snd m else 0) + sum_tokens (filter p z).
Proof.
  induction z as [|[m' sc'] r IH]; cbn [zinsert filter].
  - destruct (p (m, sc)); reflexivity.
  - destruct (_ || _); cbn [filter].
    + destruct (p (m, sc)), (p (m', sc')); unfold sum_tokens;
        cbn [fold_right fst snd]; lia.
    + destruct (p (m', sc')) eqn:E.
      * unfold sum_tokens in *. cbn [fold_right fst snd]. rewrite IH. lia.
      * exact IH.
Qed.

Lemma zrem_member_absent {M} (meqb : M -> M -> bool)
      (spec : forall a b, meqb a b = true <-> a = b) m (z : list (M * Z)) :
  ~ In m (map fst z) -> zrem_member meqb m z = z.
Proof.
  induction z as [|[m' sc'] r IH]; cbn [zrem_member filter map fst In];
    [reflexivity|].
  intros H. destruct (meqb m' m) eqn:E.
  - apply spec in E. subst. elim H. now left.
  - cbn [negb]. f_equal. apply IH. tauto.
Qed.

(** *** Keys *)

Lemma live_cases {M} (now : Z) (k : key_state M) :
  live now k = k \/ live now k = empty_key.
Proof.
  unfold live. destruct (expire_at k) as [x|]; [|now left].
  destruct (x <=? now); [now right | now left].
Qed.

Lemma live_again {M} (now : Z) (k : key_state M) (es : list (M * Z)) :
  live now (mkKey es (expire_at (live now k)))
  = mkKey es (expire_at (live now k)).
Proof.
  unfold live. destruct (expire_at k) as [x|] eqn:E; cbn [expire_at].
  - destruct (x <=? now) eqn:L; cbn [expire_at]; [reflexivity|].
    rewrite E. now rewrite L.
  - now rewrite E.
Qed.

Lemma rpm_shape_live cap now k : 0 <= cap ->
  rpm_shape cap k -> rpm_shape cap (live now k).
Proof.
  intros Hcap H. destruct (live_cases now k) as [-> | ->]; [exact H|].
  split; [constructor | split; [constructor | exact Hcap]].
Qed.

Lemma tpm_shape_live cap now k : 0 <= cap ->
  tpm_shape cap k -> tpm_shape cap (live now k).
Proof.
  intros Hcap H. destruct (live_cases now k) as [-> | ->]; [exact H|].
  split; [constructor | split; [constructor | exact Hcap]].
Qed.

Lemma Forall_filter {A} (P : A -> Prop) (p : A -> bool) l :
  Forall P l -> Forall P (filter p l).
Proof.
  intros H. apply Forall_forall. intros x Hx. apply filter_In in Hx.
  rewrite Forall_forall in H. now apply H.
Qed.

(** *** One call *)

Lemma acquire_request_shape sec cfg cap now st :
  rpm_limit cfg = Some cap -> 0 < cap -> 0 <= now ->
  rpm_shape cap (rpm_key st) ->
  rpm_shape cap (rpm_key (fst (acquire_request sec cfg now st))).
Proof.
  intros Hcfg Hcap Hnow Hst. unfold acquire_request.
  rewrite Hcfg, truthy_int_Some by lia. cbn [negb limit_of].
  assert (Hk : rpm_shape cap (live now (rpm_key st)))
    by (apply rpm_shape_live; [lia | exact Hst]).
  destruct Hk as (Hs & Hp & Hc).
  set (pruned := zremrangebyscore 0 (now - 60 * sec)
                   (entries (live now (rpm_key st)))) in *.
  assert (Hps : StronglySorted by_score pruned)
    by (apply sorted_filter; exact Hs).
  assert (Hpp : Forall (fun e => 0 <= snd e) pruned)
    by (apply Forall_filter; exact Hp).
  assert (Hpl : zcard pruned <= zcard (entries (live now (rpm_key st)))).
  { unfold zcard, pruned, zremrangebyscore.
    pose proof (length_filter_le
                  (fun e : Z * Z => negb ((0 <=? snd e)
                                          && (snd e <=? now - 60 * sec)))
                  (entries (live now (rpm_key st)))). lia. }
  destruct (zcard pruned <? cap) eqn:E; cbn [fst rpm_key];
    unfold rpm_shape; cbn [entries].
  - apply Z.ltb_lt in E. unfold zadd. split; [|split].
    + apply sorted_zinsert. now apply sorted_filter.
    + apply Forall_forall. intros e He. apply In_zinsert in He.
      destruct He as [-> | He]; [exact Hnow|].
      apply filter_In in He. rewrite Forall_forall in Hpp.
      now apply Hpp.
    + unfold zcard in *. rewrite length_zinsert.
      pose proof (length_filter_le
                    (fun e : Z * Z => negb (rpm_eqb (fst e) now)) pruned).
      unfold zrem_member. lia.
  - split; [exact Hps | split; [exact Hpp | lia]].
Qed.

Lemma acquire_tokens_shape sec cfg cap n now st :
  tpm_limit cfg = Some cap -> 0 < cap -> 0 <= now -> 0 <= n ->
  tpm_shape cap (tpm_key st) ->
  tpm_shape cap (tpm_key (fst (acquire_tokens sec cfg n now st))).
Proof.
  intros Hcfg Hcap Hnow Hn Hst. unfold acquire_tokens.
  rewrite Hcfg, truthy_int_Some by lia. cbn [negb limit_of].
  assert (Hk : tpm_shape cap (live now (tpm_key st)))
    by (apply tpm_shape_live; [lia | exact Hst]).
  destruct Hk as (Hs & Hp & Hc).
  set (pruned := zremrangebyscore 0 (now - 60 * sec)
                   (entries (live now (tpm_key st)))) in *.
  assert (Hps : StronglySorted by_score pruned)
    by (apply sorted_filter; exact Hs).
  assert (Hpp : Forall (fun e => 0 <= snd e /\ 0 <= snd (fst e)) pruned)
    by (apply Forall_filter; exact Hp).
  assert (Htok : Forall (fun e : tpm_member * Z => 0 <= snd (fst e)) pruned).
  { apply Forall_forall. intros e He. rewrite Forall_forall in Hpp.
    now apply Hpp. }
  assert (Hpl : sum_tokens pruned
                <= sum_tokens (entries (live now (tpm_key st)))).
  { apply sum_tokens_filter_le. apply Forall_forall. intros e He.
    rewrite Forall_forall in Hp. now apply Hp. }
  destruct (sum_tokens pruned + n <=? cap) eqn:E; cbn [fst tpm_key];
    unfold tpm_shape; cbn [entries].
  - apply Z.leb_le in E. unfold zadd. split; [|split].
    + apply sorted_zinsert. now apply sorted_filter.
    + apply Forall_forall. intros e He. apply In_zinsert in He.
      destruct He as [-> | He]; [cbn [fst snd]; split; assumption|].
      apply filter_In in He. rewrite Forall_forall in Hpp.
      now apply Hpp.
    + rewrite sum_tokens_zinsert. cbn [snd].
      pose proof (sum_tokens_filter_le
                    (fun e => negb (tpm_eqb (fst e) (now, n))) pruned Htok).
      unfold zrem_member. lia.
  - split; [exact Hps | split; [exact Hpp | lia]].
Qed.

(** *** Any sequence of calls *)

Lemma final_state_rpm_shape sec cfg cap calls :
  rpm_limit cfg = Some cap -> 0 < cap -> Forall sound_call calls ->
  forall st, rpm_shape cap (rpm_key st) ->
             rpm_shape cap (rpm_key (final_state sec cfg st calls)).
Proof.
  intros Hcfg Hcap. induction 1 as [|[now c] rest [Hnow Hc] _ IH];
    intros st Hst; [exact Hst|].
  cbn [final_state]. apply IH. cbn [fst] in Hnow.
  destruct c as [|n]; cbn [step].
  - now apply (acquire_request_shape sec cfg cap).
  - now rewrite acquire_tokens_rpm_key.
Qed.

Lemma final_state_tpm_shape sec cfg cap calls :
  tpm_limit cfg = Some cap -> 0 < cap -> Forall sound_call calls ->
  forall st, tpm_shape cap (tpm_key st) ->
             tpm_shape cap (tpm_key (final_state sec cfg st calls)).
Proof.
  intros Hcfg Hcap. induction 1 as [|[now c] rest [Hnow Hc] _ IH];
    intros st Hst; [exact Hst|].
  cbn [final_state]. apply IH. cbn [fst snd] in Hnow, Hc.
  destruct c as [|n]; cbn [step].
  - now rewrite acquire_request_tpm_key.
  - now apply (acquire_tokens_shape sec cfg cap).
Qed.

Lemma rpm_shape_empty cap : 0 <= cap -> rpm_shape cap (rpm_key empty_state).
Proof. intros H. split; [constructor | split; [constructor | exact H]]. Qed.

Lemma tpm_shape_empty cap : 0 <= cap -> tpm_shape cap (tpm_key empty_state).
Proof. intros H. split; [constructor | split; [constructor | exact H]]. Qed.

(** X9.  After any sequence of calls from the empty store
    (instants of the epoch, non-negative token counts, the clock free to
    stand still or step back), what the limiter itself counts in its
    window never exceeds a positive cap: [get_current_rpm] is at most
    the RPM cap and [get_current_tpm] at most the TPM cap, at whatever
    instant they are read. *)
Theorem limiter_view_within_caps sec cfg calls now :
  Forall sound_call calls ->
  (forall cap, rpm_limit cfg = Some cap -> 0 < cap ->
     0 <= get_current_rpm sec cfg now (final_state sec cfg empty_state calls)
       <= cap)
  /\ (forall cap, tpm_limit cfg = Some cap -> 0 < cap ->
        0 <= get_current_tpm sec cfg now
               (final_state sec cfg empty_state calls) <= cap).
Proof.
  intros Hcalls. split; intros cap Hcfg Hcap.
  - pose proof (final_state_rpm_shape sec cfg cap calls Hcfg Hcap Hcalls
                  empty_state (rpm_shape_empty cap ltac:(lia))) as H.
    apply (rpm_shape_live cap now) in H; [|lia].
    destruct H as (_ & _ & Hc).
    unfold get_current_rpm. rewrite Hcfg, truthy_int_Some by lia.
    cbn [negb]. unfold zcard, zremrangebyscore in *.
    pose proof (length_filter_le
                  (fun e : Z * Z => negb ((0 <=? snd e)
                                          && (snd e <=? now - 60 * sec)))
                  (entries (live now (rpm_key (final_state sec cfg empty_state
                                                 calls))))). lia.
  - pose proof (final_state_tpm_shape sec cfg cap calls Hcfg Hcap Hcalls
                  empty_state (tpm_shape_empty cap ltac:(lia))) as H.
    apply (tpm_shape_live cap now) in H; [|lia].
    destruct H as (_ & Hp & Hc).
    unfold get_current_tpm. rewrite Hcfg, truthy_int_Some by lia.
    cbn [negb]. unfold zremrangebyscore.
    pose proof (sum_tokens_filter_le
                  (fun e : tpm_member * Z =>
                     negb ((0 <=? snd e) && (snd e <=? now - 60 * sec)))
                  (entries (live now (tpm_key (final_state sec cfg empty_state
                                                 calls))))) as Hle.
    assert (Htok : Forall (fun e : tpm_member * Z => 0 <= snd (fst e))
                     (entries (live now (tpm_key (final_state sec cfg
                                                    empty_state calls))))).
    { apply Forall_forall. intros e He. rewrite Forall_forall in Hp.
      now apply Hp. }
    specialize (Hle Htok). lia.
Qed.

Lemma limiter_view_within_caps_witness :
  (0 <= get_current_rpm 1000 (mkConfig (Some 2) (Some 100)) 5000
          (final_state 1000 (mkConfig (Some 2) (Some 100)) empty_state
             [(1000, AcquireRequest); (1000, AcquireRequest);
              (900, AcquireTokens 70); (2000, AcquireTokens 70)]) <= 2)
  /\ (0 <= get_current_tpm 1000 (mkConfig (Some 2) (Some 100)) 5000
            (final_state 1000 (mkConfig (Some 2) (Some 100)) empty_state
               [(1000, AcquireRequest); (1000, AcquireRequest);
                (900, AcquireTokens 70); (2000, AcquireTokens 70)]) <= 100).
Proof.
  assert (H : Forall sound_call
                [(1000, AcquireRequest); (1000, AcquireRequest);
                 (900, AcquireTokens 70); (2000, AcquireTokens 70)]).
  { repeat constructor; cbn; lia. }
  split.
  - apply (proj1 (limiter_view_within_caps
                    1000 (mkConfig (Some 2) (Some 100)) _ 5000 H) 2);
      [reflexivity | lia].
  - apply (proj2 (limiter_view_within_caps
                    1000 (mkConfig (Some 2) (Some 100)) _ 5000 H) 100);
      [reflexivity | lia].
Defined.

(** *** The wait advised by a denial *)

Lemma granted_after_expiry sec cfg cap now' (es : list (Z * Z)) x tk :
  rpm_limit cfg = Some cap -> 0 < cap ->
  live now' (mkKey es x) = empty_key ->
  fst (snd (acquire_request sec cfg now' (mkState (mkKey es x) tk))) = true.
Proof.
  intros Hcfg Hcap Hlive. unfold acquire_request.
  rewrite Hcfg, truthy_int_Some by lia.
  cbv beta iota delta [negb limit_of rpm_key].
  rewrite Hlive. cbn [entries empty_key zremrangebyscore filter zcard
                             List.length Z.of_nat].
  destruct (0 <? cap) eqn:E; [reflexivity|]. apply Z.ltb_ge in E. lia.
Qed.

(** X10.  When [acquire_request] refuses a request, on a
    store built by any sequence of calls, the wait it returns is enough:
    it is not negative, and the same call made that much later is
    granted (nothing else having been granted meanwhile). *)
Theorem acquire_request_wait_suffices sec cfg cap calls now st' wait :
  rpm_limit cfg = Some cap -> 0 < cap -> Forall sound_call calls ->
  acquire_request sec cfg now (final_state sec cfg empty_state calls)
  = (st', (false, wait)) ->
  0 <= wait
  /\ fst (snd (acquire_request sec cfg (now + wait) st')) = true.
Proof.
  intros Hcfg Hcap Hcalls Hrun.
  pose proof (final_state_rpm_shape sec cfg cap calls Hcfg Hcap Hcalls
                empty_state (rpm_shape_empty cap ltac:(lia))) as Hshape.
  remember (final_state sec cfg empty_state calls) as st eqn:Est.
  clear Est.
  apply (rpm_shape_live cap now) in Hshape; [|lia].
  destruct Hshape as (Hs & Hp & Hc).
  unfold acquire_request in Hrun.
  rewrite Hcfg, truthy_int_Some in Hrun by lia.
  cbv beta iota delta [negb limit_of] in Hrun.
  remember (live now (rpm_key st)) as k eqn:Ek. clear Ek.
  remember (zremrangebyscore 0 (now - 60 * sec) (entries k)) as pruned
    eqn:Epruned.
  assert (Hps : StronglySorted by_score pruned)
    by (subst pruned; apply sorted_filter; exact Hs).
  assert (Hpp : Forall (fun e => 0 <= snd e) pruned)
    by (subst pruned; apply Forall_filter; exact Hp).
  assert (Hpl : zcard pruned <= cap).
  { subst pruned. unfold zcard, zremrangebyscore in *.
    pose proof (length_filter_le
                  (fun e : Z * Z => negb ((0 <=? snd e)
                                          && (snd e <=? now - 60 * sec)))
                  (entries k)). lia. }
  clear Epruned.
  destruct (zcard pruned <? cap) eqn:E; [discriminate Hrun|].
  apply Z.ltb_ge in E.
  destruct pruned as [|[m0 t0] rest].
  { unfold zcard in E. cbn in E. lia. }
  cbv beta iota delta [zrange_first hd_error] in Hrun.
  assert (Est' : st' = mkState (mkKey ((m0, t0) :: rest) (expire_at k))
                                (tpm_key st)) by congruence.
  assert (Ew : wait = Z.max 0 (t0 + 60 * sec - now)) by congruence.
  subst st' wait. clear Hrun. split; [lia|].
  destruct (live_cases (now + Z.max 0 (t0 + 60 * sec - now))
                       (mkKey ((m0, t0) :: rest) (expire_at k)))
    as [Hlive | Hlive].
  - unfold acquire_request.
    rewrite Hcfg, truthy_int_Some by lia.
    cbv beta iota delta [negb limit_of rpm_key].
    rewrite Hlive. cbn [entries zremrangebyscore filter].
    inversion Hpp as [|? ? Ht0 _]; subst. cbn [snd] in Ht0.
    assert (Hdrop : (0 <=? t0)
                    && (t0 <=? now + Z.max 0 (t0 + 60 * sec - now) - 60 * sec)
                    = true).
    { apply andb_true_iff. split; [apply Z.leb_le | apply Z.leb_le]; lia. }
    cbn [snd]. rewrite Hdrop. cbn [negb].
    match goal with
    | |- context [zcard (filter ?p rest)] =>
        pose proof (length_filter_le p rest) as Hlen
    end.
    unfold zcard in *. cbn [List.length] in Hpl.
    match goal with
    | |- fst (snd (if ?b then _ else _)) = true => destruct b eqn:G
    end; [reflexivity|].
    apply Z.ltb_ge in G. lia.
  - now apply (granted_after_expiry sec cfg cap).
Qed.

Lemma acquire_request_wait_suffices_witness :
  exists st' wait,
    acquire_request 1000 (mkConfig (Some 2) None) 30000
      (final_state 1000 (mkConfig (Some 2) None) empty_state
         [(10000, AcquireRequest); (20000, AcquireRequest)])
    = (st', (false, wait))
    /\ wait = 40000
    /\ fst (snd (acquire_request 1000 (mkConfig (Some 2) None)
                                 (30000 + wait) st')) = true.
Proof.
  eexists. exists 40000. split; [reflexivity|]. split; [reflexivity|].
  refine (proj2 (acquire_request_wait_suffices
                   1000 (mkConfig (Some 2) None) 2
                   [(10000, AcquireRequest); (20000, AcquireRequest)]
                   30000 _ 40000 eq_refl _ _ eq_refl)).
  - lia.
  - repeat constructor; cbn; lia.
Defined.

Lemma sum_tokens_app (a b : list (tpm_member * Z)) :
  sum_tokens (a ++ b)%list = sum_tokens a + sum_tokens b.
Proof.
  induction a as [|e a IH]; [reflexivity|].
  unfold sum_tokens in *. cbn [app fold_right]. rewrite IH. lia.
Qed.

Lemma sorted_before {A} (R : A -> A -> Prop) pre x post :
  StronglySorted R (pre ++ x :: post)%list -> Forall (fun e => R e x) pre.
Proof.
  induction pre as [|a pre IH]; cbn [app]; intros H; [constructor|].
  inversion H as [|? ? Hrest Ha]; subst. constructor.
  - rewrite Forall_forall in Ha. apply Ha. apply in_or_app. right. now left.
  - now apply IH.
Qed.

Lemma filter_none {A} (p : A -> bool) l :
  (forall e, In e l -> p e = false) -> filter p l = [].
Proof.
  induction l as [|a l IH]; cbn [filter]; intros H; [reflexivity|].
  rewrite (H a (or_introl eq_refl)). apply IH. intros e He. apply H.
  now right.
Qed.

(** The loop of [acquire_tokens] stops at the first entry with which
    enough tokens are freed. *)
Lemma wait_for_deficit_found sec now es :
  forall deficit freed,
    freed < deficit -> deficit <= freed + sum_tokens es ->
    exists pre m t post,
      es = (pre ++ (m, t) :: post)%list
      /\ wait_for_deficit sec deficit freed now es
         = Z.max 0 (t + 60 * sec - now)
      /\ deficit <= freed + sum_tokens pre + snd m.
Proof.
  induction es as [|[m t] r IH]; intros deficit freed Hlt Hle.
  - cbn in Hle. lia.
  - cbn [wait_for_deficit].
    destruct (deficit <=? freed + snd m) eqn:E.
    + apply Z.leb_le in E. exists [], m, t, r.
      split; [reflexivity|]. split; [reflexivity|]. cbn. lia.
    + apply Z.leb_gt in E.
      destruct (IH deficit (freed + snd m) E) as (pre & m' & t' & post & -> & Hw & Hd).
      { unfold sum_tokens in *. cbn [fold_right fst snd] in Hle. lia. }
      exists ((m, t) :: pre), m', t', post.
      split; [reflexivity|]. split; [exact Hw|].
      unfold sum_tokens in *. cbn [fold_right fst snd]. lia.
Qed.

(** X11.  When [acquire_tokens] refuses a reservation that
    fits under the cap, on a store built by any sequence of calls, the
    wait it returns is enough: it is not negative, and the same
    reservation made that much later is granted (nothing else having
    been granted meanwhile). *)
Theorem acquire_tokens_wait_suffices sec cfg cap calls n now st' wait :
  tpm_limit cfg = Some cap -> 0 < cap -> 0 <= n <= cap ->
  Forall sound_call calls ->
  acquire_tokens sec cfg n now (final_state sec cfg empty_state calls)
  = (st', (false, wait)) ->
  0 <= wait
  /\ fst (snd (acquire_tokens sec cfg n (now + wait) st')) = true.
Proof.
  intros Hcfg Hcap Hn Hcalls Hrun.
  pose proof (final_state_tpm_shape sec cfg cap calls Hcfg Hcap Hcalls
                empty_state (tpm_shape_empty cap ltac:(lia))) as Hshape.
  remember (final_state sec cfg empty_state calls) as st eqn:Est.
  clear Est.
  apply (tpm_shape_live cap now) in Hshape; [|lia].
  destruct Hshape as (Hs & Hp & Hc).
  unfold acquire_tokens in Hrun.
  rewrite Hcfg, truthy_int_Some in Hrun by lia.
  cbv beta iota delta [negb limit_of] in Hrun.
  remember (live now (tpm_key st)) as k eqn:Ek. clear Ek.
  remember (zremrangebyscore 0 (now - 60 * sec) (entries k)) as pruned
    eqn:Epruned.
  assert (Hps : StronglySorted by_score pruned)
    by (subst pruned; apply sorted_filter; exact Hs).
  assert (Hpp : Forall (fun e => 0 <= snd e /\ 0 <= snd (fst e)) pruned)
    by (subst pruned; apply Forall_filter; exact Hp).
  clear Epruned.
  destruct (sum_tokens pruned + n <=? cap) eqn:E; [discriminate Hrun|].
  apply Z.leb_gt in E.
  destruct (wait_for_deficit_found sec now pruned
              (sum_tokens pruned + n - cap) 0 ltac:(lia) ltac:(lia))
    as (pre & m & t & post & Epruned & Hw & Hd).
  rewrite Hw in Hrun.
  assert (Est' : st' = mkState (rpm_key st) (mkKey pruned (expire_at k)))
    by congruence.
  assert (Ew : wait = Z.max 0 (t + 60 * sec - now)) by congruence.
  subst st' wait. clear Hrun Hw. split; [lia|].
  unfold acquire_tokens.
  rewrite Hcfg, truthy_int_Some by lia.
  cbv beta iota delta [negb limit_of tpm_key].
  destruct (live_cases (now + Z.max 0 (t + 60 * sec - now))
                       (mkKey pruned (expire_at k))) as [Hlive | Hlive];
    rewrite Hlive; cbn [entries empty_key zremrangebyscore filter].
  - set (keep := fun e : tpm_member * Z =>
                   negb ((0 <=? snd e)
                         && (snd e <=? now + Z.max 0 (t + 60 * sec - now)
                                       - 60 * sec))).
    assert (Hdrop : forall e, In e (pre ++ [(m, t)])%list -> keep e = false).
    { intros e He. unfold keep. apply negb_false_iff, andb_true_iff.
      assert (He' : In e pruned).
      { rewrite Epruned. apply in_app_or in He. apply in_or_app.
        destruct He as [He | [<- | []]]; [now left | right; now left]. }
      rewrite Forall_forall in Hpp. destruct (Hpp e He') as [H0 _].
      assert (Hle : snd e <= t).
      { apply in_app_or in He. destruct He as [He | [<- | []]]; [|cbn; lia].
        rewrite Epruned in Hps. apply sorted_before in Hps.
        rewrite Forall_forall in Hps. exact (Hps e He). }
      split; apply Z.leb_le; [exact H0 | lia]. }
    assert (Hsplit : filter keep pruned = filter keep post).
    { rewrite Epruned.
      change (pre ++ (m, t) :: post)%list with (pre ++ ([(m, t)] ++ post))%list.
      rewrite app_assoc, filter_app, (filter_none keep _ Hdrop).
      reflexivity. }
    unfold zremrangebyscore. fold keep. rewrite Hsplit.
    assert (Hpost : Forall (fun e : tpm_member * Z => 0 <= snd (fst e)) post).
    { apply Forall_forall. intros e He. rewrite Forall_forall in Hpp.
      apply Hpp. rewrite Epruned. apply in_or_app. right. now right. }
    pose proof (sum_tokens_filter_le keep post Hpost) as Hle.
    assert (Hsum : sum_tokens pruned
                   = sum_tokens pre + snd m + sum_tokens post).
    { rewrite Epruned, sum_tokens_app. unfold sum_tokens.
      cbn [fold_right fst snd]. lia. }
    match goal with
    | |- fst (snd (if ?b then _ else _)) = true => destruct b eqn:G
    end; [reflexivity|].
    apply Z.leb_gt in G. lia.
  - cbn [sum_tokens fold_right].
    match goal with
    | |- fst (snd (if ?b then _ else _)) = true => destruct b eqn:G
    end; [reflexivity|].
    apply Z.leb_gt in G. lia.
Qed.

Lemma acquire_tokens_wait_suffices_witness :
  exists st' wait,
    acquire_tokens 1000 (mkConfig None (Some 100)) 50 30000
      (final_state 1000 (mkConfig None (Some 100)) empty_state
         [(10000, AcquireTokens 40); (20000, AcquireTokens 40)])
    = (st', (false, wait))
    /\ wait = 40000
    /\ fst (snd (acquire_tokens 1000 (mkConfig None (Some 100)) 50
                                (30000 + wait) st')) = true.
Proof.
  eexists. exists 40000. split; [reflexivity|]. split; [reflexivity|].
  refine (proj2 (acquire_tokens_wait_suffices
                   1000 (mkConfig None (Some 100)) 100
                   [(10000, AcquireTokens 40); (20000, AcquireTokens 40)]
                   50 30000 _ 40000 eq_refl _ _ _ eq_refl)).
  - lia.
  - lia.
  - repeat constructor; cbn; lia.
Defined.

(** *** What a call adds to the window *)

Lemma length_filter_zinsert {M} (p : M * Z -> bool) mltb m sc
      (z : list (M * Z)) :
  List.length (filter p (zinsert mltb m sc z))
  = ((if p (m, sc) then 1 else 0) + List.length (filter p z))%nat.
Proof.
  induction z as [|[m' sc'] r IH]; cbn [zinsert filter].
  - destruct (p (m, sc)); reflexivity.
  - destruct (_ || _); cbn [filter].
    + destruct (p (m, sc)), (p (m', sc')); cbn [List.length]; lia.
    + destruct (p (m', sc')); cbn [List.length]; rewrite IH; lia.
Qed.

Lemma live_members {M} (now : Z) (k : key_state M) m :
  In m (map fst (entries (live now k))) -> In m (map fst (entries k)).
Proof.
  destruct (live_cases now k) as [-> | ->]; [trivial | intros []].
Qed.

Lemma pruned_members {M} lo hi (z : list (M * Z)) m :
  In m (map fst (zremrangebyscore lo hi z)) -> In m (map fst z).
Proof.
  intros H. apply in_map_iff in H. destruct H as [e [<- He]].
  apply filter_In in He. apply in_map. tauto.
Qed.

(** X12.  Read back at the instant of the call, the window
    holds what it held plus what the call was granted: a granted request
    adds one to [get_current_rpm], a granted reservation adds its token
    count to [get_current_tpm], and a refused call adds nothing.  (The
    store must not already hold a member written at this very instant
    for the same amount.) *)
Theorem acquire_accounting sec cfg now st :
  0 < sec ->
  (truthy_int (rpm_limit cfg) = true ->
   ~ In now (map fst (entries (rpm_key st))) ->
   get_current_rpm sec cfg now (fst (acquire_request sec cfg now st))
   = get_current_rpm sec cfg now st
     + (if fst (snd (acquire_request sec cfg now st)) then 1 else 0))
  /\ (forall n,
        truthy_int (tpm_limit cfg) = true ->
        ~ In (now, n) (map fst (entries (tpm_key st))) ->
        get_current_tpm sec cfg now (fst (acquire_tokens sec cfg n now st))
        = get_current_tpm sec cfg now st
          + (if fst (snd (acquire_tokens sec cfg n now st)) then n else 0)).
Proof.
  intros Hsec. split.
  - intros Hcfg Hfresh. unfold get_current_rpm, acquire_request.
    rewrite Hcfg. cbv beta iota delta [negb].
    remember (live now (rpm_key st)) as k eqn:Ek.
    remember (zremrangebyscore 0 (now - 60 * sec) (entries k)) as pruned
      eqn:Epruned.
    assert (Hnew : ~ In now (map fst pruned)).
    { intros H. apply Hfresh. subst pruned k.
      apply pruned_members in H. now apply live_members in H. }
    assert (Hidem : zremrangebyscore 0 (now - 60 * sec) pruned = pruned).
    { subst pruned. unfold zremrangebyscore. apply filter_twice. }
    destruct (zcard pruned <? limit_of (rpm_limit cfg));
      cbv beta iota delta [fst snd rpm_key].
    + rewrite live_keeps with (x := now + 61 * sec)
        by (first [reflexivity | lia]).
      cbv beta iota delta [entries]. unfold zadd.
      rewrite (zrem_member_absent rpm_eqb rpm_eqb_spec now pruned Hnew).
      unfold zcard. unfold zremrangebyscore at 1.
      rewrite length_filter_zinsert.
      change (filter _ pruned) with (zremrangebyscore 0 (now - 60 * sec) pruned).
      rewrite Hidem. cbn [snd].
      assert (G : (0 <=? now) && (now <=? now - 60 * sec) = false).
      { apply andb_false_iff. right. apply Z.leb_gt. lia. }
      rewrite G. cbn [negb]. lia.
    + subst k. rewrite live_again. cbv beta iota delta [entries].
      rewrite Hidem. lia.
  - intros n Hcfg Hfresh. unfold get_current_tpm, acquire_tokens.
    rewrite Hcfg. cbv beta iota delta [negb].
    remember (live now (tpm_key st)) as k eqn:Ek.
    remember (zremrangebyscore 0 (now - 60 * sec) (entries k)) as pruned
      eqn:Epruned.
    assert (Hnew : ~ In (now, n) (map fst pruned)).
    { intros H. apply Hfresh. subst pruned k.
      apply pruned_members in H. now apply live_members in H. }
    assert (Hidem : zremrangebyscore 0 (now - 60 * sec) pruned = pruned).
    { subst pruned. unfold zremrangebyscore. apply filter_twice. }
    destruct (sum_tokens pruned + n <=? limit_of (tpm_limit cfg));
      cbv beta iota delta [fst snd tpm_key].
    + rewrite live_keeps with (x := now + 61 * sec)
        by (first [reflexivity | lia]).
      cbv beta iota delta [entries]. unfold zadd.
      rewrite (zrem_member_absent tpm_eqb tpm_eqb_spec (now, n) pruned Hnew).
      unfold zremrangebyscore at 1.
      rewrite sum_tokens_filter_zinsert.
      change (filter _ pruned) with (zremrangebyscore 0 (now - 60 * sec) pruned).
      rewrite Hidem. cbn [snd].
      assert (G : (0 <=? now) && (now <=? now - 60 * sec) = false).
      { apply andb_false_iff. right. apply Z.leb_gt. lia. }
      rewrite G. cbn [negb]. lia.
    + subst k. rewrite live_again. cbv beta iota delta [entries].
      rewrite Hidem. lia.
Qed.

Lemma acquire_accounting_witness :
  get_current_tpm 1000 (mkConfig None (Some 100)) 20000
    (fst (acquire_tokens 1000 (mkConfig None (Some 100)) 30 20000
            (final_state 1000 (mkConfig None (Some 100)) empty_state
               [(10000, AcquireTokens 40)])))
  = 40 + 30.
Proof.
  rewrite (proj2 (acquire_accounting
                    1000 (mkConfig None (Some 100)) 20000
                    (final_state 1000 (mkConfig None (Some 100)) empty_state
                       [(10000, AcquireTokens 40)])
                    ltac:(lia)) 30 eq_refl).
  - reflexivity.
  - cbn. intros [H | []]. discriminate H.
Defined.

(** *** A limiter without caps *)

(** X13.  A cap that is absent or zero is no cap: with
    both caps so, every call of any sequence is granted at no wait, the
    store is never written, and the limiter reports empty windows. *)
Theorem limiter_without_caps sec cfg calls st :
  truthy_int (rpm_limit cfg) = false ->
  truthy_int (tpm_limit cfg) = false ->
  all_granted (run sec cfg st calls) = true
  /\ final_state sec cfg st calls = st
  /\ forall now, get_current_rpm sec cfg now st = 0
                 /\ get_current_tpm sec cfg now st = 0.
Proof.
  intros Hr Ht.
  assert (Hstep : forall now c, step sec cfg now c st = (st, (true, 0))).
  { intros now [|n]; cbn [step]; unfold acquire_request, acquire_tokens;
      [rewrite Hr | rewrite Ht]; reflexivity. }
  split; [|split].
  - induction calls as [|[now c] rest IH]; [reflexivity|].
    cbn [run]. rewrite Hstep. cbn [all_granted forallb fst snd andb].
    exact IH.
  - induction calls as [|[now c] rest IH]; [reflexivity|].
    cbn [final_state]. rewrite Hstep. exact IH.
  - intros now. unfold get_current_rpm, get_current_tpm.
    rewrite Hr, Ht. split; reflexivity.
Qed.

Lemma limiter_without_caps_witness :
  all_granted (run 1000 (mkConfig (Some 0) None) empty_state
                   [(5, AcquireRequest); (5, AcquireTokens 1000000)]) = true.
Proof.
  apply (limiter_without_caps 1000 (mkConfig (Some 0) None)); reflexivity.
Defined.
End LimiterFacts.

(** * Sentences and base chunks *)

Module ChunkerFacts.
Import Py PyM Chunking ChunkingShape.
Local Open Scope Z_scope.

(** *** Stripping *)

Lemma rstrip_head c s :
  is_space c = false -> rstrip (String c s) = String c (rstrip s).
Proof.
  intros H. cbn [rstrip]. destruct (rstrip s); [now rewrite H | reflexivity].
Qed.

Lemma rstrip_idempotent s : rstrip (rstrip s) = rstrip s.
Proof.
  induction s as [|c s IH]; [reflexivity|].
  cbn [rstrip]. destruct (rstrip s) as [|d r] eqn:E.
  - destruct (is_space c) eqn:Ec; [reflexivity|].
    cbn [rstrip]. now rewrite Ec.
  - cbn [rstrip]. cbn [rstrip] in IH.
    destruct (match rstrip r with
              | EmptyString => if is_space d then EmptyString
                               else String d EmptyString
              | String a s0 => String d (String a s0)
              end) eqn:F; [discriminate IH|].
    now rewrite IH.
Qed.

Lemma lstrip_cases s :
  lstrip s = EmptyString
  \/ exists c t, lstrip s = String c t /\ is_space c = false.
Proof.
  induction s as [|c s IH]; [now left|].
  cbn [lstrip]. destruct (is_space c) eqn:E; [exact IH|].
  right. now exists c, s.
Qed.

Lemma lstrip_empty s : lstrip s = EmptyString <-> all_space s = true.
Proof.
  induction s as [|c s IH]; [cbn; tauto|].
  cbn [lstrip all_space]. destruct (is_space c); cbn [andb]; [exact IH|].
  split; discriminate.
Qed.

Lemma strip_idempotent s : strip (strip s) = strip s.
Proof.
  unfold strip. destruct (lstrip_cases s) as [-> | (c & t & -> & Hc)];
    [reflexivity|].
  rewrite (rstrip_head c t Hc). cbn [lstrip]. rewrite Hc.
  rewrite <- (rstrip_head c t Hc). apply rstrip_idempotent.
Qed.

Lemma strip_empty s : strip s = EmptyString <-> all_space s = true.
Proof.
  unfold strip. rewrite <- lstrip_empty.
  destruct (lstrip_cases s) as [-> | (c & t & -> & Hc)]; [cbn; tauto|].
  rewrite (rstrip_head c t Hc). split; discriminate.
Qed.

Lemma nonempty_true s : nonempty s = true <-> s <> EmptyString.
Proof.
  unfold nonempty. destruct s; cbn; split; congruence.
Qed.

Lemma space_not_sentence_end c :
  is_space c = true -> is_sentence_end c = false.
Proof.
  destruct c as [[] [] [] [] [] [] [] []]; vm_compute;
    intros H; first [reflexivity | discriminate H].
Qed.

Lemma all_space_reversed a :
  forall acc,
    all_space ((fix rev (a acc : string) : string :=
                  match a with
                  | EmptyString => acc
                  | String c a' => rev a' (String c acc)
                  end) a acc)
    = all_space a && all_space acc.
Proof.
  induction a as [|c a IH]; intros acc; [reflexivity|].
  rewrite IH. cbn [all_space].
  destruct (is_space c), (all_space a), (all_space acc); reflexivity.
Qed.

Lemma re_split_blank s :
  forall cur,
    all_space s = true -> all_space cur = true ->
    exists piece,
      re_split_sentences false false cur s = [piece]
      /\ all_space piece = true.
Proof.
  induction s as [|c s IH]; intros cur Hs Hcur.
  - cbn [re_split_sentences]. eexists. split; [reflexivity|].
    rewrite all_space_reversed, Hcur. reflexivity.
  - cbn [all_space] in Hs. apply andb_true_iff in Hs. destruct Hs as [Hc Hs].
    cbn [re_split_sentences]. rewrite Hc. cbn [andb].
    rewrite (space_not_sentence_end c Hc).
    apply IH; [exact Hs|]. cbn [all_space]. now rewrite Hc, Hcur.
Qed.

Lemma sentences_each_stripped text :
  Forall (fun s => s <> EmptyString /\ strip s = s)
         (_split_into_sentences text).
Proof.
  unfold _split_into_sentences. apply Forall_forall. intros s Hs.
  apply in_map_iff in Hs. destruct Hs as (p & <- & Hp).
  apply filter_In in Hp. destruct Hp as [_ Hp].
  split; [now apply nonempty_true | apply strip_idempotent].
Qed.

(** X14.  Every sentence that
    [_split_into_sentences] returns is non-empty and carries no leading
    or trailing whitespace; a text of whitespace only has no sentence
    at all. *)
Theorem split_into_sentences_stripped text :
  Forall (fun s => s <> EmptyString /\ strip s = s)
         (_split_into_sentences text)
  /\ (all_space text = true -> _split_into_sentences text = []).
Proof.
  split; [apply sentences_each_stripped|].
  intros Hsp. unfold _split_into_sentences.
    destruct (re_split_blank text EmptyString Hsp eq_refl)
      as (piece & -> & Hpiece).
    apply strip_empty in Hpiece. cbn [filter]. rewrite Hpiece.
    reflexivity.
Qed.

Lemma split_into_sentences_stripped_witness :
  _split_into_sentences (String (ascii_of_nat 9) "  ") = [].
Proof.
  apply (proj2 (split_into_sentences_stripped (String (ascii_of_nat 9) "  "))).
  reflexivity.
Defined.

(** *** Packing sentences into base chunks *)

Lemma len_append a b : len (a ++ b) = len a + len b.
Proof.
  unfold len. induction a as [|c a IH];
    cbn [String.append String.length]; lia.
Qed.

Lemma len_nonneg s : 0 <= len s.
Proof. unfold len. lia. Qed.

Lemma len_pos s : s <> EmptyString -> 1 <= len s.
Proof. unfold len. destruct s; [congruence | cbn; lia]. Qed.

Lemma len_zero s : len s = 0 -> s = EmptyString.
Proof. unfold len. destruct s; [reflexivity | cbn; lia]. Qed.

Lemma width_cons s l : width (s :: l) = len s + 1 + width l.
Proof. reflexivity. Qed.

Lemma width_nil : width [] = 0.
Proof. reflexivity. Qed.

Lemma width_nonneg l : 0 <= width l.
Proof.
  induction l as [|s l IH]; [rewrite width_nil; lia|].
  rewrite width_cons. pose proof (len_nonneg s). lia.
Qed.

Lemma width_app a b : width (a ++ b)%list = width a + width b.
Proof.
  induction a as [|s a IH]; [rewrite width_nil; reflexivity|].
  cbn [app]. rewrite !width_cons, IH. lia.
Qed.

Lemma width_rev l : width (rev l) = width l.
Proof.
  induction l as [|s l IH]; [reflexivity|].
  cbn [rev]. rewrite width_app, IH, !width_cons, width_nil. lia.
Qed.

Lemma len_join l : l <> [] -> len (join " " l) = width l - 1.
Proof.
  induction l as [|s l IH]; [congruence|]. intros _.
  destruct l as [|s' l].
  - cbn [join]. rewrite width_cons, width_nil. lia.
  - change (join " " (s :: s' :: l)) with (s ++ " " ++ join " " (s' :: l)).
    rewrite !len_append, IH by discriminate.
    change (len " ") with 1. rewrite (width_cons s). lia.
Qed.

Section Packing.
Variable svc : service.

Lemma overlap_of_width r :
  forall t acc,
    width (fst (overlap_of svc r t acc)) <= width r + width acc.
Proof.
  induction r as [|s r IH]; intros t acc; cbn [overlap_of].
  - cbn [fst]. rewrite width_nil. lia.
  - destruct (_ <? _).
    + cbn [fst]. pose proof (width_nonneg (s :: r)). lia.
    + specialize (IH (t + _estimate_tokens s) (s :: acc)).
      rewrite !width_cons in *. lia.
Qed.

Lemma overlap_of_Forall (P : string -> Prop) r :
  forall t acc,
    Forall P r -> Forall P acc -> Forall P (fst (overlap_of svc r t acc)).
Proof.
  induction r as [|s r IH]; intros t acc Hr Hacc; cbn [overlap_of];
    [exact Hacc|].
  inversion Hr as [|? ? Hs Hr']; subst.
  destruct (_ <? _); [exact Hacc|].
  apply IH; [exact Hr' | now constructor].
Qed.

Lemma overlap_of_tokens r :
  forall t acc,
    0 <= t <= chunk_overlap svc ->
    0 <= snd (overlap_of svc r t acc) <= chunk_overlap svc.
Proof.
  induction r as [|s r IH]; intros t acc Ht; cbn [overlap_of];
    [exact Ht|].
  destruct (chunk_overlap svc <? t + _estimate_tokens s) eqn:E;
    [exact Ht|].
  apply Z.ltb_ge in E. apply IH.
  assert (0 <= _estimate_tokens s).
  { unfold _estimate_tokens. apply Z.div_pos; [apply len_nonneg | lia]. }
  lia.
Qed.

Lemma overlap_of_empty r t acc :
  fst (overlap_of svc r t acc) = [] -> acc = [].
Proof.
  revert t acc. induction r as [|s r IH]; intros t acc; cbn [overlap_of];
    [trivial|].
  destruct (_ <? _); [trivial|]. intros H. apply IH in H. discriminate H.
Qed.

Lemma overlap_of_start r t :
  fst (overlap_of svc r t []) = [] -> snd (overlap_of svc r t []) = t.
Proof.
  destruct r as [|s r]; cbn [overlap_of]; [reflexivity|].
  destruct (_ <? _); [reflexivity|].
  intros H. apply overlap_of_empty in H. discriminate H.
Qed.

Lemma close_chunk_good p :
  current_chunk p <> [] -> packed p -> good_span (close_chunk p).
Proof.
  intros Hne (Hw & Hs & _). unfold good_span, close_chunk.
  cbn [b_char_start b_char_end b_text].
  pose proof (len_join (current_chunk p) Hne) as Hl.
  assert (Hfirst : 2 <= width (current_chunk p)).
  { destruct (current_chunk p) as [|s l]; [congruence|].
    inversion Hs as [|? ? Hs0 _]; subst.
    pose proof (len_pos s Hs0). pose proof (width_nonneg l).
    rewrite width_cons. lia. }
  split; [lia|]. split; [lia|].
  intros E. rewrite E in Hl. change (len "") with 0 in Hl. lia.
Qed.

Lemma pack_sentence_packed p sentence :
  sentence <> EmptyString -> packed p ->
  packed (pack_sentence svc p sentence)
  /\ current_chunk (pack_sentence svc p sentence) <> []
  /\ (List.length (chunks (pack_sentence svc p sentence))
      <= S (List.length (chunks p)))%nat
  /\ (current_chunk p = [] ->
      chunks (pack_sentence svc p sentence) = chunks p).
Proof.
  intros Hsent Hp. pose proof Hp as (Hw & Hs & Hg & Hsorted & Hends).
  unfold pack_sentence.
  pose proof (len_pos sentence Hsent) as Hlen.
  destruct ((chunk_size svc <? current_tokens p + _estimate_tokens sentence)
            && negb match current_chunk p with
                    | [] => true
                    | _ :: _ => false
                    end) eqn:Hclose.
  - apply andb_true_iff in Hclose. destruct Hclose as [_ Hne].
    assert (Hne' : current_chunk p <> [])
      by (destruct (current_chunk p); [discriminate Hne | discriminate]).
    destruct (overlap_of svc (rev (current_chunk p)) 0 []) as [os ot] eqn:Eo.
    cbn [chunks current_chunk current_tokens char_position].
    pose proof (overlap_of_width (rev (current_chunk p)) 0 []) as How.
    rewrite Eo, width_rev, width_nil in How. cbn [fst] in How.
    assert (Hos : Forall (fun s => s <> EmptyString) os).
    { pose proof (overlap_of_Forall (fun s => s <> EmptyString)
                    (rev (current_chunk p)) 0 []) as H.
      rewrite Eo in H. apply H; [|constructor].
      apply Forall_forall. intros x Hx. apply in_rev in Hx.
      rewrite Forall_forall in Hs. now apply Hs. }
    pose proof Hends as Hold.
    split; [|split; [|split]].
    + unfold packed.
      cbn [chunks current_chunk current_tokens char_position].
      split; [|split; [|split; [|split]]].
      * rewrite width_app, width_cons, width_nil. lia.
      * apply Forall_app. split; [exact Hos | now repeat constructor].
      * apply Forall_app. split; [exact Hg|].
        constructor; [|constructor]. now apply close_chunk_good.
      * clear - Hsorted Hold.
        induction Hsorted as [|b l Hl IH Hb]; cbn [app].
        -- constructor; constructor.
        -- inversion Hold as [|? ? Hb0 Hold']; subst.
           constructor; [now apply IH|].
           apply Forall_app. split; [exact Hb|].
           constructor; [|constructor]. exact Hb0.
      * apply Forall_app. split.
        -- apply Forall_forall. intros b Hb.
           rewrite Forall_forall in Hold. specialize (Hold b Hb). lia.
        -- constructor; [|constructor].
           unfold close_chunk. cbn [b_char_end]. lia.
    + destruct os; discriminate.
    + rewrite length_app. cbn [List.length]. lia.
    + intros H. contradiction.
  - cbn [chunks current_chunk current_tokens char_position].
    split; [|split; [|split]].
    + unfold packed.
      cbn [chunks current_chunk current_tokens char_position].
      split; [|split; [|split; [|split]]].
      * rewrite width_app, width_cons, width_nil. lia.
      * apply Forall_app. split; [exact Hs | now repeat constructor].
      * exact Hg.
      * exact Hsorted.
      * apply Forall_forall. intros b Hb.
        rewrite Forall_forall in Hends. specialize (Hends b Hb). lia.
    + destruct (current_chunk p); discriminate.
    + lia.
    + reflexivity.
Qed.

Lemma fold_packed l :
  forall p,
    Forall (fun s => s <> EmptyString) l -> packed p ->
    packed (fold_left (pack_sentence svc) l p)
    /\ (l <> [] -> current_chunk (fold_left (pack_sentence svc) l p) <> [])
    /\ (List.length (chunks (fold_left (pack_sentence svc) l p))
        <= List.length (chunks p) + List.length l)%nat.
Proof.
  induction l as [|s l IH]; intros p Hl Hp; cbn [fold_left].
  - split; [exact Hp|]. split; [congruence | cbn; lia].
  - inversion Hl as [|? ? Hs Hl']; subst.
    destruct (pack_sentence_packed p s Hs Hp) as (Hp1 & Hne & Hlen & _).
    destruct (IH _ Hl' Hp1) as (Hp2 & Hne2 & Hlen2).
    split; [exact Hp2|]. split.
    + intros _. destruct l as [|s' l]; [exact Hne|].
      apply Hne2. discriminate.
    + cbn [List.length]. lia.
Qed.

Lemma packed_start : packed (mkPack [] [] 0 0).
Proof.
  unfold packed. cbn [chunks current_chunk char_position].
  rewrite width_nil.
  repeat (split; [first [lia | constructor]|]). constructor.
Qed.

Lemma sorted_snoc (l : list base_chunk) b :
  StronglySorted ends_before l ->
  Forall (fun a => b_char_end a < b_char_end b) l ->
  StronglySorted ends_before (l ++ [b]).
Proof.
  induction 1 as [|a l Hl IH Ha]; intros Hb; cbn [app].
  - constructor; constructor.
  - inversion Hb as [|? ? Hab Hb']; subst.
    constructor; [now apply IH|].
    apply Forall_app. split; [exact Ha|].
    constructor; [exact Hab | constructor].
Qed.

(** X15.  The base chunks of a text: there is none
    exactly when the text has no sentence, and never more than there
    are sentences; every chunk has a non-empty text, a span as long as
    its text, and a start offset of at least 1 (the offsets count one
    separator after every sentence, the last included); the end
    offsets strictly increase from one chunk to the next. *)
Theorem create_chunks_layout text :
  Forall good_span (_create_chunks_with_boundaries svc text)
  /\ StronglySorted ends_before (_create_chunks_with_boundaries svc text)
  /\ (List.length (_create_chunks_with_boundaries svc text)
      <= List.length (_split_into_sentences text))%nat
  /\ (_create_chunks_with_boundaries svc text = []
      <-> _split_into_sentences text = []).
Proof.
  pose proof (sentences_each_stripped text) as Hs.
  assert (Hne : Forall (fun s => s <> EmptyString)
                       (_split_into_sentences text)).
  { apply Forall_forall. intros s H. rewrite Forall_forall in Hs.
    now apply Hs. }
  clear Hs. unfold _create_chunks_with_boundaries.
  destruct (_split_into_sentences text) as [|s l] eqn:E.
  - cbn [fold_left current_chunk chunks List.length].
    split; [constructor|]. split; [constructor|]. split; [lia | tauto].
  - cbn [fold_left]. inversion Hne as [|? ? Hs Hl]; subst.
    destruct (pack_sentence_packed (mkPack [] [] 0 0) s Hs packed_start)
      as (Hp1 & Hne1 & _ & Hsame).
    specialize (Hsame eq_refl). cbn [chunks] in Hsame.
    destruct (fold_packed l _ Hl Hp1) as (Hp & Hcur & Hlen).
    rewrite Hsame in Hlen. cbn [List.length] in Hlen.
    set (p := fold_left (pack_sentence svc) l
                        (pack_sentence svc (mkPack [] [] 0 0) s)) in *.
    assert (Hcur' : current_chunk p <> []).
    { destruct l as [|s' l]; [exact Hne1 | apply Hcur; discriminate]. }
    pose proof (close_chunk_good p Hcur' Hp) as Hgood.
    destruct Hp as (_ & _ & Hg & Hsorted & Hends).
    destruct (current_chunk p) as [|c cc] eqn:Ec; [congruence|].
    split; [|split; [|split]].
    + apply Forall_app. split; [exact Hg|].
      constructor; [exact Hgood | constructor].
    + apply sorted_snoc; [exact Hsorted|]. exact Hends.
    + rewrite length_app. cbn [List.length]. lia.
    + split; [|discriminate].
      intros H. apply app_eq_nil in H. destruct H as [_ H]. discriminate H.
Qed.

Lemma estimate_nonneg s : 0 <= _estimate_tokens s.
Proof.
  unfold _estimate_tokens. apply Z.div_pos; [apply len_nonneg | lia].
Qed.

Lemma pack_sentence_budget p sentence :
  0 <= chunk_overlap svc ->
  _estimate_tokens sentence <= chunk_size svc - chunk_overlap svc ->
  within_budget svc p -> within_budget svc (pack_sentence svc p sentence).
Proof.
  intros Hov Hs (Ht & Hempty & Hc).
  pose proof (estimate_nonneg sentence) as Hpos.
  unfold pack_sentence.
  destruct (chunk_size svc <? current_tokens p + _estimate_tokens sentence)
    eqn:Eover; cbn [andb].
  - destruct (current_chunk p) as [|c cc] eqn:Ecur; cbn [negb].
    + unfold within_budget.
      cbn [chunks current_chunk current_tokens char_position].
      rewrite (Hempty eq_refl).
      split; [lia|]. split; [|exact Hc].
      intros H. apply app_eq_nil in H. destruct H as [_ H]. discriminate H.
    + destruct (overlap_of svc (rev (c :: cc)) 0 []) as [os ot] eqn:Eo.
      pose proof (overlap_of_tokens (rev (c :: cc)) 0 [] ltac:(lia)) as Hot.
      rewrite Eo in Hot. cbn [snd] in Hot.
      unfold within_budget.
      cbn [chunks current_chunk current_tokens char_position].
      split; [lia|]. split.
      * intros H. apply app_eq_nil in H. destruct H as [_ H].
        discriminate H.
      * apply Forall_app. split; [exact Hc|].
        constructor; [|constructor].
        unfold close_chunk. cbn [b_token_count]. exact Ht.
  - apply Z.ltb_ge in Eover. unfold within_budget.
    cbn [chunks current_chunk current_tokens char_position].
    split; [lia|]. split; [|exact Hc].
    intros H. apply app_eq_nil in H. destruct H as [_ H]. discriminate H.
Qed.

(** X16.  With a non-negative overlap, and no sentence
    estimated above the chunk size less the overlap, every base chunk
    stays within the chunk size: its token count lies between 0 and
    [chunk_size]. *)
Theorem create_chunks_within_budget text :
  0 <= chunk_overlap svc ->
  Forall (fun s => _estimate_tokens s <= chunk_size svc - chunk_overlap svc)
         (_split_into_sentences text) ->
  Forall (fun b => 0 <= b_token_count b <= chunk_size svc)
         (_create_chunks_with_boundaries svc text).
Proof.
  intros Hov Hs. unfold _create_chunks_with_boundaries.
  destruct (_split_into_sentences text) as [|s0 l0] eqn:E;
    [constructor|].
  assert (Hsize : 0 <= chunk_size svc).
  { inversion Hs as [|? ? H0 _]; subst.
    pose proof (estimate_nonneg s0). lia. }
  assert (H : forall l p,
             Forall (fun s => _estimate_tokens s
                              <= chunk_size svc - chunk_overlap svc) l ->
             within_budget svc p ->
             within_budget svc (fold_left (pack_sentence svc) l p)).
  { induction l as [|s l IH]; intros p Hl Hp; [exact Hp|].
    inversion Hl as [|? ? H1 H2]; subst. cbn [fold_left].
    apply IH; [exact H2|]. now apply pack_sentence_budget. }
  specialize (H (s0 :: l0) (mkPack [] [] 0 0) Hs).
  destruct H as (Ht & _ & Hc).
  { unfold within_budget. cbn [chunks current_chunk current_tokens].
    split; [lia|]. split; [reflexivity | constructor]. }
  destruct (current_chunk _); [exact Hc|].
  apply Forall_app. split; [exact Hc|].
  constructor; [|constructor]. unfold close_chunk.
  cbn [b_token_count]. exact Ht.
Qed.
End Packing.

Lemma create_chunks_within_budget_witness :
  Forall (fun b => 0 <= b_token_count b <= 3)
         (_create_chunks_with_boundaries
            (mkService 3 1 2 (RateLimiter.mkConfig None (Some 1000)))
            "One two. Three four! Five six? Seven.").
Proof.
  apply (create_chunks_within_budget
           (mkService 3 1 2 (RateLimiter.mkConfig None (Some 1000)))
           "One two. Three four! Five six? Seven.").
  - cbn. lia.
  - vm_compute. repeat constructor; discriminate.
Defined.

Example create_chunks_sample :
  map base_fields
      (_create_chunks_with_boundaries
         (mkService 3 1 2 (RateLimiter.mkConfig None (Some 1000)))
         "One two. Three four! Five six? Seven.")
  = [("One two.", 1, 9, 2); ("Three four!", 10, 21, 2);
     ("Five six? Seven.", 22, 38, 3)].
Proof. reflexivity. Qed.
End ChunkerFacts.

(** * The chunker end to end *)

Module ChunkDocumentFacts.
Import Py PyM Chunking ChunkingShape ChunkingFacts ChunkerFacts.
Local Open Scope Z_scope.

Section Requests.
Variable sec : Z.
Variable svc : service.
Variable env : environment.

Lemma reserve_llm_calls n remaining :
  forall attempts w w' r,
    reserve sec svc env n remaining attempts w = (w', r) ->
    llm_calls w' = llm_calls w.
Proof.
  induction remaining as [|remaining IH]; intros attempts w w' r H.
  - cbn [reserve] in H. unfold ret in H. now inversion H.
  - cbn [reserve] in H. unfold bind at 1 in H.
    unfold acquire_tokens at 1 in H.
    destruct (RateLimiter.acquire_tokens _ _ _ _ _) as [st [can wait]].
    destruct can.
    + unfold ret in H. inversion H. reflexivity.
    + unfold bind at 1 in H. unfold bind at 1 in H.
      unfold sleep, log, modify in H.
      apply IH in H. rewrite H. reflexivity.
Qed.

Lemma generate_chunk_context_calls d c t first w w' r :
  _generate_chunk_context sec svc env d c t first w = (w', r) ->
  (llm_calls w <= llm_calls w')%nat
  /\ (forall x, r = Ok x -> llm_calls w' = S (llm_calls w)).
Proof.
  unfold _generate_chunk_context. unfold bind at 1.
  destruct (reserve sec svc env _ max_wait_attempts 0 w)
    as [w1 [attempts| |]] eqn:R; apply reserve_llm_calls in R.
  - destruct (max_wait_attempts <=? attempts)%nat.
    + unfold raise. intros H. inversion H. subst.
      split; [lia | discriminate].
    + unfold messages_create.
      destruct (llm env (llm_calls w1) _ _); intros H; inversion H; subst;
        cbn [llm_calls]; (split; [lia|]); intros x Hx;
        first [discriminate Hx | lia].
  - intros H. inversion H. subst. split; [lia | discriminate].
  - intros H. inversion H. subst. split; [lia | discriminate].
Qed.

Lemma sleep_calls ticks w : llm_calls (fst (sleep ticks w)) = llm_calls w.
Proof. reflexivity. Qed.

Lemma gather_wave_calls d t batch :
  forall i w w' r,
    gather_wave sec svc env d t i batch w = (w', r) ->
    (llm_calls w <= llm_calls w')%nat
    /\ (forall xs, r = Ok xs ->
          List.length xs = List.length batch
          /\ llm_calls w' = (llm_calls w + List.length batch)%nat).
Proof.
  induction batch as [|c batch IH]; intros i w w' r H.
  - cbn [gather_wave] in H. unfold ret in H. inversion H. subst.
    split; [lia|]. intros xs Hx. inversion Hx. subst. cbn. lia.
  - cbn [gather_wave] in H. unfold bind at 1 in H.
    assert (Hw : exists w0, when (0 <? i)
                                 (sleep (i * stagger_delay_ms * sec / 1000)) w
                            = (w0, Ok tt)
                            /\ llm_calls w0 = llm_calls w).
    { destruct (0 <? i); cbn [when]; eexists; split; reflexivity. }
    destruct Hw as (w0 & Hw & Hw0). rewrite Hw in H.
    unfold bind at 1 in H.
    destruct (_generate_chunk_context sec svc env d (b_text c) t false w0)
      as [w1 [x| |]] eqn:G;
      apply generate_chunk_context_calls in G; destruct G as [G1 G2].
    + specialize (G2 x eq_refl). unfold bind at 1 in H.
      destruct (gather_wave sec svc env d t (i + 1) batch w1)
        as [w2 [xs| |]] eqn:W; apply IH in W; destruct W as [W1 W2].
      * destruct (W2 xs eq_refl) as [W3 W4].
        unfold ret in H. inversion H. subst.
        split; [lia|]. intros ys Hy. inversion Hy. subst.
        cbn [List.length]. lia.
      * inversion H. subst. split; [lia | discriminate].
      * inversion H. subst. split; [lia | discriminate].
    + inversion H. subst. split; [lia | discriminate].
    + inversion H. subst. split; [lia | discriminate].
Qed.

Lemma py_slice_length {A} (l : list A) a b :
  0 <= a <= b -> b <= Z.of_nat (List.length l) ->
  Z.of_nat (List.length (py_slice l a b)) = b - a.
Proof.
  intros Hab Hb. unfold py_slice, slice_index.
  destruct (a <? 0) eqn:Ea; [apply Z.ltb_lt in Ea; lia|].
  destruct (b <? 0) eqn:Eb; [apply Z.ltb_lt in Eb; lia|].
  rewrite length_firstn, length_skipn. lia.
Qed.

Lemma build_chunks_fields bs :
  forall cs i w w' chunks,
    List.length bs = List.length cs ->
    build_chunks i bs cs w = (w', Ok chunks) ->
    w' = w
    /\ map chunk_fields chunks = map base_fields bs
    /\ map chunk_index chunks = indices i (List.length bs)
    /\ map context chunks = cs
    /\ Forall (fun c => Chunk_valid c = true) chunks.
Proof.
  induction bs as [|b bs IH]; intros cs i w w' chunks Hlen H.
  - destruct cs; [|discriminate Hlen].
    cbn [build_chunks] in H. unfold ret in H. inversion H. subst.
    repeat split; constructor.
  - destruct cs as [|c cs]; [discriminate Hlen|].
    cbn [build_chunks] in H. unfold bind at 1 in H.
    unfold Chunk_new in H.
    destruct (Chunk_valid _) eqn:V; [|unfold raise in H; discriminate H].
    unfold ret at 1 in H. unfold bind at 1 in H.
    destruct (build_chunks (i + 1) bs cs w) as [w1 [rest| |]] eqn:B;
      try discriminate H.
    destruct (IH cs (i + 1) w w1 rest ltac:(cbn in Hlen; lia) B)
      as (-> & Hf & Hi & Hc & Hv).
    unfold ret in H. inversion H. subst.
    split; [reflexivity|]. cbn [map List.length indices].
    rewrite Hf, Hi.
    split; [reflexivity|]. split; [reflexivity|]. split; [reflexivity|].
    constructor; [exact V | exact Hv].
Qed.

Hypothesis batch_size_pos : 0 < max_concurrent_requests svc.

Lemma wave_loop_result d t remaining :
  forall fuel bs retries ctxs w w' r,
    0 <= bs <= Z.of_nat (List.length remaining) ->
    wave_loop sec svc env fuel d t remaining bs retries ctxs w
    = (w', Ok r) ->
    Z.of_nat (List.length r)
    = Z.of_nat (List.length ctxs) + (Z.of_nat (List.length remaining) - bs)
    /\ Z.of_nat (llm_calls w) + (Z.of_nat (List.length remaining) - bs)
       <= Z.of_nat (llm_calls w').
Proof.
  set (n := Z.of_nat (List.length remaining)).
  induction fuel as [|fuel IH]; intros bs retries ctxs w w' r Hbs H.
  - cbn [wave_loop] in H. fold n in H.
    destruct (bs <? n) eqn:E; cbn [negb] in H.
    + unfold diverge in H. discriminate H.
    + apply Z.ltb_ge in E. unfold ret in H. inversion H. subst. lia.
  - destruct (bs <? n) eqn:E.
    2:{ cbn [wave_loop] in H. fold n in H. rewrite E in H.
        cbn [negb] in H. apply Z.ltb_ge in E. unfold ret in H.
        inversion H. subst. lia. }
    apply Z.ltb_lt in E.
    set (batch_end := Z.min (bs + max_concurrent_requests svc) n) in *.
    destruct (gather_wave sec svc env d t 0
                          (py_slice remaining bs batch_end)
                          (fst (log (WaveAttempt bs) w)))
      as [w2 r2] eqn:G.
    rewrite (wave_pass sec svc env batch_size_pos d t remaining fuel bs
                       retries ctxs w E w2 r2 G) in H.
    fold n in H. fold batch_end in H.
    pose proof (gather_wave_calls d t _ _ _ _ _ G) as [G1 G2].
    assert (Hlog : llm_calls (fst (log (WaveAttempt bs) w)) = llm_calls w)
      by reflexivity.
    destruct r2 as [bc|e|]; [| |discriminate H].
    + destruct (G2 bc eq_refl) as [G3 G4].
      pose proof (py_slice_length remaining bs batch_end
                    ltac:(unfold batch_end; lia)
                    ltac:(unfold batch_end; fold n; lia)) as Hslice.
      apply IH in H; [|unfold batch_end; lia].
      rewrite length_app in H.
      assert (Hwhen : llm_calls (fst (when (batch_end <? n)
                                           (sleep (batch_delay * sec)) w2))
                      = llm_calls w2)
        by (destruct (batch_end <? n); reflexivity).
      rewrite Hwhen in H. lia.
    + destruct (is_AnthropicRateLimitError e); [|discriminate H].
      destruct (10 <=? retries)%nat; [discriminate H|].
      apply IH in H; [|lia].
      change (llm_calls (fst (sleep (wave_pause e * sec) w2)))
        with (llm_calls w2) in H. lia.
Qed.

Lemma generate_contexts_result fuel d base t w w' r :
  _generate_contexts_concurrent sec svc env fuel d base t w = (w', Ok r) ->
  List.length r = List.length base
  /\ (llm_calls w + List.length base <= llm_calls w')%nat.
Proof.
  unfold _generate_contexts_concurrent.
  destruct base as [|first remaining]; [unfold raise; discriminate|].
  unfold bind at 1.
  destruct (_generate_chunk_context sec svc env d (b_text first) t true w)
    as [w1 [x| |]] eqn:G; try discriminate.
  apply generate_chunk_context_calls in G. destruct G as [_ G].
  specialize (G x eq_refl).
  destruct remaining as [|b remaining].
  - unfold ret. intros H. inversion H. subst. cbn [List.length]. lia.
  - intros H. apply wave_loop_result in H; [|cbn [List.length]; lia].
    cbn [List.length] in *. lia.
Qed.

(** X17.  For a text estimated at the chunk size
    or above, whenever [chunk_document] returns, it returns one chunk
    per base chunk and in the same order: text, span and token count
    are those of the base chunk, the indices count from 0, every
    chunk passes the model's validation, and the provider was asked at
    least once per chunk. *)
Theorem chunk_document_keeps_base_chunks fuel text title w w' chunks :
  chunk_size svc <= _estimate_tokens (strip text) ->
  chunk_document sec svc env fuel text title w = (w', Ok chunks) ->
  map chunk_fields chunks
  = map base_fields (_create_chunks_with_boundaries svc (strip text))
  /\ map chunk_index chunks
     = indices 0 (List.length
                    (_create_chunks_with_boundaries svc (strip text)))
  /\ Forall (fun c => Chunk_valid c = true) chunks
  /\ (llm_calls w + List.length chunks <= llm_calls w')%nat.
Proof.
  intros Hlong H. unfold chunk_document in H.
  destruct (negb (nonempty (strip text))); [unfold raise in H; discriminate H|].
  destruct (_estimate_tokens (strip text) <? chunk_size svc) eqn:E;
    [apply Z.ltb_lt in E; lia|].
  unfold bind at 1 in H.
  destruct (_generate_contexts_concurrent sec svc env fuel (strip text)
              (_create_chunks_with_boundaries svc (strip text)) title w)
    as [w1 [contexts| |]] eqn:G; try discriminate H.
  apply generate_contexts_result in G. destruct G as [Hlen Hcalls].
  apply build_chunks_fields in H; [|now symmetry].
  destruct H as (-> & Hf & Hi & _ & Hv).
  split; [exact Hf|]. split; [exact Hi|]. split; [exact Hv|].
  assert (Hn : List.length chunks
               = List.length (_create_chunks_with_boundaries svc
                                (strip text))).
  { rewrite <- (length_map chunk_fields), Hf, length_map. reflexivity. }
  lia.
Qed.
End Requests.

(** X18.  A text of whitespace only (the empty text among
    them) makes [chunk_document] raise [ValueError] before anything is
    reserved or requested, and the retry policy does not retry it. *)
Theorem chunk_document_whitespace_only sec svc env fuel text title w :
  all_space text = true ->
  chunk_document sec svc env fuel text title w
  = (w, Raise (builtin_error "ValueError" "Document text is empty"))
  /\ RetryPolicy.is_retryable_error
       (builtin_error "ValueError" "Document text is empty") None = false.
Proof.
  intros H. apply strip_empty in H. unfold chunk_document. rewrite H.
  split; reflexivity.
Qed.

Lemma chunk_document_whitespace_only_witness :
  chunk_document 1000 (get_chunking_service 2 100000)
    (mkEnv (fun _ _ _ => LLMText "unused") (fun _ => 0)
           (fun _ st => st) (fun _ => 1000))
    0 (nl ++ "  ") None (mkWorld RateLimiter.empty_state 0 0 [])
  = (mkWorld RateLimiter.empty_state 0 0 [],
     Raise (builtin_error "ValueError" "Document text is empty")).
Proof.
  apply (chunk_document_whitespace_only
           1000 (get_chunking_service 2 100000)
           (mkEnv (fun _ _ _ => LLMText "unused") (fun _ => 0)
                  (fun _ st => st) (fun _ => 1000))
           0 (nl ++ "  ") None).
  reflexivity.
Defined.

(** X19.  The request for the first chunk is made
    outside the wave loop: when the provider answers it with a 429,
    [chunk_document] does not pause and ask again but raises
    [AnthropicRateLimitError] after that one request.  The error is
    retryable, and a non-zero integer [retry-after] header becomes the
    delay of the job-level retry. *)
Theorem first_request_rate_limited sec svc env fuel text title w w1
        attempts first rest msg header :
  nonempty (strip text) = true ->
  chunk_size svc <= _estimate_tokens (strip text) ->
  _create_chunks_with_boundaries svc (strip text) = first :: rest ->
  reserve sec svc env
          (estimated_request_tokens (strip text) (b_text first) title true)
          max_wait_attempts 0 w = (w1, Ok attempts) ->
  (attempts < max_wait_attempts)%nat ->
  llm env (llm_calls w1) (system_prompt (strip text) title)
      (user_prompt (b_text first)) = LLMRateLimited msg header ->
  let e := AnthropicRateLimitError
             msg (match header with HeaderInt n => Some n | _ => None end) in
  exists w2,
    chunk_document sec svc env fuel text title w = (w2, Raise e)
    /\ llm_calls w2 = S (llm_calls w)
    /\ RetryPolicy.is_retryable_error e None = true
    /\ forall retry_count n,
         header = HeaderInt n -> n <> 0 ->
         RetryPolicy.get_retry_delay retry_count (Some e) = n.
Proof.
  intros Hne Hlong Hbase Hres Hatt Hllm e.
  pose proof (reserve_llm_calls sec svc env _ _ _ _ _ _ Hres) as Hcalls.
  unfold chunk_document. rewrite Hne. cbn [negb].
  destruct (_estimate_tokens (strip text) <? chunk_size svc) eqn:E;
    [apply Z.ltb_lt in E; lia|].
  rewrite Hbase. unfold bind at 1. unfold _generate_contexts_concurrent.
  unfold bind at 1. unfold _generate_chunk_context. unfold bind at 1.
  rewrite Hres.
  destruct (max_wait_attempts <=? attempts)%nat eqn:A;
    [apply Nat.leb_le in A; lia|].
  unfold messages_create. rewrite Hllm.
  eexists. split; [reflexivity|]. cbn [llm_calls].
  split; [now rewrite Hcalls|]. split.
  - apply rate_limit_error_retryable. reflexivity.
  - intros retry_count n -> Hn. unfold e.
    unfold RetryPolicy.get_retry_delay, AnthropicRateLimitError, truthy_int.
    cbn [err_retry_after]. apply Z.eqb_neq in Hn. now rewrite Hn.
Qed.

Lemma first_request_rate_limited_witness :
  exists w2,
    chunk_document 1000
      (mkService 3 1 2 (RateLimiter.mkConfig None (Some 100000)))
      (mkEnv (fun _ _ _ => LLMRateLimited "429" (HeaderInt 17))
             (fun k => Z.of_nat k) (fun _ st => st) (fun _ => 1000))
      50 "One two. Three four! Five six? Seven." None
      (mkWorld RateLimiter.empty_state 0 0 [])
    = (w2, Raise (AnthropicRateLimitError "429" (Some 17)))
    /\ llm_calls w2 = 1%nat.
Proof.
  destruct (first_request_rate_limited
              1000 (mkService 3 1 2 (RateLimiter.mkConfig None (Some 100000)))
              (mkEnv (fun _ _ _ => LLMRateLimited "429" (HeaderInt 17))
                     (fun k => Z.of_nat k) (fun _ st => st) (fun _ => 1000))
              50 "One two. Three four! Five six? Seven." None
              (mkWorld RateLimiter.empty_state 0 0 [])
              _ 0%nat (mkBase "One two." 1 9 2)
              [mkBase "Three four!" 10 21 2; mkBase "Five six? Seven." 22 38 3]
              "429" (HeaderInt 17)
              eq_refl ltac:(vm_compute; discriminate) eq_refl
              ltac:(vm_compute; reflexivity) ltac:(unfold max_wait_attempts; lia)
              eq_refl)
    as (w2 & Hrun & Hcalls & _).
  exists w2. split; [exact Hrun | exact Hcalls].
Defined.

Lemma chunk_document_keeps_base_chunks_witness :
  exists w' chunks,
    chunk_document 1000
      (mkService 3 1 2 (RateLimiter.mkConfig None (Some 100000)))
      (mkEnv (fun _ _ _ => LLMText " Summary of part. ") (fun k => Z.of_nat k)
             (fun _ st => st) (fun _ => 1000))
      50 "One two. Three four! Five six? Seven." None
      (mkWorld RateLimiter.empty_state 0 0 [])
    = (w', Ok chunks)
    /\ map chunk_fields chunks
       = [("One two.", 1, 9, 2); ("Three four!", 10, 21, 2);
          ("Five six? Seven.", 22, 38, 3)]
    /\ map context chunks
       = ["Summary of part."; "Summary of part."; "Summary of part."].
Proof.
  eexists. eexists.
  match goal with
  | |- ?A /\ _ => assert (H : A) by (vm_compute; reflexivity)
  end.
  split; [exact H|]. split; [|reflexivity].
  exact (proj1 (chunk_document_keeps_base_chunks
                  1000 (mkService 3 1 2
                                  (RateLimiter.mkConfig None (Some 100000)))
                  _ eq_refl 50 "One two. Three four! Five six? Seven." None
                  _ _ _ ltac:(vm_compute; discriminate) H)).
Defined.
End ChunkDocumentFacts.

(** * What the handlers enqueue *)

Module QueueFacts.
Import Py PyM PyM.Notations Store RetryPolicy PipelineHelpers Workers
       WorkerShape.

(** *** Steps that leave the queue alone *)


























(** *** Steps that enqueue at most once *)












(** *** The four [except] clauses *)






(** *** The four handlers *)







Example chunk_task_retry_item :
  queue (fst (run_task (mkEnv 1000 (fun _ => Ok "raw")
                              (fun _ => Raise (builtin_error "ConnectionError"
                                                             "reset"))
                              (fun x => x) (fun _ => false)
                              (fun _ _ => Ok "") (fun _ _ => Ok "")
                              (fun _ => None)
                              (fun _ _ _ => Ok ("raw", "application/pdf"))
                              (fun _ _ => ".pdf") (fun _ => Ok []) true
                              (fun _ _ => Ok []) (Ok true) (IntValue 2)
                              (fun _ => EpisodeReturns None) (fun _ => None)
                              (fun _ => None))
                       (ChunkTask 1 7 "extracted_text/7.txt" 2 (Some 4)
                                  Sample.kw)
                       (Sample.world_with JobProcessing)))
  = [mkItem QUEUE_CHUNKING (Some 900%Z)
            (ChunkTask 1 7 "extracted_text/7.txt" 3 (Some 30) Sample.kw)].
Proof. reflexivity. Qed.
End QueueFacts.

(** * Runs of the handlers *)

Module HandlerRuns.
Import Py PyM PyM.Notations Store RetryPolicy PipelineHelpers Workers
       WorkerShape WorkersFacts HandlerFacts.


Lemma failure_result_failed rc e :
  should_retry rc e = false ->
  failure_result rc e = ResultFailed (err_message e) rc.
Proof.
  unfold should_retry, failure_result. intros H.
  apply andb_false_iff in H. destruct H as [H | H].
  - apply Nat.ltb_ge in H.
    destruct (MAX_RETRIES <=? rc)%nat eqn:E; [reflexivity|].
    apply Nat.leb_gt in E. lia.
  - rewrite H. cbn [negb]. now rewrite orb_true_r.
Qed.

Lemma failed_phase_present env (l : list pipeline_phase) mk pid e :
  phase_id (mk pid) = pid ->
  exists p,
    In p (update_where (phase_by_id pid)
            (phase_set_failed (now env) (err_type e) (err_message e))
            (l ++ [mk pid]))
    /\ phase_id p = pid /\ phase_status_of p = Failed
    /\ phase_error_type p = Some (err_type e)
    /\ phase_error_message p = Some (err_message e).
Proof.
  intros Hid. eexists. split.
  - unfold update_where. rewrite map_app. apply in_or_app. right.
    cbn [map]. left. reflexivity.
  - unfold phase_by_id. rewrite Hid, Nat.eqb_refl.
    cbn. rewrite Hid. repeat split; reflexivity.
Qed.







(** X23.  On the local-upload path the give-up
    branch builds the job update around a [jsonb_set] call.  When that
    call raises, the exception leaves the handler: the phase is already
    marked failed, but the job keeps its status and nothing is
    enqueued. *)
Theorem extract_task_give_up_raises env job document_id raw rc parent kw w
        e e2 :
  existsb (job_by_id job) (jobs w) = true ->
  load_raw_document env raw = Raise e ->
  should_retry rc e = false ->
  rpc_jsonb_set env (err_message e) = Raise e2 ->
  let run := extract_task env job document_id raw rc parent kw w in
  snd run = Raise e2
  /\ map job_status_of (jobs (fst run)) = map job_status_of (jobs w)
  /\ queue (fst run) = queue w
  /\ exists p, In p (phases (fst run)) /\ phase_id p = next_id w
               /\ phase_status_of p = Failed.
Proof.
  intros Hjob Hload Hsr Hrpc. cbv zeta.
  destruct (extract_task env job document_id raw rc parent kw w)
    as [w' r] eqn:Hrun. cbn [fst snd].
  destruct (start_phase env job rc
              (processing_phase env job Extraction "extraction" (Some raw) rc
                                parent)
              w Hjob (fun _ => eq_refl)) as (js & E0 & Hjs & Hst).
  unfold extract_task in Hrun.
  unfold bind at 1 in Hrun. rewrite E0 in Hrun.
  unfold bind at 1 in Hrun. unfold attempt at 1 in Hrun.
  unfold bind at 1 in Hrun. unfold lift at 1 in Hrun. rewrite Hload in Hrun.
  unfold extract_task_except in Hrun. rewrite Hsr in Hrun.
  unfold mark_phase_failed, update_phase, modify, bind, lift in Hrun.
  rewrite Hrpc in Hrun.
  apply pair_equal_spec in Hrun. destruct Hrun as [<- <-]. simpl_world.
  split; [reflexivity|]. split; [exact Hst|]. split; [reflexivity|].
  destruct (failed_phase_present env (phases w)
              (processing_phase env job Extraction "extraction" (Some raw) rc
                                parent)
              (next_id w) e eq_refl) as (p & Hp & Hid & Hs & _).
  exists p. auto.
Qed.

Lemma extract_task_give_up_raises_witness :
  snd (extract_task (Scenario.env (Raise Scenario.not_found) (Ok "")
                                  (Raise (APIError "function not found")))
                    1 7 "raw_documents/7.mp4" 0 None Sample.kw
                    Scenario.fresh_world)
  = Raise (APIError "function not found").
Proof.
  apply (extract_task_give_up_raises
           (Scenario.env (Raise Scenario.not_found) (Ok "")
                         (Raise (APIError "function not found")))
           1 7 "raw_documents/7.mp4" 0 None Sample.kw Scenario.fresh_world
           Scenario.not_found (APIError "function not found")
           eq_refl eq_refl eq_refl eq_refl).
Defined.

(** X24.  The graph handler run on a document without
    chunk rows gives up at once, whatever the retry count: the missing
    chunks are a [ValueError], which is not retried.  The phase and the
    job are marked failed, nothing is enqueued, and neither the graph
    engine nor the mapping table is touched. *)
Theorem ingest_kg_task_without_chunks env job document_id rc parent kw w :
  existsb (job_by_id job) (jobs w) = true ->
  document_chunks document_id w = [] ->
  let run := ingest_kg_task env job document_id rc parent kw w in
  snd run = Ok (ResultFailed ("No chunks found for document "
                              ++ show_id document_id) rc)
  /\ queue (fst run) = queue w
  /\ graph_calls (fst run) = graph_calls w
  /\ mappings (fst run) = mappings w
  /\ (exists p, In p (phases (fst run)) /\ phase_id p = next_id w
                /\ phase_status_of p = Failed
                /\ phase_error_type p = Some "ValueError")
  /\ (forall j, In j (jobs (fst run)) -> job_id j = job ->
                job_status_of j = JobFailed).
Proof.
  intros Hjob Hnone. cbv zeta.
  destruct (ingest_kg_task env job document_id rc parent kw w)
    as [w' r] eqn:Hrun. cbn [fst snd].
  destruct (start_phase env job rc
              (processing_phase env job KgIngest "kg_ingest" None rc parent)
              w Hjob (fun _ => eq_refl)) as (js & E0 & Hjs & Hst).
  set (e := ValueError ("No chunks found for document "
                        ++ show_id document_id)).
  assert (Hsr : should_retry rc e = false).
  { unfold should_retry, e, ValueError.
    rewrite RetryPolicyFacts.ValueError_not_retryable. apply andb_false_r. }
  unfold ingest_kg_task in Hrun.
  unfold bind at 1 in Hrun. rewrite E0 in Hrun.
  unfold bind at 1 in Hrun. unfold attempt at 1 in Hrun.
  unfold ingest_kg_body in Hrun. unfold bind at 1 in Hrun.
  unfold get in Hrun.
  unfold document_chunks in Hrun, Hnone. simpl_world_in Hrun.
  rewrite Hnone in Hrun. unfold raise in Hrun. fold e in Hrun.
  unfold ingest_kg_task_except in Hrun. rewrite Hsr in Hrun.
  rewrite (failure_result_failed rc e Hsr) in Hrun.
  unfold mark_phase_failed, update_phase, update_job, modify, bind, ret
    in Hrun.
  apply pair_equal_spec in Hrun. destruct Hrun as [<- <-]. simpl_world.
  split; [reflexivity|]. split; [reflexivity|]. split; [reflexivity|].
  split; [reflexivity|]. split.
  - destruct (failed_phase_present env (phases w)
                (processing_phase env job KgIngest "kg_ingest" None rc parent)
                (next_id w) e eq_refl) as (p & Hp & Hid & Hs & Ht & _).
    exists p. auto.
  - intros j Hj Hid. apply updated_rows in Hj.
    destruct Hj as [[x [_ [_ ->]]] | [_ Hp]]; [reflexivity|].
    unfold job_by_id in Hp. apply Nat.eqb_neq in Hp. contradiction.
Qed.

Lemma ingest_kg_task_without_chunks_witness :
  snd (ingest_kg_task (Sample.env 9 "") 1 7 3 None Sample.kw
                      Scenario.fresh_world)
  = Ok (ResultFailed "No chunks found for document 7" 3).
Proof.
  apply (ingest_kg_task_without_chunks (Sample.env 9 "") 1 7 3 None Sample.kw
           Scenario.fresh_world eq_refl eq_refl).
Defined.

(** *** The graph handler on a complete run *)




(** *** From the chunker to the graph handler *)











(** *** Cancellation and the external-source handler *)

Lemma selected_after_update (q : pipeline_job -> bool)
      (f : pipeline_job -> pipeline_job) i (l : list pipeline_job) j :
  (forall x, job_id (f x) = job_id x) ->
  (forall x, job_id x = i -> q x = true) ->
  In j l -> job_id j = i ->
  exists x rest,
    select_where (job_by_id i) (update_where q f l) = f x :: rest.
Proof.
  intros Hf Hq. induction l as [|a l IH]; intros Hj Hid; [contradiction|].
  unfold select_where, update_where. cbn [map filter].
  destruct (Nat.eq_dec (job_id a) i) as [Ea | Ea].
  - rewrite (Hq a Ea). unfold job_by_id at 1. rewrite Hf, Ea, Nat.eqb_refl.
    eexists. eexists. reflexivity.
  - assert (Hskip : job_by_id i (if q a then f a else a) = false).
    { unfold job_by_id. destruct (q a); [rewrite Hf|];
        now apply Nat.eqb_neq. }
    rewrite Hskip. apply IH; [|exact Hid].
    destruct Hj as [<- | Hj]; [contradiction | exact Hj].
Qed.

(** X27.  Cancellation and the job check of the
    external-source handler fit together: once
    [cancel_pipeline_jobs_for_document] has run for a document, an
    invocation of [ingest_extract_task] for any job of the document that
    was active returns [skipped] and leaves the store as it is. *)
Theorem cancelled_job_is_skipped env now_jobs now_phases document_id org_id
        j w src ft rc pi pe kw :
  In j (jobs w) ->
  job_document_id j = document_id ->
  job_clerk_org_id j = org_id ->
  Deletion.job_is_active j = true ->
  let w1 := fst (Deletion.cancel_pipeline_jobs_for_document
                   now_jobs now_phases document_id org_id w) in
  ingest_extract_task env (job_id j) document_id src ft rc pi pe kw w1
  = (w1, Ok (ResultSkipped "pipeline_job_cancelled" document_id)).
Proof.
  intros Hin Hdoc Horg Hact. cbv zeta.
  set (sel := fun x => (job_document_id x =? document_id)%nat
                       && String.eqb (job_clerk_org_id x) org_id
                       && Deletion.job_is_active x).
  assert (Hsel : In j (select_where sel (jobs w))).
  { unfold select_where. apply filter_In. split; [exact Hin|].
    unfold sel. rewrite Hdoc, Horg, Nat.eqb_refl, String.eqb_refl, Hact.
    reflexivity. }
  assert (Hjobs : jobs (fst (Deletion.cancel_pipeline_jobs_for_document
                               now_jobs now_phases document_id org_id w))
                  = update_where
                      (fun x => Deletion.id_in (job_id x)
                                  (map job_id (select_where sel (jobs w))))
                      (job_set_status now_jobs JobCancelled) (jobs w)).
  { unfold Deletion.cancel_pipeline_jobs_for_document, try_except, bind, get.
    fold sel. destruct (select_where sel (jobs w)) as [|a l] eqn:E;
      [contradiction|].
    unfold modify, ret. reflexivity. }
  destruct (selected_after_update
              (fun x => Deletion.id_in (job_id x)
                          (map job_id (select_where sel (jobs w))))
              (job_set_status now_jobs JobCancelled) (job_id j) (jobs w) j
              (fun _ => eq_refl)) as (x & rest & Hx); [|exact Hin|reflexivity|].
  { intros y Hy. unfold Deletion.id_in. apply existsb_exists.
    exists (job_id j). split; [now apply in_map|].
    rewrite Hy. apply Nat.eqb_refl. }
  apply (proj2 (ingest_extract_task_skips env (job_id j) document_id src ft
                  rc pi pe kw _) (job_set_status now_jobs JobCancelled x) rest).
  - rewrite Hjobs. exact Hx.
  - reflexivity.
Qed.

Lemma cancelled_job_is_skipped_witness :
  snd (ingest_extract_task (Sample.env 9 "") 1 7 "gdrive://abc" (Some "pdf") 0
                           None None Sample.kw
                           (fst (Deletion.cancel_pipeline_jobs_for_document
                                   50 51 7 "org_a" Scenario.fresh_world)))
  = Ok (ResultSkipped "pipeline_job_cancelled" 7).
Proof.
  exact (f_equal snd
           (cancelled_job_is_skipped (Sample.env 9 "") 50 51 7 "org_a"
              (mkJob 1 7 "org_a" Extraction JobProcessing (Some 10%Z) None
                     None [])
              Scenario.fresh_world "gdrive://abc" (Some "pdf") 0 None None
              Sample.kw (or_introl eq_refl) eq_refl eq_refl eq_refl)).
Defined.
End HandlerRuns.
